(** * Match lifecycle engine of the socket game server

    Shallow embedding of the two server variants of the repository
    ([src/server.js] and [src/unnamed/part_000]) and the properties of the
    matchmaking queue, the match registry, the round scheduler and the
    score handlers.

    Conventions of the embedding
    - a socket is identified by its [socket.id] (a string); the mutable
      properties the handlers attach to it ([user], [roomId]) live in a map
      from ids to socket records; a socket that has not been touched yet is
      the default record with both properties [undefined];
    - [rooms] is the global object of the source: a map from room ids to
      room objects.  Room objects are captured by timer closures, so they
      live in a store ([heap]) and [rooms] maps an id to a store index:
      overwriting [rooms[roomId]] leaves the old object alive for the
      closures that captured it;
    - [setTimeout] / [setInterval] add an entry to the table of pending
      timers; the event loop firing a timer is the event [Fire tid];
    - [Math.random()] is an oracle [random : nat -> Z] read through a cursor
      kept in the state: draw number [i] is the double [random i / 2^53];
    - scores and points are JavaScript numbers, that is binary64 values
      ([Js.number]), and [+=] on them is the binary64 addition [Js.add].
      The model covers numeric [points]; a payload that [+] converts to a
      number behaves as that number ([undefined] as [NaN], [null] and
      [false] as 0, [true] as 1), while on a string, an array or an object
      [+=] concatenates, which is outside of the model;
    - the payload of [identify] is a profile object [{ uid, name, avatar }]
      or is missing ([undefined] or [null]);
    - an uncaught [TypeError] (a property read or written on [undefined])
      is the outcome [Throw], which ends the run;
    - the transport keeps the membership of the broadcast rooms: a socket
      joins with [socket.join], leaves with [socket.leave], and has left
      every room when its [disconnect] handler runs.

    The events of a run are the messages of the connected sockets and the
    firings of pending timers, in the order the event loop handles them. *)

From Stdlib Require Import ZArith Lia.
From stdpp Require Import gmap strings list fin_maps.

#[global] Set Warnings "-clear-no-such-hyp".

Open Scope Z_scope.

(** ** The JavaScript runtime pieces the handlers rely on *)
Module Js.

(** Binary64 rounding (to nearest, ties to even) of the integer [m], read
    as the numerator of [m / 2^53]: [m] keeps its 53 leading bits. *)
Definition round53 (m : Z) : Z :=
  let e := Z.log2 m - 52 in
  if e <=? 0 then m
  else
    let q := m / 2 ^ e in
    let r := m mod 2 ^ e in
    let half := 2 ^ (e - 1) in
    if r <? half then q * 2 ^ e
    else if half <? r then (q + 1) * 2 ^ e
    else (if Z.even q then q else q + 1) * 2 ^ e.

(** A JavaScript number, an IEEE 754 binary64 value.  Every finite double
    is an integer multiple of [2^-1074], the least subnormal: [Fin n] is the
    double of value [n * 2^-1074], where [n] has at most 53 significant bits
    and [|n| < 2^2098]; [Fin 0] is [+0] and [NegZero] is [-0]. *)
Inductive number :=
| NaN
| Inf (negative : bool)
| NegZero
| Fin (n : Z).

(** The integer [z] as a number: exact when [z] is a double, in particular
    for [|z| <= 2^53]. *)
Definition of_Z (z : Z) : number := Fin (z * 2 ^ 1074).

(** The exact value of a finite number, in units of [2^-1074]. *)
Definition units (x : number) : option Z :=
  match x with
  | Fin n => Some n
  | NegZero => Some 0
  | NaN | Inf _ => None
  end.

(** The double nearest to the exact value [s] (in units of [2^-1074]): the
    magnitude keeps its 53 leading bits, ties going to even, and a result
    of magnitude [2^1024] or more is an infinity.  A zero sum is [+0]. *)
Definition to_number (s : Z) : number :=
  let r := Z.sgn s * round53 (Z.abs s) in
  if 2 ^ 2098 <=? Z.abs r then Inf (s <? 0) else Fin r.

(** The numbers that are doubles: a finite one has at most 53 significant
    bits and a magnitude below [2^1024]. *)
Definition is_double (x : number) : bool :=
  match x with
  | Fin n => (round53 (Z.abs n) =? Z.abs n) && (Z.abs n <? 2 ^ 2098)
  | _ => true
  end.

(** [x + y] on numbers. *)
Definition add (x y : number) : number :=
  match x, y with
  | NaN, _ | _, NaN => NaN
  | Inf a, Inf b => if Bool.eqb a b then Inf a else NaN
  | Inf a, _ | _, Inf a => Inf a
  | NegZero, NegZero => NegZero
  | NegZero, Fin n | Fin n, NegZero => Fin n
  | Fin a, Fin b => to_number (a + b)
  end.

(** JavaScript values: what travels in event payloads and what the objects
    of the server hold.  [JNum z] is a number the server computes itself as
    an integer (round numbers, indices, durations), [JDouble x] a number as
    a binary64 value (a score); [JSocket] and [JTimer] are references to a
    socket object and to the handle of a pending timer. *)
#[local] Unset Elimination Schemes.
Inductive json :=
| JUndefined
| JNull
| JNum (z : Z)
| JDouble (x : number)
| JStr (s : string)
| JArr (items : list json)
| JObj (fields : list (string * json))
| JSocket (id : string)
| JTimer (tid : nat).
#[local] Set Elimination Schemes.

Fixpoint assoc (k : string) (fs : list (string * json)) : option json :=
  match fs with
  | [] => None
  | (k', v) :: fs' => if decide (k' = k) then Some v else assoc k fs'
  end.

(** [v.k] for a payload object. *)
Definition prop (k : string) (v : json) : option json :=
  match v with
  | JObj fs => assoc k fs
  | _ => None
  end.

(** The profile sent with [identify]: [{ uid, name, avatar }]. *)
Record profile := { uid : string; name : string; avatar : string }.

(** Where an emission goes: [io.to(room).emit] reaches the sockets that are
    members of the room at that moment, [socket.emit] one socket. *)
Inductive target :=
| ToRoom (room : string) (recipients : gset string)
| ToSocket (h : string).

Record emission := { dest : target; evname : string; payload : option json }.

(** Outcome of running a handler: it returns, or a [TypeError] escapes. *)
Inductive outcome (A : Type) :=
| Ok (a : A)
| Throw.
Arguments Ok {A} a.
Arguments Throw {A}.

Definition bind {A B} (m : outcome A) (k : A → outcome B) : outcome B :=
  match m with
  | Ok a => k a
  | Throw => Throw
  end.

(** Reading a property of a value that may be [undefined]. *)
Definition deref {A} (o : option A) : outcome A :=
  match o with
  | Some a => Ok a
  | None => Throw
  end.

(** [l[i]] for an array: [undefined] out of range. *)
Definition index (l : list Z) (i : Z) : json :=
  if i <? 0 then JUndefined
  else match l !! Z.to_nat i with
       | Some z => JNum z
       | None => JUndefined
       end.

(** [Math.floor(Math.random() * n)] where the draw is [k / 2^53]: the
    product is rounded to a double, then floored. *)
Definition floor_random_times (k n : Z) : Z := round53 (k * n) / 2 ^ 53.

(** [queue.pop()]: removes and returns the last element. *)
Definition pop (q : list string) : option (string * list string) :=
  match last q with
  | Some x => Some (x, removelast q)
  | None => None
  end.

(** [i = queue.indexOf(s); if (i > -1) queue.splice(i, 1)]: drops the first
    occurrence. *)
Fixpoint remove_first (s : string) (q : list string) : list string :=
  match q with
  | [] => []
  | x :: q' => if decide (x = s) then q' else x :: remove_first s q'
  end.

(** Room membership kept by the transport ([socket.join], [socket.leave],
    and the automatic leave of every room when a socket disconnects). *)
Definition join (room h : string) (ms : gmap string (gset string))
  : gmap string (gset string) :=
  <[room := {[h]} ∪ default ∅ (ms !! room)]> ms.

Definition leave (room h : string) (ms : gmap string (gset string))
  : gmap string (gset string) :=
  <[room := default ∅ (ms !! room) ∖ {[h]}]> ms.

Definition leave_all (h : string) (ms : gmap string (gset string))
  : gmap string (gset string) :=
  (λ s : gset string, s ∖ {[h]}) <$> ms.

Definition to_room (ms : gmap string (gset string)) (room : string)
    (ev : string) (p : option json) : emission :=
  {| dest := ToRoom room (default ∅ (ms !! room)); evname := ev; payload := p |}.

Definition to_socket (h : string) (ev : string) (p : option json) : emission :=
  {| dest := ToSocket h; evname := ev; payload := p |}.

(** The three game events of a match, addressed to room [rid]. *)
Definition game_event (rid : string) (e : emission) : Prop :=
  (∃ rs, dest e = ToRoom rid rs) ∧
  (evname e = "round_start" ∨ evname e = "round_reveal"
   ∨ evname e = "score_update")%string.

End Js.

#[global] Instance outcome_bind : MBind Js.outcome := λ A B k m, Js.bind m k.

(** ** [src/server.js] *)
Module ServerJs.
Import Js.

Definition DECK_SIZE : Z := 300.

(** [socket.user]: the profile received with [identify] plus the [score]
    property the handler adds to it. *)
Record user_record := { data : profile; score : number }.

Record socket := { user : option user_record; roomId : option string }.

(** A room object.  [p1] and [p2] reference sockets. *)
Record room := {
  id : string;
  p1 : string;
  p2 : string;
  round : Z;
  maxRounds : Z;
  phase : string;
  deck : list Z
}.

(** The closures handed to [setTimeout].  The two inner ones of
    [startGameLoop] capture the room object read when the loop started. *)
Inductive callback :=
| StartGameLoop (rid : string)
| EndOfGuessing (rid : string) (ref : nat)
| EndOfReveal (rid : string) (ref : nat).

Record timer := { delay : Z; run : callback }.

Record state := {
  sockets : gmap string socket;
  queue : list string;
  rooms : gmap string nat;
  heap : list room;
  members : gmap string (gset string);
  timers : gmap nat timer;
  next_timer : nat;
  rng : nat
}.

Definition init : state :=
  {| sockets := ∅; queue := []; rooms := ∅; heap := []; members := ∅;
     timers := ∅; next_timer := 0; rng := 0 |}.

Inductive event :=
| Identify (h : string) (userData : option profile)
| Disconnect (h : string)
| SubmitScore (h : string) (points : number)
| Fire (tid : nat).

Definition fresh_socket : socket := {| user := None; roomId := None |}.

Definition sock (st : state) (h : string) : socket :=
  default fresh_socket (sockets st !! h).

Definition set_sockets (m : gmap string socket) (st : state) : state :=
  {| sockets := m; queue := queue st; rooms := rooms st; heap := heap st;
     members := members st; timers := timers st; next_timer := next_timer st;
     rng := rng st |}.

Definition set_queue (q : list string) (st : state) : state :=
  {| sockets := sockets st; queue := q; rooms := rooms st; heap := heap st;
     members := members st; timers := timers st; next_timer := next_timer st;
     rng := rng st |}.

Definition set_rooms (m : gmap string nat) (st : state) : state :=
  {| sockets := sockets st; queue := queue st; rooms := m; heap := heap st;
     members := members st; timers := timers st; next_timer := next_timer st;
     rng := rng st |}.

Definition set_heap (l : list room) (st : state) : state :=
  {| sockets := sockets st; queue := queue st; rooms := rooms st; heap := l;
     members := members st; timers := timers st; next_timer := next_timer st;
     rng := rng st |}.

Definition set_members (m : gmap string (gset string)) (st : state) : state :=
  {| sockets := sockets st; queue := queue st; rooms := rooms st;
     heap := heap st; members := m; timers := timers st;
     next_timer := next_timer st; rng := rng st |}.

Definition set_timers (m : gmap nat timer) (n : nat) (st : state) : state :=
  {| sockets := sockets st; queue := queue st; rooms := rooms st;
     heap := heap st; members := members st; timers := m; next_timer := n;
     rng := rng st |}.

Definition set_rng (n : nat) (st : state) : state :=
  {| sockets := sockets st; queue := queue st; rooms := rooms st;
     heap := heap st; members := members st; timers := timers st;
     next_timer := next_timer st; rng := n |}.

Definition set_user (h : string) (u : user_record) (st : state) : state :=
  set_sockets (<[h := {| user := Some u; roomId := roomId (sock st h) |}]>
                 (sockets st)) st.

Definition set_roomId (h : string) (r : string) (st : state) : state :=
  set_sockets (<[h := {| user := user (sock st h); roomId := Some r |}]>
                 (sockets st)) st.

Definition setTimeout (cb : callback) (ms : Z) (st : state) : state :=
  set_timers (<[next_timer st := {| delay := ms; run := cb |}]> (timers st))
             (S (next_timer st)) st.

Definition user_json (u : user_record) : json :=
  JObj [("uid", JStr (uid (data u))); ("name", JStr (name (data u)));
        ("avatar", JStr (avatar (data u))); ("score", JDouble (score u))]%string.

(** [s.user.score] *)
Definition score_of (st : state) (h : string) : outcome number :=
  u ← deref (user (sock st h)); Ok (score u).

Definition scores_json (k1 k2 : string) (s1 s2 : number) : json :=
  JObj [(k1, JDouble s1); (k2, JDouble s2)].

(** The room object as the literal of [matchmake] builds it, with the
    current values of its properties. *)
Definition room_object (r : room) : json :=
  JObj [("id", JStr (id r)); ("p1", JSocket (p1 r)); ("p2", JSocket (p2 r));
        ("round", JNum (round r)); ("maxRounds", JNum (maxRounds r));
        ("phase", JStr (phase r)); ("deck", JArr (JNum <$> deck r))]%string.

Section Handlers.
Variable random : nat → Z.

Fixpoint generateDeck_loop (n : nat) (deck : list Z) (cursor : nat)
  : list Z * nat :=
  match n with
  | O => (deck, cursor)
  | S n' =>
      generateDeck_loop n'
        (deck ++ [floor_random_times (random cursor) DECK_SIZE]) (S cursor)
  end.

Definition generateDeck (count : nat) (cursor : nat) : list Z * nat :=
  generateDeck_loop count [] cursor.

Definition matchmake (h : string) (st : state)
  : outcome (state * list emission) :=
  match pop (queue st) with
  | Some (opponent, rest) =>
      let st := set_queue rest st in
      let rid := ("room_" +:+ opponent +:+ "_" +:+ h)%string in
      let st := set_members (join rid opponent (join rid h (members st))) st in
      let st := set_roomId opponent rid (set_roomId h rid st) in
      let '(d, cursor) := generateDeck 15 (rng st) in
      let st := set_rng cursor st in
      let r := {| id := rid; p1 := opponent; p2 := h; round := 0;
                  maxRounds := 15; phase := "lobby"; deck := d |} in
      let ref := length (heap st) in
      let st := set_rooms (<[rid := ref]> (rooms st))
                          (set_heap (heap st ++ [r]) st) in
      u1 ← deref (user (sock st opponent));
      u2 ← deref (user (sock st h));
      let found := JObj [("p1", user_json u1); ("p2", user_json u2);
                         ("roomId", JStr rid)]%string in
      Ok (setTimeout (StartGameLoop rid) 3000 st,
          [to_room (members st) rid "match_found" (Some found)])
  | None =>
      Ok (set_queue (queue st ++ [h]) st,
          [to_socket h "waiting_opponent" None])
  end.

(** The closure [nextRound] of [startGameLoop], over [roomId] and [room]. *)
Definition nextRound (rid : string) (ref : nat) (st : state)
  : outcome (state * list emission) :=
  r ← deref (heap st !! ref);
  if bool_decide (maxRounds r ≤ round r) then
    s1 ← score_of st (p1 r);
    s2 ← score_of st (p2 r);
    Ok (set_rooms (delete rid (rooms st)) st,
        [to_room (members st) rid "game_over"
           (Some (scores_json "p1Score" "p2Score" s1 s2))])
  else
    let r' := {| id := id r; p1 := p1 r; p2 := p2 r; round := round r + 1;
                 maxRounds := maxRounds r; phase := phase r;
                 deck := deck r |} in
    let st := set_heap (<[ref := r']> (heap st)) st in
    let songIndex := index (deck r') (round r' - 1) in
    let seekTime := floor_random_times (random (rng st)) 11 + 40 in
    let st := set_rng (S (rng st)) st in
    let start := JObj [("round", JNum (round r')); ("songIndex", songIndex);
                       ("seekTime", JNum seekTime);
                       ("duration", JNum 20)]%string in
    Ok (setTimeout (EndOfGuessing rid ref) 20000 st,
        [to_room (members st) rid "round_start" (Some start)]).

Definition startGameLoop (rid : string) (st : state)
  : outcome (state * list emission) :=
  match rooms st !! rid with
  | None => Ok (st, [])
  | Some ref => nextRound rid ref st
  end.

Definition call (cb : callback) (st : state)
  : outcome (state * list emission) :=
  match cb with
  | StartGameLoop rid => startGameLoop rid st
  | EndOfGuessing rid ref =>
      match rooms st !! rid with
      | None => Ok (st, [])
      | Some _ =>
          Ok (setTimeout (EndOfReveal rid ref) 8000 st,
              [to_room (members st) rid "round_reveal" None])
      end
  | EndOfReveal rid ref =>
      match rooms st !! rid with
      | None => Ok (st, [])
      | Some _ => nextRound rid ref st
      end
  end.

(** [socket.user = userData; socket.user.score = 0; matchmake(socket)]: the
    assignment to [score] raises when the payload is missing. *)
Definition on_identify (h : string) (userData : option profile) (st : state)
  : outcome (state * list emission) :=
  d ← deref userData;
  matchmake h (set_user h {| data := d; score := of_Z 0 |} st).

Definition on_disconnect (h : string) (st : state)
  : outcome (state * list emission) :=
  let st := set_members (leave_all h (members st)) st in
  let st := set_queue (remove_first h (queue st)) st in
  match roomId (sock st h) with
  | None => Ok (st, [])
  | Some rid =>
      match rooms st !! rid with
      | None => Ok (st, [])
      | Some _ =>
          Ok (set_rooms (delete rid (rooms st)) st,
              [to_room (members st) rid "opponent_left" None])
      end
  end.

Definition on_submit_score (h : string) (points : number) (st : state)
  : outcome (state * list emission) :=
  match roomId (sock st h) with
  | None => Ok (st, [])
  | Some rid =>
      match rooms st !! rid with
      | None => Ok (st, [])
      | Some ref =>
          u ← deref (user (sock st h));
          let st := set_user h {| data := data u;
                                    score := add (score u) points |} st in
          r ← deref (heap st !! ref);
          s1 ← score_of st (p1 r);
          s2 ← score_of st (p2 r);
          Ok (st, [to_room (members st) rid "score_update"
                     (Some (scores_json "p1" "p2" s1 s2))])
      end
  end.

Definition step (st : state) (ev : event) : outcome (state * list emission) :=
  match ev with
  | Identify h userData => on_identify h userData st
  | Disconnect h => on_disconnect h st
  | SubmitScore h points => on_submit_score h points st
  | Fire tid =>
      match timers st !! tid with
      | None => Ok (st, [])
      | Some t =>
          call (run t) (set_timers (delete tid (timers st)) (next_timer st) st)
      end
  end.

(** Running the server on a sequence of events, collecting what it emits. *)
Fixpoint exec (st : state) (evs : list event)
  : outcome (state * list emission) :=
  match evs with
  | [] => Ok (st, [])
  | ev :: evs' =>
      '(st1, out1) ← step st ev;
      '(st2, out2) ← exec st1 evs';
      Ok (st2, out1 ++ out2)
  end.

End Handlers.

Arguments on_identify random h !userData st /.

End ServerJs.

(** ** [src/unnamed/part_000] *)
Module Part000.
Import Js.

Definition DB_LENGTH : Z := 300.

Record socket := { user : option profile; roomId : option string }.

(** [room.scores] *)
Record scoreboard := { sp1 : number; sp2 : number }.

Record room := {
  id : string;
  p1 : string;
  p2 : string;
  scores : scoreboard;
  round : Z;
  maxRounds : Z;
  deck : list Z;
  timer : option nat
}.

(** [StartRound] is the closure of the two [setTimeout] calls (lobby delay
    and reveal pause); [Countdown] is the [setInterval] closure of
    [startRound], over [roomId], [room] and its local [timeLeft]. *)
Inductive callback :=
| StartRound (rid : string)
| Countdown (rid : string) (ref : nat) (timeLeft : Z).

Record pending := { delay : Z; repeat : bool; run : callback }.

Record state := {
  sockets : gmap string socket;
  waitingPlayer : option string;
  rooms : gmap string nat;
  heap : list room;
  members : gmap string (gset string);
  timers : gmap nat pending;
  next_timer : nat;
  rng : nat
}.

Definition init : state :=
  {| sockets := ∅; waitingPlayer := None; rooms := ∅; heap := [];
     members := ∅; timers := ∅; next_timer := 0; rng := 0 |}.

Inductive event :=
| Identify (h : string) (userData : option profile)
| Disconnect (h : string)
| SubmitScore (h : string) (points : number)
| Fire (tid : nat).

Definition fresh_socket : socket := {| user := None; roomId := None |}.

Definition sock (st : state) (h : string) : socket :=
  default fresh_socket (sockets st !! h).

Definition set_sockets (m : gmap string socket) (st : state) : state :=
  {| sockets := m; waitingPlayer := waitingPlayer st; rooms := rooms st;
     heap := heap st; members := members st; timers := timers st;
     next_timer := next_timer st; rng := rng st |}.

Definition set_waitingPlayer (w : option string) (st : state) : state :=
  {| sockets := sockets st; waitingPlayer := w; rooms := rooms st;
     heap := heap st; members := members st; timers := timers st;
     next_timer := next_timer st; rng := rng st |}.

Definition set_rooms (m : gmap string nat) (st : state) : state :=
  {| sockets := sockets st; waitingPlayer := waitingPlayer st; rooms := m;
     heap := heap st; members := members st; timers := timers st;
     next_timer := next_timer st; rng := rng st |}.

Definition set_heap (l : list room) (st : state) : state :=
  {| sockets := sockets st; waitingPlayer := waitingPlayer st;
     rooms := rooms st; heap := l; members := members st;
     timers := timers st; next_timer := next_timer st; rng := rng st |}.

Definition set_members (m : gmap string (gset string)) (st : state) : state :=
  {| sockets := sockets st; waitingPlayer := waitingPlayer st;
     rooms := rooms st; heap := heap st; members := m; timers := timers st;
     next_timer := next_timer st; rng := rng st |}.

Definition set_timers (m : gmap nat pending) (n : nat) (st : state) : state :=
  {| sockets := sockets st; waitingPlayer := waitingPlayer st;
     rooms := rooms st; heap := heap st; members := members st; timers := m;
     next_timer := n; rng := rng st |}.

Definition set_rng (n : nat) (st : state) : state :=
  {| sockets := sockets st; waitingPlayer := waitingPlayer st;
     rooms := rooms st; heap := heap st; members := members st;
     timers := timers st; next_timer := next_timer st; rng := n |}.

Definition set_user (h : string) (u : profile) (st : state) : state :=
  set_sockets (<[h := {| user := Some u; roomId := roomId (sock st h) |}]>
                 (sockets st)) st.

Definition set_roomId (h : string) (r : string) (st : state) : state :=
  set_sockets (<[h := {| user := user (sock st h); roomId := Some r |}]>
                 (sockets st)) st.

Definition setTimeout (cb : callback) (ms : Z) (st : state) : state :=
  set_timers (<[next_timer st :=
                  {| delay := ms; repeat := false; run := cb |}]> (timers st))
             (S (next_timer st)) st.

(** [clearInterval(t)]: nothing happens when [t] is [null] or not pending. *)
Definition clearInterval (t : option nat) (st : state) : state :=
  match t with
  | Some tid => set_timers (delete tid (timers st)) (next_timer st) st
  | None => st
  end.

Definition user_json (u : profile) : json :=
  JObj [("uid", JStr (uid u)); ("name", JStr (name u));
        ("avatar", JStr (avatar u))]%string.

Definition scores_json (s : scoreboard) : json :=
  JObj [("p1", JDouble (sp1 s)); ("p2", JDouble (sp2 s))]%string.

(** The room object as the literal of [findMatch] builds it, with the
    current values of its properties. *)
Definition room_object (r : room) : json :=
  JObj [("id", JStr (id r)); ("p1", JSocket (p1 r)); ("p2", JSocket (p2 r));
        ("scores", scores_json (scores r)); ("round", JNum (round r));
        ("maxRounds", JNum (maxRounds r)); ("deck", JArr (JNum <$> deck r));
        ("timer", match timer r with
                  | Some tid => JTimer tid
                  | None => JNull
                  end)]%string.

Definition set_scores (s : scoreboard) (r : room) : room :=
  {| id := id r; p1 := p1 r; p2 := p2 r; scores := s; round := round r;
     maxRounds := maxRounds r; deck := deck r; timer := timer r |}.

Definition set_round (n : Z) (r : room) : room :=
  {| id := id r; p1 := p1 r; p2 := p2 r; scores := scores r; round := n;
     maxRounds := maxRounds r; deck := deck r; timer := timer r |}.

Definition set_timer (t : option nat) (r : room) : room :=
  {| id := id r; p1 := p1 r; p2 := p2 r; scores := scores r;
     round := round r; maxRounds := maxRounds r; deck := deck r;
     timer := t |}.

Section Handlers.
Variable random : nat → Z.

Fixpoint generateDeck_loop (n : nat) (deck : list Z) (cursor : nat)
  : list Z * nat :=
  match n with
  | O => (deck, cursor)
  | S n' =>
      generateDeck_loop n'
        (deck ++ [floor_random_times (random cursor) DB_LENGTH]) (S cursor)
  end.

Definition generateDeck (size : nat) (cursor : nat) : list Z * nat :=
  generateDeck_loop size [] cursor.

Definition findMatch (h : string) (st : state)
  : outcome (state * list emission) :=
  match waitingPlayer st with
  | Some opponent =>
      let st := set_waitingPlayer None st in
      let rid := ("room_" +:+ opponent +:+ "_" +:+ h)%string in
      let st := set_members (join rid opponent (join rid h (members st))) st in
      let st := set_roomId opponent rid (set_roomId h rid st) in
      let '(d, cursor) := generateDeck 15 (rng st) in
      let st := set_rng cursor st in
      let r := {| id := rid; p1 := opponent; p2 := h;
                  scores := {| sp1 := of_Z 0; sp2 := of_Z 0 |}; round := 0;
                  maxRounds := 15; deck := d; timer := None |} in
      let ref := length (heap st) in
      let st := set_rooms (<[rid := ref]> (rooms st))
                          (set_heap (heap st ++ [r]) st) in
      u1 ← deref (user (sock st opponent));
      u2 ← deref (user (sock st h));
      let found := JObj [("p1", user_json u1); ("p2", user_json u2)]%string in
      Ok (setTimeout (StartRound rid) 3000 st,
          [to_room (members st) rid "match_found" (Some found)])
  | None =>
      Ok (set_waitingPlayer (Some h) st,
          [to_socket h "waiting_opponent" None])
  end.

Definition endGame (rid : string) (st : state)
  : outcome (state * list emission) :=
  match rooms st !! rid with
  | None => Ok (st, [])
  | Some ref =>
      r ← deref (heap st !! ref);
      let out := [to_room (members st) rid "game_over"
                    (Some (scores_json (scores r)))] in
      let st := set_members (leave rid (p2 r) (leave rid (p1 r) (members st)))
                            st in
      Ok (set_rooms (delete rid (rooms st)) st, out)
  end.

Definition startRound (rid : string) (st : state)
  : outcome (state * list emission) :=
  match rooms st !! rid with
  | None => Ok (st, [])
  | Some ref =>
      r ← deref (heap st !! ref);
      if bool_decide (maxRounds r ≤ round r) then endGame rid st
      else
        let r := set_round (round r + 1) r in
        let songIndex := index (deck r) (round r - 1) in
        let seekTime := floor_random_times (random (rng st)) 11 + 40 in
        let st := set_rng (S (rng st)) st in
        let start := JObj [("round", JNum (round r)); ("songIndex", songIndex);
                           ("seekTime", JNum seekTime);
                           ("duration", JNum 20)]%string in
        let out := [to_room (members st) rid "round_start" (Some start)] in
        let tid := next_timer st in
        let st := set_timers
                    (<[tid := {| delay := 1000; repeat := true;
                                 run := Countdown rid ref 20 |}]> (timers st))
                    (S tid) st in
        Ok (set_heap (<[ref := set_timer (Some tid) r]> (heap st)) st, out)
  end.

Definition revealRound (rid : string) (st : state)
  : outcome (state * list emission) :=
  match rooms st !! rid with
  | None => Ok (st, [])
  | Some _ =>
      Ok (setTimeout (StartRound rid) 8000 st,
          [to_room (members st) rid "round_reveal" None])
  end.

(** One tick of the countdown interval [tid] of [startRound]. *)
Definition tick (tid : nat) (rid : string) (ref : nat) (timeLeft : Z)
    (st : state) : outcome (state * list emission) :=
  let timeLeft := timeLeft - 1 in
  let st := set_timers
              (<[tid := {| delay := 1000; repeat := true;
                           run := Countdown rid ref timeLeft |}]> (timers st))
              (next_timer st) st in
  if bool_decide (timeLeft ≤ 0) then
    r ← deref (heap st !! ref);
    revealRound rid (clearInterval (timer r) st)
  else Ok (st, []).

Definition handleDisconnect (h : string) (st : state)
  : outcome (state * list emission) :=
  let st := if bool_decide (waitingPlayer st = Some h)
            then set_waitingPlayer None st else st in
  match roomId (sock st h) with
  | None => Ok (st, [])
  | Some rid =>
      match rooms st !! rid with
      | None => Ok (st, [])
      | Some ref =>
          let out := [to_room (members st) rid "opponent_left" None] in
          r ← deref (heap st !! ref);
          let st := clearInterval (timer r) st in
          Ok (set_rooms (delete rid (rooms st)) st, out)
      end
  end.

(** [socket.user = userData; console.log(socket.user.name);
    findMatch(socket)]: the read of [name] raises when the payload is
    missing. *)
Definition on_identify (h : string) (userData : option profile) (st : state)
  : outcome (state * list emission) :=
  d ← deref userData;
  findMatch h (set_user h d st).

Definition on_disconnect (h : string) (st : state)
  : outcome (state * list emission) :=
  handleDisconnect h (set_members (leave_all h (members st)) st).

Definition on_submit_score (h : string) (points : number) (st : state)
  : outcome (state * list emission) :=
  match roomId (sock st h) with
  | None => Ok (st, [])
  | Some rid =>
      match rooms st !! rid with
      | None => Ok (st, [])
      | Some ref =>
          r ← deref (heap st !! ref);
          let s := scores r in
          let s := if bool_decide (h = p1 r)
                   then {| sp1 := add (sp1 s) points; sp2 := sp2 s |}
                   else {| sp1 := sp1 s; sp2 := add (sp2 s) points |} in
          let st := set_heap (<[ref := set_scores s r]> (heap st)) st in
          Ok (st, [to_room (members st) rid "score_update"
                     (Some (scores_json s))])
      end
  end.

Definition step (st : state) (ev : event) : outcome (state * list emission) :=
  match ev with
  | Identify h userData => on_identify h userData st
  | Disconnect h => on_disconnect h st
  | SubmitScore h points => on_submit_score h points st
  | Fire tid =>
      match timers st !! tid with
      | None => Ok (st, [])
      | Some t =>
          match run t with
          | StartRound rid =>
              startRound rid
                (set_timers (delete tid (timers st)) (next_timer st) st)
          | Countdown rid ref timeLeft => tick tid rid ref timeLeft st
          end
      end
  end.

Fixpoint exec (st : state) (evs : list event)
  : outcome (state * list emission) :=
  match evs with
  | [] => Ok (st, [])
  | ev :: evs' =>
      '(st1, out1) ← step st ev;
      '(st2, out2) ← exec st1 evs';
      Ok (st2, out1 ++ out2)
  end.

End Handlers.

Arguments on_identify random h !userData st /.

End Part000.

(** ** Reachable states and the well-formedness they satisfy *)
Module ServerSpec.
Import Js ServerJs.

(** The states the server goes through, started from [init]. *)
Definition reachable (random : nat → Z) (st : state) : Prop :=
  ∃ evs out, exec random init evs = Ok (st, out).

(** A timer closure refers to a room object that exists. *)
Definition closure_ok (st : state) (cb : callback) : Prop :=
  match cb with
  | StartGameLoop _ => True
  | EndOfGuessing _ ref | EndOfReveal _ ref => is_Some (heap st !! ref)
  end.

(** What holds of every reachable state: the sockets the handlers
    dereference have a [user], registered rooms and timer closures refer to
    room objects of the store, the queue has at most one entry, and the
    round counter of a room object stays within its 15 rounds. *)
Record wf (st : state) : Prop := {
  wf_queue_user : ∀ h, h ∈ queue st → is_Some (user (sock st h));
  wf_room_user :
    ∀ h rid, roomId (sock st h) = Some rid → is_Some (user (sock st h));
  wf_players :
    ∀ ref r, heap st !! ref = Some r →
      is_Some (user (sock st (p1 r))) ∧ is_Some (user (sock st (p2 r)));
  wf_rooms : ∀ rid ref, rooms st !! rid = Some ref → is_Some (heap st !! ref);
  wf_timers :
    ∀ tid t, timers st !! tid = Some t →
      (tid < next_timer st)%nat ∧ closure_ok st (run t);
  wf_queue_len : (length (queue st) ≤ 1)%nat;
  wf_round :
    ∀ ref r, heap st !! ref = Some r →
      0 ≤ round r ≤ maxRounds r ∧ maxRounds r = 15 ∧ length (deck r) = 15%nat
}.

(** The event brings what its handler dereferences: an [identify] carries
    its payload. *)
Definition has_payload (ev : event) : bool :=
  match ev with
  | Identify _ None => false
  | _ => true
  end.

(** How one step moves the round counters: it leaves every counter as it
    is and announces no round, or it enters the guessing phase of exactly
    one room object, whose counter goes up by one and is announced. *)
Definition keeps_rounds (st st' : state) (out : list emission) : Prop :=
  (∀ e, e ∈ out → evname e ≠ "round_start"%string) ∧
  (∀ ref r, heap st !! ref = Some r →
     ∃ r', heap st' !! ref = Some r' ∧ round r' = round r).

Definition starts_round (st st' : state) (out : list emission) : Prop :=
  ∃ ref r r' e p,
    heap st !! ref = Some r ∧ heap st' !! ref = Some r' ∧
    round r < maxRounds r ∧ round r' = round r + 1 ∧
    out = [e] ∧ evname e = "round_start"%string ∧
    payload e = Some p ∧ prop "round" p = Some (JNum (round r')) ∧
    (∀ i, i ≠ ref → heap st' !! i = heap st !! i).

(** The room a timer closure works on. *)
Definition callback_room (cb : callback) : string :=
  match cb with
  | StartGameLoop rid | EndOfGuessing rid _ | EndOfReveal rid _ => rid
  end.

(** [rid] is not registered before any of the steps of the run. *)
Fixpoint unregistered_throughout (random : nat → Z) (rid : string)
    (st : state) (evs : list event) : Prop :=
  match evs with
  | [] => True
  | ev :: evs' =>
      rooms st !! rid = None ∧
      match step random st ev with
      | Ok (st', _) => unregistered_throughout random rid st' evs'
      | Throw => True
      end
  end.

(** A submission of [h] is accepted when its [roomId] is registered. *)
Definition accepted (st : state) (h : string) : bool :=
  match roomId (sock st h) with
  | Some rid => bool_decide (is_Some (rooms st !! rid))
  | None => false
  end.

(** The sum of the points of the accepted submissions of [h] since its last
    [identify], along the run [evs] from [st], on top of [acc]. *)
Fixpoint credited (random : nat → Z) (h : string) (st : state)
    (evs : list event) (acc : number) : number :=
  match evs with
  | [] => acc
  | ev :: evs' =>
      let acc' :=
        match ev with
        | Identify h' _ => if decide (h' = h) then of_Z 0 else acc
        | SubmitScore h' points =>
            if decide (h' = h)
            then if accepted st h then add acc points else acc
            else acc
        | _ => acc
        end in
      match step random st ev with
      | Ok (st', _) => credited random h st' evs' acc'
      | Throw => acc'
      end
  end.

(** [h] is [p1] or [p2] of the room registered under [rid]. *)
Definition participant (st : state) (h rid : string) : Prop :=
  ∃ ref r, rooms st !! rid = Some ref ∧ heap st !! ref = Some r ∧
           (p1 r = h ∨ p2 r = h).

(** [h] takes part in a registered room. *)
Definition enrolled (st : state) (h : string) : bool :=
  existsb (λ kv : string * nat,
             match heap st !! kv.2 with
             | Some r => bool_decide (p1 r = h) || bool_decide (p2 r = h)
             | None => false
             end)
          (map_to_list (rooms st)).

(** Every [identify] of the run comes from a socket that, at that moment,
    takes part in no registered room. *)
Fixpoint outsiders_only (random : nat → Z) (st : state) (evs : list event)
  : bool :=
  match evs with
  | [] => true
  | ev :: evs' =>
      match ev with
      | Identify h _ => negb (enrolled st h)
      | _ => true
      end
      && match step random st ev with
         | Ok (st', _) => outsiders_only random st' evs'
         | Throw => true
         end
  end.

(** A waiting socket takes part in no registered room, and a socket takes
    part in one registered room only. *)
Record lone (st : state) : Prop := {
  lone_waiting : ∀ h rid, h ∈ queue st → ¬ participant st h rid;
  lone_room :
    ∀ h rid1 rid2, participant st h rid1 → participant st h rid2 →
                   rid1 = rid2
}.

(** Every socket id that sends [identify] in the run has [n] characters. *)
Definition ids_of_length (n : nat) (evs : list event) : bool :=
  forallb (λ ev, match ev with
                 | Identify h _ => bool_decide (String.length h = n)
                 | _ => true
                 end) evs.

(** The ids of the waiting sockets and of the sockets of the room objects
    have [n] characters. *)
Definition sized (n : nat) (st : state) : Prop :=
  (∀ h, h ∈ queue st → String.length h = n) ∧
  (∀ ref r, heap st !! ref = Some r →
     String.length (p1 r) = n ∧ String.length (p2 r) = n).

(** Where a registered room object of the state after a step comes from. *)
Definition origin (st : state) (ev : event) (rid : string) (ref : nat)
    (r' : room) : Prop :=
  (∃ r, rooms st !! rid = Some ref ∧ heap st !! ref = Some r ∧
        p1 r' = p1 r ∧ p2 r' = p2 r)
  ∨ (∃ hn d opp rest,
       ev = Identify hn d ∧ pop (queue st) = Some (opp, rest) ∧
       rid = ("room_" +:+ opp +:+ "_" +:+ hn)%string ∧
       p1 r' = opp ∧ p2 r' = hn).

(** The pending timers whose closure works on room [rid]. *)
Definition outstanding (rid : string) (st : state) : gmap nat timer :=
  filter (λ kt, callback_room (run kt.2) = rid) (timers st).

End ServerSpec.

Module PartSpec.
Import Js Part000.

Definition reachable (random : nat → Z) (st : state) : Prop :=
  ∃ evs out, exec random init evs = Ok (st, out).

(** A timer closure refers to a room object that exists. *)
Definition closure_ok (st : state) (cb : callback) : Prop :=
  match cb with
  | StartRound _ => True
  | Countdown _ ref _ => is_Some (heap st !! ref)
  end.

(** What holds of every reachable state. *)
Record wf (st : state) : Prop := {
  pwf_waiting_user :
    ∀ h, waitingPlayer st = Some h → is_Some (user (sock st h));
  pwf_rooms : ∀ rid ref, rooms st !! rid = Some ref → is_Some (heap st !! ref);
  pwf_timers :
    ∀ tid t, timers st !! tid = Some t →
      (tid < next_timer st)%nat ∧ closure_ok st (run t);
  pwf_round :
    ∀ ref r, heap st !! ref = Some r →
      0 ≤ round r ≤ maxRounds r ∧ maxRounds r = 15 ∧ length (deck r) = 15%nat
}.

Definition has_payload (ev : event) : bool :=
  match ev with
  | Identify _ None => false
  | _ => true
  end.

Definition keeps_rounds (st st' : state) (out : list emission) : Prop :=
  (∀ e, e ∈ out → evname e ≠ "round_start"%string) ∧
  (∀ ref r, heap st !! ref = Some r →
     ∃ r', heap st' !! ref = Some r' ∧ round r' = round r).

Definition starts_round (st st' : state) (out : list emission) : Prop :=
  ∃ ref r r' e p,
    heap st !! ref = Some r ∧ heap st' !! ref = Some r' ∧
    round r < maxRounds r ∧ round r' = round r + 1 ∧
    out = [e] ∧ evname e = "round_start"%string ∧
    payload e = Some p ∧ prop "round" p = Some (JNum (round r')) ∧
    (∀ i, i ≠ ref → heap st' !! i = heap st !! i).

(** The room a timer closure works on. *)
Definition callback_room (cb : callback) : string :=
  match cb with
  | StartRound rid | Countdown rid _ _ => rid
  end.

(** [h] is [p1] or [p2] of the room registered under [rid]. *)
Definition participant (st : state) (h rid : string) : Prop :=
  ∃ ref r, rooms st !! rid = Some ref ∧ heap st !! ref = Some r ∧
           (p1 r = h ∨ p2 r = h).

(** [h] takes part in a registered room. *)
Definition enrolled (st : state) (h : string) : bool :=
  existsb (λ kv : string * nat,
             match heap st !! kv.2 with
             | Some r => bool_decide (p1 r = h) || bool_decide (p2 r = h)
             | None => false
             end)
          (map_to_list (rooms st)).

(** Every [identify] of the run comes from a socket that, at that moment,
    takes part in no registered room. *)
Fixpoint outsiders_only (random : nat → Z) (st : state) (evs : list event)
  : bool :=
  match evs with
  | [] => true
  | ev :: evs' =>
      match ev with
      | Identify h _ => negb (enrolled st h)
      | _ => true
      end
      && match step random st ev with
         | Ok (st', _) => outsiders_only random st' evs'
         | Throw => true
         end
  end.

(** The waiting socket takes part in no registered room, and a socket takes
    part in one registered room only. *)
Record lone (st : state) : Prop := {
  plone_waiting :
    ∀ h rid, waitingPlayer st = Some h → ¬ participant st h rid;
  plone_room :
    ∀ h rid1 rid2, participant st h rid1 → participant st h rid2 →
                   rid1 = rid2
}.

(** Every socket id that sends [identify] in the run has [n] characters. *)
Definition ids_of_length (n : nat) (evs : list event) : bool :=
  forallb (λ ev, match ev with
                 | Identify h _ => bool_decide (String.length h = n)
                 | _ => true
                 end) evs.

(** The ids of the waiting socket and of the sockets of the room objects
    have [n] characters. *)
Definition sized (n : nat) (st : state) : Prop :=
  (∀ h, waitingPlayer st = Some h → String.length h = n) ∧
  (∀ ref r, heap st !! ref = Some r →
     String.length (p1 r) = n ∧ String.length (p2 r) = n).

(** The room object a submission of [h] is applied to, if it is accepted. *)
Definition routed (st : state) (h : string) : option nat :=
  match roomId (sock st h) with
  | Some rid => rooms st !! rid
  | None => None
  end.

Definition credit (h : string) (points : number) (r : room)
    (acc : scoreboard)
  : scoreboard :=
  if bool_decide (h = p1 r)
  then {| sp1 := add (sp1 acc) points; sp2 := sp2 acc |}
  else {| sp1 := sp1 acc; sp2 := add (sp2 acc) points |}.

Definition zero : scoreboard := {| sp1 := of_Z 0; sp2 := of_Z 0 |}.

(** The scoreboard made of the accepted submissions applied to the room
    object [ref] along the run [evs] from [st], on top of [acc]: a
    submission of the socket that is [p1] counts for [p1], any other
    for [p2]. *)
Fixpoint ledger (random : nat → Z) (ref : nat) (st : state)
    (evs : list event) (acc : scoreboard) : scoreboard :=
  match evs with
  | [] => acc
  | ev :: evs' =>
      let acc' :=
        match ev with
        | SubmitScore h points =>
            match routed st h, heap st !! ref with
            | Some ref', Some r =>
                if decide (ref' = ref) then credit h points r acc else acc
            | _, _ => acc
            end
        | _ => acc
        end in
      match step random st ev with
      | Ok (st', _) => ledger random ref st' evs' acc'
      | Throw => acc'
      end
  end.

(** [rid] is not registered before any of the steps of the run. *)
Fixpoint unregistered_throughout (random : nat → Z) (rid : string)
    (st : state) (evs : list event) : Prop :=
  match evs with
  | [] => True
  | ev :: evs' =>
      rooms st !! rid = None ∧
      match step random st ev with
      | Ok (st', _) => unregistered_throughout random rid st' evs'
      | Throw => True
      end
  end.

(** The scoreboard of a room object after a step, from the one before. *)
Definition scores_after (st : state) (ev : event) (ref : nat) (r : room)
  : scoreboard :=
  match ev with
  | SubmitScore h points =>
      match routed st h with
      | Some ref' =>
          if decide (ref' = ref) then credit h points r (scores r)
          else scores r
      | None => scores r
      end
  | _ => scores r
  end.

(** Where a registered room object of the state after a step comes from. *)
Definition part_origin (st : state) (ev : event) (rid : string) (ref : nat)
    (r' : room) : Prop :=
  (∃ r, rooms st !! rid = Some ref ∧ heap st !! ref = Some r ∧
        p1 r' = p1 r ∧ p2 r' = p2 r)
  ∨ (∃ hn d opp,
       ev = Identify hn d ∧ waitingPlayer st = Some opp ∧
       rid = ("room_" +:+ opp +:+ "_" +:+ hn)%string ∧
       p1 r' = opp ∧ p2 r' = hn).

End PartSpec.

(** ** Concrete players and a concrete random source for the scenarios *)
Module Scenario.
Import Js.

(** Draw number [n] of the random source, a double [k / 2^53]. *)
Definition rnd (n : nat) : Z :=
  (Z.of_nat n * 1234567891234567 + 987654321987) mod 2 ^ 53.

Definition ann : profile := {| uid := "u1"; name := "Ann"; avatar := "a.png" |}.
Definition bob : profile := {| uid := "u2"; name := "Bob"; avatar := "b.png" |}.
Definition cat : profile := {| uid := "u3"; name := "Cat"; avatar := "c.png" |}.

(** State and emissions of [src/server.js] after a run from [init]. *)
Definition server_after (evs : list ServerJs.event) : ServerJs.state :=
  match ServerJs.exec rnd ServerJs.init evs with
  | Ok (st, _) => st
  | Throw => ServerJs.init
  end.

Definition server_emits (evs : list ServerJs.event) : list emission :=
  match ServerJs.exec rnd ServerJs.init evs with
  | Ok (_, out) => out
  | Throw => []
  end.

(** The same for [src/unnamed/part_000]. *)
Definition part_after (evs : list Part000.event) : Part000.state :=
  match Part000.exec rnd Part000.init evs with
  | Ok (st, _) => st
  | Throw => Part000.init
  end.

Definition part_emits (evs : list Part000.event) : list emission :=
  match Part000.exec rnd Part000.init evs with
  | Ok (_, out) => out
  | Throw => []
  end.

(** Room object number [ref] of the store after a run. *)
Definition server_room (evs : list ServerJs.event) (ref : nat) : ServerJs.room :=
  default
    {| ServerJs.id := EmptyString; ServerJs.p1 := EmptyString;
       ServerJs.p2 := EmptyString; ServerJs.round := 0;
       ServerJs.maxRounds := 0; ServerJs.phase := EmptyString;
       ServerJs.deck := [] |}
    (ServerJs.heap (server_after evs) !! ref).

Definition part_room (evs : list Part000.event) (ref : nat) : Part000.room :=
  default
    {| Part000.id := EmptyString; Part000.p1 := EmptyString;
       Part000.p2 := EmptyString;
       Part000.scores := {| Part000.sp1 := of_Z 0; Part000.sp2 := of_Z 0 |};
       Part000.round := 0; Part000.maxRounds := 0; Part000.deck := [];
       Part000.timer := None |}
    (Part000.heap (part_after evs) !! ref).

(** A is paired with B and leaves during the lobby delay. *)
Definition lobby_leave : list ServerJs.event :=
  [ServerJs.Identify "A" (Some ann); ServerJs.Identify "B" (Some bob);
   ServerJs.Disconnect "A"].

(** A and B are paired, identify again during the lobby delay and are
    paired again under the same id; then the lobby timer of the first
    pairing fires. *)
Definition double_pairing : list ServerJs.event :=
  [ServerJs.Identify "A" (Some ann); ServerJs.Identify "B" (Some bob);
   ServerJs.Identify "A" (Some ann); ServerJs.Identify "B" (Some bob);
   ServerJs.Fire 0].

(** In [src/unnamed/part_000]: round 1 starts (timer 0), its countdown
    (interval 1) ticks 20 times and the reveal begins; A leaves during the
    reveal pause. *)
Definition reveal_leave : list Part000.event :=
  [Part000.Identify "A" (Some ann); Part000.Identify "B" (Some bob);
   Part000.Fire 0]
  ++ repeat (Part000.Fire 1) 20 ++ [Part000.Disconnect "A"].

(** In [src/unnamed/part_000]: round 1 starts and its countdown has ticked
    twice. *)
Definition guessing : list Part000.event :=
  [Part000.Identify "A" (Some ann); Part000.Identify "B" (Some bob);
   Part000.Fire 0;
   Part000.Fire 1; Part000.Fire 1].

(** A is paired with B, identifies again while that match is registered,
    and is paired with C. *)
Definition two_rooms : list ServerJs.event :=
  [ServerJs.Identify "A" (Some ann); ServerJs.Identify "B" (Some bob);
   ServerJs.Identify "A" (Some ann); ServerJs.Identify "C" (Some cat)].

Definition part_two_rooms : list Part000.event :=
  [Part000.Identify "A" (Some ann); Part000.Identify "B" (Some bob);
   Part000.Identify "A" (Some ann); Part000.Identify "C" (Some cat)].

(** A submits 10 points, identifies again while the match is on, and
    submits 5 more. *)
Definition reidentify : list ServerJs.event :=
  [ServerJs.Identify "A" (Some ann); ServerJs.Identify "B" (Some bob);
   ServerJs.SubmitScore "A" (of_Z 10); ServerJs.Identify "A" (Some ann);
   ServerJs.SubmitScore "A" (of_Z 5)].

(** A and B are paired and play a whole match of [src/server.js]: timer 0
    is the lobby delay, timer [2n-1] ends the guessing of round [n] and
    timer [2n] ends its reveal; timer 30 finds the counter at 15 and ends
    the match. *)
Definition full_game : list ServerJs.event :=
  [ServerJs.Identify "A" (Some ann); ServerJs.Identify "B" (Some bob)]
  ++ map ServerJs.Fire (seq 0 31).

(** Both sockets, still connected, identify again and are paired again. *)
Definition rematch : list ServerJs.event :=
  [ServerJs.Identify "A" (Some ann); ServerJs.Identify "B" (Some bob);
   ServerJs.Fire 31].

(** What an emission shows on the wire: event name and payload. *)
Definition wire (e : emission) : string * option json := (evname e, payload e).

End Scenario.

(** ** Notions used by the properties of the room store and the schedule *)
Module ServerInv.
Import Js ServerJs.

(** The fields of a room object that are written once, when it is built. *)
Definition same_static (r r' : room) : Prop :=
  id r' = id r ∧ p1 r' = p1 r ∧ p2 r' = p2 r ∧
  maxRounds r' = maxRounds r ∧ phase r' = phase r ∧ deck r' = deck r.

(** The sum of the round counters of all room objects. *)
Definition rounds_played (st : state) : Z :=
  foldr Z.add 0 (round <$> heap st).

(** The event pairs the arriving socket [hn] with the waiting socket [opp]. *)
Definition pairs (st : state) (ev : event) (opp hn : string) : Prop :=
  ∃ d rest, ev = Identify hn d ∧ pop (queue st) = Some (opp, rest).

(** The room object [matchmake] builds for that pair. *)
Definition paired_room (random : nat → Z) (st : state) (opp hn : string)
  : room :=
  {| id := ("room_" +:+ opp +:+ "_" +:+ hn)%string; p1 := opp; p2 := hn;
     round := 0; maxRounds := 15; phase := "lobby";
     deck := (generateDeck random 15 (rng st)).1 |}.

(** What the room store of a reachable state satisfies: a room object is
    named after its two participants and its [phase] is still the one it
    was built with, the registry files a room object under its own id, and
    the [roomId] of a socket names a room object the socket was paired
    into. *)
Record sound (st : state) : Prop := {
  sound_named :
    ∀ ref r, heap st !! ref = Some r →
      id r = ("room_" +:+ p1 r +:+ "_" +:+ p2 r)%string ∧
      phase r = "lobby"%string;
  sound_key :
    ∀ rid ref r, rooms st !! rid = Some ref → heap st !! ref = Some r →
      id r = rid;
  sound_roomId :
    ∀ h rid, roomId (sock st h) = Some rid →
      ∃ ref r, heap st !! ref = Some r ∧ id r = rid ∧ (p1 r = h ∨ p2 r = h)
}.

(** Every deck entry is an index of the catalog. *)
Definition decks_ok (st : state) : Prop :=
  ∀ ref r, heap st !! ref = Some r → Forall (λ x, 0 ≤ x < DECK_SIZE) (deck r).

End ServerInv.

Module PartInv.
Import Js Part000.

Definition same_static (r r' : room) : Prop :=
  id r' = id r ∧ p1 r' = p1 r ∧ p2 r' = p2 r ∧
  maxRounds r' = maxRounds r ∧ deck r' = deck r.

Definition rounds_played (st : state) : Z :=
  foldr Z.add 0 (round <$> heap st).

Definition pairs (st : state) (ev : event) (opp hn : string) : Prop :=
  ∃ d, ev = Identify hn d ∧ waitingPlayer st = Some opp.

(** The room object [findMatch] builds for that pair. *)
Definition paired_room (random : nat → Z) (st : state) (opp hn : string)
  : room :=
  {| id := ("room_" +:+ opp +:+ "_" +:+ hn)%string; p1 := opp; p2 := hn;
     scores := {| sp1 := of_Z 0; sp2 := of_Z 0 |}; round := 0;
     maxRounds := 15;
     deck := (generateDeck random 15 (rng st)).1; timer := None |}.

Record sound (st : state) : Prop := {
  psound_named :
    ∀ ref r, heap st !! ref = Some r →
      id r = ("room_" +:+ p1 r +:+ "_" +:+ p2 r)%string;
  psound_key :
    ∀ rid ref r, rooms st !! rid = Some ref → heap st !! ref = Some r →
      id r = rid;
  psound_roomId :
    ∀ h rid, roomId (sock st h) = Some rid →
      ∃ ref r, heap st !! ref = Some r ∧ id r = rid ∧ (p1 r = h ∨ p2 r = h)
}.

Definition decks_ok (st : state) : Prop :=
  ∀ ref r, heap st !! ref = Some r → Forall (λ x, 0 ≤ x < DB_LENGTH) (deck r).

End PartInv.

Module Wire.
Import Js.

(** How many emissions of a list carry the event name [ev]. *)
Definition count (ev : string) (out : list emission) : Z :=
  Z.of_nat (length (filter (λ e, evname e = ev) out)).

End Wire.

(** ** The countdown of a round in [src/unnamed/part_000] *)
Module Countdown.
Import Js Part000.

(** The interval of [startRound] as it is pending with [n] seconds left. *)
Definition ticking (rid : string) (ref : nat) (n : Z) : pending :=
  {| delay := 1000; repeat := true; run := Countdown rid ref n |}.

(** The fields a tick that is not the last leaves alone. *)
Definition same_but_timers (st st' : state) : Prop :=
  sockets st' = sockets st ∧ waitingPlayer st' = waitingPlayer st ∧
  rooms st' = rooms st ∧ heap st' = heap st ∧ members st' = members st ∧
  next_timer st' = next_timer st ∧ rng st' = rng st.

End Countdown.

(** ** One more event after a concrete run *)
Module Play.
Import Js Scenario.

Definition paired : list ServerJs.event :=
  [ServerJs.Identify "A" (Some ann); ServerJs.Identify "B" (Some bob)].

Definition part_paired : list Part000.event :=
  [Part000.Identify "A" (Some ann); Part000.Identify "B" (Some bob)].

(** A whole match of [src/server.js] with two submissions, up to the reveal
    of round 15: timer 30, scheduled by that reveal, is pending. *)
Definition last_reveal : list ServerJs.event :=
  [ServerJs.Identify "A" (Some ann); ServerJs.Identify "B" (Some bob);
   ServerJs.Fire 0; ServerJs.SubmitScore "A" (of_Z 100);
   ServerJs.SubmitScore "B" (of_Z 40)]
  ++ map ServerJs.Fire (seq 1 29).

(** A and B are paired and A submits [2^53] points. *)
Definition large : list ServerJs.event :=
  [ServerJs.Identify "A" (Some ann); ServerJs.Identify "B" (Some bob);
   ServerJs.SubmitScore "A" (of_Z (2 ^ 53))].

(** State and emissions of the step taken on [ev] after the run [evs]. *)
Definition server_next (evs : list ServerJs.event) (ev : ServerJs.event)
  : ServerJs.state :=
  match ServerJs.step rnd (server_after evs) ev with
  | Ok (st, _) => st
  | Throw => server_after evs
  end.

Definition server_says (evs : list ServerJs.event) (ev : ServerJs.event)
  : list emission :=
  match ServerJs.step rnd (server_after evs) ev with
  | Ok (_, out) => out
  | Throw => []
  end.

Definition part_next (evs : list Part000.event) (ev : Part000.event)
  : Part000.state :=
  match Part000.step rnd (part_after evs) ev with
  | Ok (st, _) => st
  | Throw => part_after evs
  end.

Definition part_says (evs : list Part000.event) (ev : Part000.event)
  : list emission :=
  match Part000.step rnd (part_after evs) ev with
  | Ok (_, out) => out
  | Throw => []
  end.

End Play.
Module JsFacts.
Import Js.

Lemma round53_bounds m :
  0 ≤ m →
  0 ≤ round53 m ∧
  (round53 m = m ∨
   ∃ half, 0 < half ∧ half * 2 ^ 53 ≤ m ∧ round53 m ≤ m + half).
Proof.
  intros Hm. unfold round53.
  destruct (Z.leb_spec (Z.log2 m - 52) 0) as [He|He]; [lia|].
  set (e := Z.log2 m - 52) in *.
  assert (Hpos : 0 < m) by (destruct (Z.eq_dec m 0) as [->|]; [simpl in *; lia|lia]).
  assert (Hhalf : 0 < 2 ^ (e - 1)) by (apply Z.pow_pos_nonneg; lia).
  assert (HP : 2 ^ e = 2 * 2 ^ (e - 1)).
  { replace e with (Z.succ (e - 1)) at 1 by lia. rewrite Z.pow_succ_r; lia. }
  assert (Hlog : 2 ^ (e - 1) * 2 ^ 53 ≤ m).
  { rewrite <- Z.pow_add_r by lia. replace (e - 1 + 53) with (Z.log2 m) by lia.
    apply Z.log2_spec; lia. }
  pose proof (Z.div_mod m (2 ^ e) ltac:(lia)) as Hdm.
  pose proof (Z.mod_pos_bound m (2 ^ e) ltac:(lia)) as Hr.
  assert (Hq : 0 ≤ m / 2 ^ e) by (apply Z.div_pos; lia).
  set (q := m / 2 ^ e) in *. set (r := m mod 2 ^ e) in *.
  set (h := 2 ^ (e - 1)) in *.
  split.
  - repeat case_match; nia.
  - right. exists h. split; [lia|]. split; [lia|].
    destruct (Z.ltb_spec r h); [nia|].
    destruct (Z.ltb_spec h r); [nia|].
    destruct (Z.even q); nia.
Qed.

Lemma floor_random_times_range k n :
  0 ≤ k < 2 ^ 53 → 0 < n → 0 ≤ floor_random_times k n < n.
Proof.
  intros Hk Hn. unfold floor_random_times.
  assert (Hm : 0 ≤ k * n) by nia.
  destruct (round53_bounds (k * n) Hm) as [H0 Hup].
  split; [apply Z.div_pos; lia|].
  apply Z.div_lt_upper_bound; [lia|].
  destruct Hup as [->|(h & Hh & Hlow & Hle)]; nia.
Qed.

Lemma pop_Some q x rest : pop q = Some (x, rest) → q = rest ++ [x].
Proof.
  unfold pop. destruct (last q) as [y|] eqn:Hl; [|done].
  intros [= <- <-]. apply last_Some in Hl as [l' ->].
  by rewrite removelast_last.
Qed.

Lemma pop_None q : pop q = None → q = [].
Proof.
  unfold pop. destruct (last q) eqn:Hl; [done|]. intros _.
  by apply last_None.
Qed.

Lemma bind_Ok {A B} (m : outcome A) (k : A → outcome B) b :
  m ≫= k = Ok b → ∃ a, m = Ok a ∧ k a = Ok b.
Proof. destruct m as [a|]; [|done]. intros H. by exists a. Qed.

Lemma deref_Ok {A} (o : option A) a : deref o = Ok a → o = Some a.
Proof. destruct o; [|done]. by intros [= ->]. Qed.

Lemma elem_of_remove_first h x q : x ∈ remove_first h q → x ∈ q.
Proof.
  induction q as [|y q IH]; simpl; [done|].
  case_decide; rewrite !elem_of_cons; tauto.
Qed.

Lemma length_remove_first h q : (length (remove_first h q) ≤ length q)%nat.
Proof.
  induction q as [|y q IH]; simpl; [done|]. case_decide; simpl; lia.
Qed.


Lemma joined_both rid w h (ms : gmap string (gset string)) :
  w ∈ default ∅ (join rid w (join rid h ms) !! rid) ∧
  h ∈ default ∅ (join rid w (join rid h ms) !! rid).
Proof.
  unfold join. rewrite !lookup_insert_eq. simpl. set_solver.
Qed.

Lemma round53_exact k j :
  0 ≤ k ≤ 2 ^ 53 → 0 ≤ j → round53 (k * 2 ^ j) = k * 2 ^ j.
Proof.
  intros Hk Hj. unfold round53.
  destruct (Z.leb_spec (Z.log2 (k * 2 ^ j) - 52) 0) as [He|He]; [done|].
  assert (0 < k) as Hpos.
  { destruct (Z.eq_dec k 0) as [->|]; [|lia]. simpl in He. lia. }
  rewrite Z.log2_mul_pow2 in * by lia.
  set (e := j + Z.log2 k - 52) in *.
  assert (∃ c, k * 2 ^ j = c * 2 ^ e) as [c Hc].
  { destruct (Z.eq_dec k (2 ^ 53)) as [->|Hne].
    - exists (2 ^ 52). unfold e. rewrite Z.log2_pow2 by lia.
      rewrite <- !Z.pow_add_r by lia. f_equal. lia.
    - assert (Z.log2 k < 53) by (apply Z.log2_lt_pow2; lia).
      exists (k * 2 ^ (j - e)). rewrite <- Z.mul_assoc, <- Z.pow_add_r by lia.
      do 2 f_equal. lia. }
  assert (0 < 2 ^ e) by (apply Z.pow_pos_nonneg; lia).
  assert (0 < 2 ^ (e - 1)) by (apply Z.pow_pos_nonneg; lia).
  rewrite Hc, Z.mod_mul, Z.div_mul by lia.
  by rewrite (proj2 (Z.ltb_lt _ _)) by lia.
Qed.

Lemma add_of_Z a b :
  Z.abs (a + b) ≤ 2 ^ 53 → add (of_Z a) (of_Z b) = of_Z (a + b).
Proof.
  intros Hab. unfold of_Z. cbn [add]. rewrite <- Z.mul_add_distr_r.
  unfold to_number.
  assert (0 < 2 ^ 1074) as HU by (by apply Z.pow_pos_nonneg).
  assert (Z.abs ((a + b) * 2 ^ 1074) = Z.abs (a + b) * 2 ^ 1074) as ->.
  { rewrite Z.abs_mul. f_equal; try (apply Z.abs_eq; lia). }
  rewrite round53_exact by lia.
  assert (Z.sgn ((a + b) * 2 ^ 1074) * (Z.abs (a + b) * 2 ^ 1074)
          = (a + b) * 2 ^ 1074) as ->.
  { rewrite Z.sgn_mul, (Z.sgn_pos (2 ^ 1074)) by lia.
    rewrite Z.mul_1_r, Z.mul_assoc.
    by rewrite (Z.mul_comm (Z.sgn _)), Z.abs_sgn. }
  assert (Z.abs ((a + b) * 2 ^ 1074) < 2 ^ 2098) as Hlt.
  { rewrite Z.abs_mul, (Z.abs_eq (2 ^ 1074)) by lia.
    apply Z.le_lt_trans with (2 ^ 53 * 2 ^ 1074).
    - apply Z.mul_le_mono_nonneg_r; lia.
    - rewrite <- Z.pow_add_r by lia. apply Z.pow_lt_mono_r; lia. }
  by rewrite (proj2 (Z.leb_gt _ _) Hlt).
Qed.

Lemma round53_shape m :
  0 ≤ m → ∃ k j, 0 ≤ k ≤ 2 ^ 53 ∧ 0 ≤ j ∧ round53 m = k * 2 ^ j.
Proof.
  intros Hm. unfold round53.
  destruct (Z.leb_spec (Z.log2 m - 52) 0) as [He|He].
  - exists m, 0. rewrite Z.mul_1_r. split; [|done]. split; [done|].
    destruct (Z.eq_dec m 0) as [->|]; [done|].
    assert (m < 2 ^ Z.succ (Z.log2 m)) by (apply Z.log2_spec; lia).
    assert (2 ^ Z.succ (Z.log2 m) ≤ 2 ^ 53)
      by (apply Z.pow_le_mono_r; lia).
    lia.
  - set (e := Z.log2 m - 52) in *.
    assert (0 < m) as Hpos.
    { destruct (Z.eq_dec m 0) as [->|]; [simpl in *; lia|lia]. }
    assert (0 < 2 ^ e) as H2e by (apply Z.pow_pos_nonneg; lia).
    assert (0 ≤ m / 2 ^ e) as Hq0 by (apply Z.div_pos; lia).
    assert (m / 2 ^ e < 2 ^ 53) as Hq.
    { apply Z.div_lt_upper_bound; [lia|].
      rewrite <- Z.pow_add_r by lia.
      replace (e + 53) with (Z.succ (Z.log2 m)) by lia.
      by apply Z.log2_spec. }
    repeat case_match; eexists _, e; (split; [|split; [lia|reflexivity]]); lia.
Qed.

Lemma round53_idem m : 0 ≤ m → round53 (round53 m) = round53 m.
Proof.
  intros Hm. destruct (round53_shape m Hm) as (k & j & Hk & Hj & ->).
  by apply round53_exact.
Qed.

Lemma to_number_double s : is_double (to_number s) = true.
Proof.
  unfold to_number.
  pose proof (Z.abs_nonneg s) as Hs.
  destruct (round53_bounds (Z.abs s) Hs) as [Hr _].
  assert (Z.abs (Z.sgn s * round53 (Z.abs s)) = round53 (Z.abs s)) as Habs.
  { rewrite Z.abs_mul, (Z.abs_eq (round53 _)) by done.
    destruct s as [|p|p]; simpl Z.sgn; simpl Z.abs at 1; [done|lia|lia]. }
  rewrite Habs.
  destruct (Z.leb_spec (2 ^ 2098) (round53 (Z.abs s))) as [Hbig|Hsmall];
    [done|].
  unfold is_double. rewrite Habs, round53_idem, Z.eqb_refl by done.
  by apply Z.ltb_lt.
Qed.

Lemma add_double x y :
  is_double x = true → is_double y = true → is_double (add x y) = true.
Proof.
  destruct x as [|a| |a], y as [|b| |b]; simpl; try done.
  - by destruct (Bool.eqb a b).
  - intros _ _. apply to_number_double.
Qed.



End JsFacts.
Module ServerFacts.
Import Js JsFacts ServerJs ServerSpec.

Lemma user_set_user st h u h' :
  user (sock (set_user h u st) h')
  = if decide (h = h') then Some u else user (sock st h').
Proof.
  unfold sock, set_user; simpl. rewrite lookup_insert.
  by case_decide.
Qed.

Lemma roomId_set_user st h u h' :
  roomId (sock (set_user h u st) h') = roomId (sock st h').
Proof.
  unfold sock, set_user; simpl. rewrite lookup_insert.
  case_decide; by subst.
Qed.

Lemma user_set_roomId st h r h' :
  user (sock (set_roomId h r st) h') = user (sock st h').
Proof.
  unfold sock, set_roomId; simpl. rewrite lookup_insert.
  case_decide; by subst.
Qed.

Lemma roomId_set_roomId st h r h' :
  roomId (sock (set_roomId h r st) h')
  = if decide (h = h') then Some r else roomId (sock st h').
Proof.
  unfold sock, set_roomId; simpl. rewrite lookup_insert.
  by case_decide.
Qed.

Lemma sock_set_queue st q h : sock (set_queue q st) h = sock st h.
Proof. done. Qed.
Lemma sock_set_rooms st m h : sock (set_rooms m st) h = sock st h.
Proof. done. Qed.
Lemma sock_set_heap st l h : sock (set_heap l st) h = sock st h.
Proof. done. Qed.
Lemma sock_set_members st m h : sock (set_members m st) h = sock st h.
Proof. done. Qed.
Lemma sock_set_timers st m n h : sock (set_timers m n st) h = sock st h.
Proof. done. Qed.
Lemma sock_set_rng st n h : sock (set_rng n st) h = sock st h.
Proof. done. Qed.
Lemma sock_setTimeout st cb ms h : sock (setTimeout cb ms st) h = sock st h.
Proof. done. Qed.

Create Rewrite HintDb sockdb.
#[export] Hint Rewrite sock_set_queue sock_set_rooms sock_set_heap
  sock_set_members sock_set_timers sock_set_rng sock_setTimeout
  user_set_user roomId_set_user user_set_roomId roomId_set_roomId : sockdb.

Lemma score_of_Ok st h z :
  score_of st h = Ok z → ∃ u, user (sock st h) = Some u ∧ score u = z.
Proof.
  unfold score_of. intros (u & Hu%deref_Ok & [= <-])%bind_Ok. by exists u.
Qed.

(** Peels the monadic steps of a handler that returned. *)
Ltac inv_ok :=
  repeat match goal with
  | H : _ ≫= _ = Ok _ |- _ =>
      let a := fresh "a" in
      let Ha := fresh "Ha" in
      apply bind_Ok in H as (a & Ha & H)
  | H : deref _ = Ok _ |- _ => apply deref_Ok in H
  | H : score_of _ _ = Ok _ |- _ =>
      let u := fresh "u" in
      let Hu := fresh "Hu" in
      apply score_of_Ok in H as (u & Hu & H)
  | H : Ok _ = Ok _ |- _ => injection H as H
  | H : (_, _) = (_, _) |- _ => injection H as H
  end.

Lemma wf_init : wf init.
Proof.
  split; simpl; try done; try lia.
  all: intros *; try rewrite lookup_empty; try done.
  by intros ?%elem_of_nil.
Qed.

Lemma closure_ok_heap st st' cb :
  (length (heap st) ≤ length (heap st'))%nat →
  closure_ok st cb → closure_ok st' cb.
Proof.
  intros Hlen. destruct cb; simpl; try done.
  all: rewrite !lookup_lt_is_Some; lia.
Qed.

Lemma wf_set_user st h u : wf st → wf (set_user h u st).
Proof.
  intros [H1 H2 H3 H4 H5 H6 H7]. split; simpl; try done.
  - intros x Hx. rewrite user_set_user. case_decide; [done|]. by apply H1.
  - intros x rid. rewrite user_set_user, roomId_set_user.
    case_decide; [done|]. apply H2.
  - intros ref r Hr. rewrite !user_set_user.
    destruct (H3 ref r Hr). split; case_decide; done.
Qed.

Lemma wf_set_roomId st h rid :
  wf st → is_Some (user (sock st h)) → wf (set_roomId h rid st).
Proof.
  intros [H1 H2 H3 H4 H5 H6 H7] Hu. split; simpl; try done.
  - intros x Hx. rewrite user_set_roomId. by apply H1.
  - intros x r. rewrite user_set_roomId, roomId_set_roomId.
    case_decide; [by subst|]. apply H2.
  - intros ref r Hr. rewrite !user_set_roomId. by apply (H3 ref r).
Qed.

Lemma wf_set_queue st q :
  wf st → (∀ x, x ∈ q → is_Some (user (sock st x))) → (length q ≤ 1)%nat →
  wf (set_queue q st).
Proof. intros [H1 H2 H3 H4 H5 H6 H7] Hq Hlen. split; done. Qed.

Lemma wf_set_members st m : wf st → wf (set_members m st).
Proof. intros [H1 H2 H3 H4 H5 H6 H7]. split; done. Qed.

Lemma wf_set_rng st n : wf st → wf (set_rng n st).
Proof. intros [H1 H2 H3 H4 H5 H6 H7]. split; done. Qed.

Lemma wf_delete_room st rid :
  wf st → wf (set_rooms (delete rid (rooms st)) st).
Proof.
  intros [H1 H2 H3 H4 H5 H6 H7]. split; simpl; try done.
  intros r ref Hr. apply lookup_delete_Some in Hr as [_ Hr]. by eapply H4.
Qed.

Lemma wf_setTimeout st cb ms :
  wf st → closure_ok st cb → wf (setTimeout cb ms st).
Proof.
  intros [H1 H2 H3 H4 H5 H6 H7] Hcb. split; simpl; try done.
  intros tid t. rewrite lookup_insert. case_decide.
  - intros [= <-]. simpl. split; [lia|done].
  - intros Ht. destruct (H5 tid t Ht) as [Hlt Hok]. split; [lia|].
    destruct (run t); done.
Qed.

Lemma wf_delete_timer st tid :
  wf st → wf (set_timers (delete tid (timers st)) (next_timer st) st).
Proof.
  intros [H1 H2 H3 H4 H5 H6 H7]. split; simpl; try done.
  intros t x Hx. apply lookup_delete_Some in Hx as [_ Hx].
  destruct (H5 t x Hx) as [Hlt Hok]. split; [done|]. destruct (run x); done.
Qed.

Lemma wf_alloc st rid r :
  wf st →
  is_Some (user (sock st (p1 r))) → is_Some (user (sock st (p2 r))) →
  round r = 0 → maxRounds r = 15 → length (deck r) = 15%nat →
  wf (set_rooms (<[rid := length (heap st)]> (rooms st))
                (set_heap (heap st ++ [r]) st)).
Proof.
  intros [H1 H2 H3 H4 H5 H6 H7] Hp1 Hp2 Hr Hm Hd. split; simpl; try done.
  - intros ref x Hx. apply lookup_app_Some in Hx as [Hx|[_ Hx]]; [by eapply H3|].
    apply list_lookup_singleton_Some in Hx as [_ <-]. done.
  - intros x ref. rewrite lookup_insert. case_decide.
    + intros [= <-]. rewrite lookup_lt_is_Some, length_app. simpl. lia.
    + intros Hx%H4. revert Hx. rewrite !lookup_lt_is_Some, length_app. lia.
  - intros tid t Ht. destruct (H5 tid t Ht) as [Hlt Hok]. split; [done|].
    revert Hok. apply closure_ok_heap. simpl. rewrite length_app. lia.
  - intros ref x Hx. apply lookup_app_Some in Hx as [Hx|[_ Hx]]; [by eapply H7|].
    apply list_lookup_singleton_Some in Hx as [_ <-]. lia.
Qed.

Lemma wf_update st ref r r' :
  wf st → heap st !! ref = Some r →
  p1 r' = p1 r → p2 r' = p2 r → maxRounds r' = maxRounds r →
  deck r' = deck r → 0 ≤ round r' ≤ maxRounds r' →
  wf (set_heap (<[ref := r']> (heap st)) st).
Proof.
  intros [H1 H2 H3 H4 H5 H6 H7] Href Hp1 Hp2 Hm Hd Hr.
  pose proof (lookup_lt_Some _ _ _ Href) as Hlt.
  split; simpl; try done.
  - intros i x. destruct (decide (ref = i)) as [<-|Hne].
    + rewrite list_lookup_insert_eq by done. intros [= <-].
      rewrite Hp1, Hp2. by eapply H3.
    + rewrite list_lookup_insert_ne by done. apply H3.
  - intros x i Hx%H4. revert Hx. rewrite !lookup_lt_is_Some, length_insert. done.
  - intros tid t Ht. destruct (H5 tid t Ht) as [Hl Hok]. split; [done|].
    revert Hok. apply closure_ok_heap. simpl. rewrite length_insert. lia.
  - intros i x. destruct (decide (ref = i)) as [<-|Hne].
    + rewrite list_lookup_insert_eq by done. intros [= <-].
      destruct (H7 ref r Href) as (? & ? & ?). repeat split; try lia; congruence.
    + rewrite list_lookup_insert_ne by done. apply H7.
Qed.

#[local] Arguments generateDeck : simpl never.

Section Facts.
Variable random : nat → Z.

Lemma generateDeck_loop_spec n : ∀ d c d' c',
  generateDeck_loop random n d c = (d', c') →
  length d' = (length d + n)%nat ∧ c' = (c + n)%nat.
Proof.
  induction n as [|n IH]; intros d c d' c'; simpl.
  - intros [= <- <-]. lia.
  - intros H. apply IH in H as [-> ->]. rewrite length_app. simpl. lia.
Qed.

Lemma generateDeck_length n c d c' :
  generateDeck random n c = (d, c') → length d = n ∧ c' = (c + n)%nat.
Proof. intros H. apply generateDeck_loop_spec in H. simpl in H. lia. Qed.

Lemma generateDeck_loop_range n : ∀ d c d' c',
  (∀ i, 0 ≤ random i < 2 ^ 53) →
  Forall (λ x, 0 ≤ x < DECK_SIZE) d →
  generateDeck_loop random n d c = (d', c') →
  Forall (λ x, 0 ≤ x < DECK_SIZE) d'.
Proof.
  induction n as [|n IH]; intros d c d' c' Hr Hd; simpl.
  - by intros [= <- <-].
  - apply IH; [done|]. apply Forall_app. split; [done|].
    apply Forall_singleton. by apply floor_random_times_range.
Qed.

Lemma generateDeck_range n c d c' :
  (∀ i, 0 ≤ random i < 2 ^ 53) →
  generateDeck random n c = (d, c') → Forall (λ x, 0 ≤ x < DECK_SIZE) d.
Proof. intros Hr. by apply generateDeck_loop_range. Qed.

Lemma matchmake_wait st h :
  pop (queue st) = None →
  matchmake random h st
  = Ok (set_queue (queue st ++ [h]) st, [to_socket h "waiting_opponent" None]).
Proof. intros Hpop. unfold matchmake. by rewrite Hpop. Qed.

Lemma matchmake_pair st h opp rest d c u1 u2 :
  pop (queue st) = Some (opp, rest) →
  generateDeck random 15 (rng st) = (d, c) →
  user (sock st opp) = Some u1 → user (sock st h) = Some u2 →
  let rid := ("room_" +:+ opp +:+ "_" +:+ h)%string in
  let r := {| id := rid; p1 := opp; p2 := h; round := 0; maxRounds := 15;
              phase := "lobby"; deck := d |} in
  let st1 := set_rng c (set_roomId opp rid (set_roomId h rid
               (set_members (join rid opp (join rid h (members st)))
                  (set_queue rest st)))) in
  let st2 := set_rooms (<[rid := length (heap st1)]> (rooms st1))
                       (set_heap (heap st1 ++ [r]) st1) in
  matchmake random h st
  = Ok (setTimeout (StartGameLoop rid) 3000 st2,
        [to_room (members st2) rid "match_found"
           (Some (JObj [("p1", user_json u1); ("p2", user_json u2);
                        ("roomId", JStr rid)]%string))]).
Proof.
  intros Hpop Hd Hu1 Hu2. unfold matchmake. rewrite Hpop.
  cbn [rng set_roomId set_members set_queue set_sockets]. rewrite Hd.
  cbv zeta. autorewrite with sockdb. rewrite Hu1, Hu2. done.
Qed.

Lemma nextRound_over st rid ref r u1 u2 :
  heap st !! ref = Some r → maxRounds r ≤ round r →
  user (sock st (p1 r)) = Some u1 → user (sock st (p2 r)) = Some u2 →
  nextRound random rid ref st
  = Ok (set_rooms (delete rid (rooms st)) st,
        [to_room (members st) rid "game_over"
           (Some (scores_json "p1Score" "p2Score" (score u1) (score u2)))]).
Proof.
  intros Hr Hle Hu1 Hu2. unfold nextRound, score_of. rewrite Hr. simpl.
  rewrite bool_decide_true by done. by rewrite Hu1, Hu2.
Qed.

Lemma nextRound_go st rid ref r :
  heap st !! ref = Some r → round r < maxRounds r →
  let r' := {| id := id r; p1 := p1 r; p2 := p2 r; round := round r + 1;
               maxRounds := maxRounds r; phase := phase r; deck := deck r |} in
  let st1 := set_rng (S (rng st)) (set_heap (<[ref := r']> (heap st)) st) in
  nextRound random rid ref st
  = Ok (setTimeout (EndOfGuessing rid ref) 20000 st1,
        [to_room (members st) rid "round_start"
           (Some (JObj [("round", JNum (round r + 1));
                        ("songIndex", index (deck r) (round r + 1 - 1));
                        ("seekTime",
                         JNum (floor_random_times (random (rng st)) 11 + 40));
                        ("duration", JNum 20)]%string))]).
Proof.
  intros Hr Hlt. unfold nextRound. rewrite Hr. simpl.
  rewrite bool_decide_false by lia. done.
Qed.

Lemma wf_nextRound st rid ref st' out :
  wf st → nextRound random rid ref st = Ok (st', out) → wf st'.
Proof.
  intros Hwf. unfold nextRound. intros H. inv_ok.
  destruct (wf_round _ Hwf _ _ Ha) as (Hr & Hm & Hd).
  case_bool_decide.
  - inv_ok. subst. by apply wf_delete_room.
  - inv_ok. subst. apply wf_setTimeout.
    + apply wf_set_rng. eapply wf_update; eauto. simpl. lia.
    + simpl. rewrite lookup_lt_is_Some, length_insert.
      by eapply lookup_lt_Some.
Qed.

Lemma nextRound_total st rid ref :
  wf st → is_Some (heap st !! ref) →
  ∃ st' out, nextRound random rid ref st = Ok (st', out).
Proof.
  intros Hwf [r Hr].
  destruct (wf_players _ Hwf _ _ Hr) as [[u1 Hu1] [u2 Hu2]].
  destruct (decide (maxRounds r ≤ round r)).
  - eexists _, _. by eapply nextRound_over.
  - eexists _, _. eapply nextRound_go; [done|lia].
Qed.

Lemma wf_matchmake st h st' out :
  wf st → is_Some (user (sock st h)) →
  matchmake random h st = Ok (st', out) → wf st'.
Proof.
  intros Hwf [u2 Hu2].
  destruct (pop (queue st)) as [[opp rest]|] eqn:Hpop.
  - pose proof (pop_Some _ _ _ Hpop) as Hq.
    destruct (wf_queue_user _ Hwf opp) as [u1 Hu1].
    { rewrite Hq. set_solver. }
    destruct (generateDeck random 15 (rng st)) as [d c] eqn:Hd.
    rewrite (matchmake_pair _ _ _ _ _ _ _ _ Hpop Hd Hu1 Hu2).
    intros [= <- <-]. apply generateDeck_length in Hd as [Hlen _].
    apply wf_setTimeout; [|done].
    match goal with
    | |- wf (set_rooms _ (set_heap _ ?s)) => apply (wf_alloc s)
    end; simpl; autorewrite with sockdb; try done.
    apply wf_set_rng. apply wf_set_roomId.
    + apply wf_set_roomId; [|by autorewrite with sockdb].
      apply wf_set_members. apply wf_set_queue; [done| |].
      * intros x Hx. apply (wf_queue_user _ Hwf). rewrite Hq. set_solver.
      * pose proof (wf_queue_len _ Hwf) as Hl. rewrite Hq, length_app in Hl.
        simpl in Hl. lia.
    + by autorewrite with sockdb.
  - rewrite (matchmake_wait _ _ Hpop). intros [= <- <-].
    apply pop_None in Hpop. rewrite Hpop. simpl.
    apply wf_set_queue; [done| |simpl; lia].
    intros x Hx. apply list_elem_of_singleton in Hx as ->. done.
Qed.

Lemma matchmake_total st h :
  wf st → is_Some (user (sock st h)) →
  ∃ st' out, matchmake random h st = Ok (st', out).
Proof.
  intros Hwf [u2 Hu2].
  destruct (pop (queue st)) as [[opp rest]|] eqn:Hpop.
  - pose proof (pop_Some _ _ _ Hpop) as Hq.
    destruct (wf_queue_user _ Hwf opp) as [u1 Hu1].
    { rewrite Hq. set_solver. }
    destruct (generateDeck random 15 (rng st)) as [d c] eqn:Hd.
    rewrite (matchmake_pair _ _ _ _ _ _ _ _ Hpop Hd Hu1 Hu2). eauto.
  - rewrite (matchmake_wait _ _ Hpop). eauto.
Qed.

Lemma wf_call st cb st' out :
  wf st → closure_ok st cb → call random cb st = Ok (st', out) → wf st'.
Proof.
  intros Hwf Hcb. destruct cb as [rid|rid ref|rid ref]; simpl.
  - unfold startGameLoop. destruct (rooms st !! rid) eqn:Hr.
    + by apply wf_nextRound.
    + by intros [= <- <-].
  - destruct (rooms st !! rid); intros [= <- <-]; [|done].
    by apply wf_setTimeout.
  - destruct (rooms st !! rid); [by apply wf_nextRound|by intros [= <- <-]].
Qed.

Lemma call_total st cb :
  wf st → closure_ok st cb → ∃ st' out, call random cb st = Ok (st', out).
Proof.
  intros Hwf Hcb. destruct cb as [rid|rid ref|rid ref]; simpl.
  - unfold startGameLoop. destruct (rooms st !! rid) eqn:Hr; [|eauto].
    apply nextRound_total; [done|]. by eapply wf_rooms.
  - destruct (rooms st !! rid); eauto.
  - destruct (rooms st !! rid); [|eauto]. by apply nextRound_total.
Qed.

Lemma wf_on_disconnect st h st' out :
  wf st → on_disconnect h st = Ok (st', out) → wf st'.
Proof.
  intros Hwf. unfold on_disconnect.
  assert (wf (set_queue (remove_first h (queue st))
                (set_members (leave_all h (members st)) st))) as Hwf1.
  { apply wf_set_queue; [by apply wf_set_members| |].
    - intros x Hx%elem_of_remove_first. by apply (wf_queue_user _ Hwf).
    - pose proof (length_remove_first h (queue st)).
      pose proof (wf_queue_len _ Hwf). simpl. lia. }
  repeat case_match; intros [= <- <-]; try done.
  match goal with
  | |- wf (set_rooms _ ?s) => by apply (wf_delete_room s)
  end.
Qed.

Lemma wf_on_submit_score st h points st' out :
  wf st → on_submit_score h points st = Ok (st', out) → wf st'.
Proof.
  intros Hwf. unfold on_submit_score.
  repeat case_match; intros Hok; inv_ok; subst; try done.
  by apply wf_set_user.
Qed.

Lemma on_submit_score_total st h points :
  wf st → ∃ st' out, on_submit_score h points st = Ok (st', out).
Proof.
  intros Hwf. unfold on_submit_score.
  destruct (roomId (sock st h)) as [rid|] eqn:Hrid; [|eauto].
  destruct (rooms st !! rid) as [ref|] eqn:Href; [|eauto].
  destruct (wf_room_user _ Hwf _ _ Hrid) as [u Hu].
  destruct (wf_rooms _ Hwf _ _ Href) as [r Hr].
  destruct (wf_players _ Hwf _ _ Hr) as [Hu1 Hu2].
  rewrite Hu. simpl. rewrite Hr. simpl.
  unfold score_of. rewrite !user_set_user.
  destruct Hu1 as [u1 ->], Hu2 as [u2 ->].
  repeat case_decide; simpl; eauto.
Qed.

Lemma wf_step st ev st' out :
  wf st → step random st ev = Ok (st', out) → wf st'.
Proof.
  intros Hwf. destruct ev as [h [d|]|h|h pts|tid]; simpl; [|done|..].
  - apply wf_matchmake; [by apply wf_set_user|].
    rewrite user_set_user. by case_decide.
  - by apply wf_on_disconnect.
  - by apply wf_on_submit_score.
  - destruct (timers st !! tid) as [t|] eqn:Ht; [|by intros [= <- <-]].
    apply wf_call; [by apply wf_delete_timer|].
    by destruct (wf_timers _ Hwf _ _ Ht).
Qed.

Lemma step_total st ev :
  wf st → has_payload ev = true → ∃ st' out, step random st ev = Ok (st', out).
Proof.
  intros Hwf Hev. destruct ev as [h [d|]|h|h pts|tid]; simpl; [|done|..].
  - apply matchmake_total; [by apply wf_set_user|].
    rewrite user_set_user. by case_decide.
  - unfold on_disconnect. repeat case_match; eauto.
  - by apply on_submit_score_total.
  - destruct (timers st !! tid) as [t|] eqn:Ht; [|eauto].
    apply call_total; [by apply wf_delete_timer|].
    by destruct (wf_timers _ Hwf _ _ Ht).
Qed.

Lemma exec_app st evs1 evs2 :
  exec random st (evs1 ++ evs2)
  = '(st1, out1) ← exec random st evs1;
    '(st2, out2) ← exec random st1 evs2;
    Ok (st2, out1 ++ out2).
Proof.
  revert st. induction evs1 as [|ev evs1 IH]; intros st; simpl.
  - destruct (exec random st evs2) as [[st2 out2]|]; done.
  - destruct (step random st ev) as [[st1 out1]|]; simpl; [|done].
    rewrite IH. destruct (exec random st1 evs1) as [[st2 out2]|]; simpl; [|done].
    destruct (exec random st2 evs2) as [[st3 out3]|]; simpl; [|done].
    by rewrite app_assoc.
Qed.

Lemma exec_snoc st0 evs st out ev st' o :
  exec random st0 evs = Ok (st, out) → step random st ev = Ok (st', o) →
  exec random st0 (evs ++ [ev]) = Ok (st', out ++ o).
Proof.
  intros He Hs. rewrite exec_app, He. simpl. rewrite Hs. simpl.
  by rewrite app_nil_r.
Qed.

Lemma wf_exec evs : ∀ st st' out,
  wf st → exec random st evs = Ok (st', out) → wf st'.
Proof.
  induction evs as [|ev evs IH]; intros st st' out Hwf; simpl.
  - by intros [= <- <-].
  - intros H. inv_ok. destruct a as [st1 out1]. inv_ok.
    destruct a as [st2 out2]. inv_ok. subst.
    eapply IH; [|done]. by eapply wf_step.
Qed.

Lemma exec_total evs : ∀ st,
  wf st → forallb has_payload evs = true →
  ∃ st' out, exec random st evs = Ok (st', out).
Proof.
  induction evs as [|ev evs IH]; intros st Hwf Hevs; [simpl; eauto|].
  apply andb_prop in Hevs as [Hev Hevs].
  destruct (step_total st ev Hwf Hev) as (st1 & out1 & Hs).
  cbn [exec]. rewrite Hs. simpl.
  destruct (IH st1) as (st2 & out2 & He); [by eapply wf_step|done|].
  rewrite He. simpl. eauto.
Qed.

Lemma reachable_wf st : reachable random st → wf st.
Proof. intros (evs & out & H). eapply wf_exec; [apply wf_init|done]. Qed.

Lemma reachable_init : reachable random init.
Proof. by exists [], []. Qed.

Lemma reachable_step st ev st' out :
  reachable random st → step random st ev = Ok (st', out) →
  reachable random st'.
Proof.
  intros (evs & out0 & H) Hs. exists (evs ++ [ev]), (out0 ++ out ++ []).
  rewrite exec_app, H. simpl. rewrite Hs. done.
Qed.

End Facts.
End ServerFacts.
Module PartFacts.
Import Js JsFacts Part000 PartSpec.

Lemma part_user_set_user st h u h' :
  user (sock (set_user h u st) h')
  = if decide (h = h') then Some u else user (sock st h').
Proof.
  unfold sock, set_user; simpl. rewrite lookup_insert.
  by case_decide.
Qed.

Lemma part_roomId_set_user st h u h' :
  roomId (sock (set_user h u st) h') = roomId (sock st h').
Proof.
  unfold sock, set_user; simpl. rewrite lookup_insert.
  case_decide; by subst.
Qed.

Lemma part_user_set_roomId st h r h' :
  user (sock (set_roomId h r st) h') = user (sock st h').
Proof.
  unfold sock, set_roomId; simpl. rewrite lookup_insert.
  case_decide; by subst.
Qed.

Lemma part_roomId_set_roomId st h r h' :
  roomId (sock (set_roomId h r st) h')
  = if decide (h = h') then Some r else roomId (sock st h').
Proof.
  unfold sock, set_roomId; simpl. rewrite lookup_insert.
  by case_decide.
Qed.

Lemma part_sock_set_waitingPlayer st w h : sock (set_waitingPlayer w st) h = sock st h.
Proof. done. Qed.
Lemma part_sock_set_rooms st m h : sock (set_rooms m st) h = sock st h.
Proof. done. Qed.
Lemma part_sock_set_heap st l h : sock (set_heap l st) h = sock st h.
Proof. done. Qed.
Lemma part_sock_set_members st m h : sock (set_members m st) h = sock st h.
Proof. done. Qed.
Lemma part_sock_set_timers st m n h : sock (set_timers m n st) h = sock st h.
Proof. done. Qed.
Lemma part_sock_set_rng st n h : sock (set_rng n st) h = sock st h.
Proof. done. Qed.
Lemma part_sock_setTimeout st cb ms h : sock (setTimeout cb ms st) h = sock st h.
Proof. done. Qed.
Lemma part_sock_clearInterval st t h : sock (clearInterval t st) h = sock st h.
Proof. by destruct t. Qed.

Create Rewrite HintDb partdb.
#[export] Hint Rewrite part_sock_set_waitingPlayer part_sock_set_rooms part_sock_set_heap
  part_sock_set_members part_sock_set_timers part_sock_set_rng part_sock_setTimeout
  part_sock_clearInterval
  part_user_set_user part_roomId_set_user part_user_set_roomId part_roomId_set_roomId : partdb.

Ltac inv_ok :=
  repeat match goal with
  | H : _ ≫= _ = Ok _ |- _ =>
      let a := fresh "a" in
      let Ha := fresh "Ha" in
      apply bind_Ok in H as (a & Ha & H)
  | H : deref _ = Ok _ |- _ => apply deref_Ok in H
  | H : Ok _ = Ok _ |- _ => injection H as H
  | H : (_, _) = (_, _) |- _ => injection H as H
  end.

Lemma part_wf_init : wf init.
Proof.
  split; simpl; try done.
  all: intros *; rewrite lookup_empty; done.
Qed.

Lemma part_closure_ok_heap st st' cb :
  (length (heap st) ≤ length (heap st'))%nat →
  closure_ok st cb → closure_ok st' cb.
Proof.
  intros Hlen. destruct cb; simpl; try done.
  rewrite !lookup_lt_is_Some; lia.
Qed.

Lemma part_wf_set_user st h u : wf st → wf (set_user h u st).
Proof.
  intros [H1 H2 H3 H4]. split; simpl; try done.
  intros x Hx. rewrite part_user_set_user. case_decide; [done|]. by apply H1.
Qed.

Lemma part_wf_set_roomId st h rid : wf st → wf (set_roomId h rid st).
Proof.
  intros [H1 H2 H3 H4]. split; simpl; try done.
  intros x Hx. rewrite part_user_set_roomId. by apply H1.
Qed.

Lemma part_wf_set_waitingPlayer st w :
  wf st → (∀ h, w = Some h → is_Some (user (sock st h))) →
  wf (set_waitingPlayer w st).
Proof. intros [H1 H2 H3 H4] Hw. split; done. Qed.

Lemma part_wf_set_members st m : wf st → wf (set_members m st).
Proof. intros [H1 H2 H3 H4]. split; done. Qed.

Lemma part_wf_set_rng st n : wf st → wf (set_rng n st).
Proof. intros [H1 H2 H3 H4]. split; done. Qed.

Lemma part_wf_delete_room st rid :
  wf st → wf (set_rooms (delete rid (rooms st)) st).
Proof.
  intros [H1 H2 H3 H4]. split; simpl; try done.
  intros r ref Hr. apply lookup_delete_Some in Hr as [_ Hr]. by eapply H2.
Qed.

Lemma part_wf_add_timer st t :
  wf st → closure_ok st (run t) →
  wf (set_timers (<[next_timer st := t]> (timers st)) (S (next_timer st)) st).
Proof.
  intros [H1 H2 H3 H4] Hcb. split; simpl; try done.
  intros tid x. rewrite lookup_insert. case_decide.
  - intros [= <-]. split; [lia|]. by destruct (run t).
  - intros Ht. destruct (H3 tid x Ht) as [Hlt Hok]. split; [lia|].
    by destruct (run x).
Qed.

Lemma part_wf_setTimeout st cb ms :
  wf st → closure_ok st cb → wf (setTimeout cb ms st).
Proof. intros Hwf Hcb. by apply part_wf_add_timer. Qed.

Lemma part_wf_retime st tid t t' :
  wf st → timers st !! tid = Some t → closure_ok st (run t') →
  wf (set_timers (<[tid := t']> (timers st)) (next_timer st) st).
Proof.
  intros [H1 H2 H3 H4] Ht Hcb. split; simpl; try done.
  intros i x. rewrite lookup_insert. case_decide.
  - intros [= <-]. subst i. destruct (H3 tid t Ht) as [Hlt _].
    split; [done|]. by destruct (run t').
  - intros Hx. destruct (H3 i x Hx) as [Hlt Hok]. split; [done|].
    by destruct (run x).
Qed.

Lemma part_wf_delete_timer st tid :
  wf st → wf (set_timers (delete tid (timers st)) (next_timer st) st).
Proof.
  intros [H1 H2 H3 H4]. split; simpl; try done.
  intros t x Hx. apply lookup_delete_Some in Hx as [_ Hx].
  destruct (H3 t x Hx) as [Hlt Hok]. split; [done|]. destruct (run x); done.
Qed.

Lemma part_wf_clearInterval st t : wf st → wf (clearInterval t st).
Proof. destruct t; simpl; [apply part_wf_delete_timer|done]. Qed.

Lemma part_wf_alloc st rid r :
  wf st → round r = 0 → maxRounds r = 15 → length (deck r) = 15%nat →
  wf (set_rooms (<[rid := length (heap st)]> (rooms st))
                (set_heap (heap st ++ [r]) st)).
Proof.
  intros [H1 H2 H3 H4] Hr Hm Hd. split; simpl; try done.
  - intros x ref. rewrite lookup_insert. case_decide.
    + intros [= <-]. rewrite lookup_lt_is_Some, length_app. simpl. lia.
    + intros Hx%H2. revert Hx. rewrite !lookup_lt_is_Some, length_app. lia.
  - intros tid t Ht. destruct (H3 tid t Ht) as [Hlt Hok]. split; [done|].
    revert Hok. apply part_closure_ok_heap. simpl. rewrite length_app. lia.
  - intros ref x Hx. apply lookup_app_Some in Hx as [Hx|[_ Hx]]; [by eapply H4|].
    apply list_lookup_singleton_Some in Hx as [_ <-]. lia.
Qed.

Lemma part_wf_update st ref r r' :
  wf st → heap st !! ref = Some r →
  maxRounds r' = maxRounds r → deck r' = deck r →
  0 ≤ round r' ≤ maxRounds r' →
  wf (set_heap (<[ref := r']> (heap st)) st).
Proof.
  intros [H1 H2 H3 H4] Href Hm Hd Hr.
  pose proof (lookup_lt_Some _ _ _ Href) as Hlt.
  split; simpl; try done.
  - intros x i Hx%H2. revert Hx. rewrite !lookup_lt_is_Some, length_insert. done.
  - intros tid t Ht. destruct (H3 tid t Ht) as [Hl Hok]. split; [done|].
    revert Hok. apply part_closure_ok_heap. simpl. rewrite length_insert. lia.
  - intros i x. destruct (decide (ref = i)) as [<-|Hne].
    + rewrite list_lookup_insert_eq by done. intros [= <-].
      destruct (H4 ref r Href) as (? & ? & ?). repeat split; try lia; congruence.
    + rewrite list_lookup_insert_ne by done. apply H4.
Qed.

#[local] Arguments generateDeck : simpl never.
Section Facts.
Variable random : nat → Z.

Lemma part_generateDeck_loop_spec n : ∀ d c d' c',
  generateDeck_loop random n d c = (d', c') →
  length d' = (length d + n)%nat ∧ c' = (c + n)%nat.
Proof.
  induction n as [|n IH]; intros d c d' c'; simpl.
  - intros [= <- <-]. lia.
  - intros H. apply IH in H as [-> ->]. rewrite length_app. simpl. lia.
Qed.

Lemma part_generateDeck_length n c d c' :
  generateDeck random n c = (d, c') → length d = n ∧ c' = (c + n)%nat.
Proof. intros H. apply part_generateDeck_loop_spec in H. simpl in H. lia. Qed.

Lemma part_generateDeck_loop_range n : ∀ d c d' c',
  (∀ i, 0 ≤ random i < 2 ^ 53) →
  Forall (λ x, 0 ≤ x < DB_LENGTH) d →
  generateDeck_loop random n d c = (d', c') →
  Forall (λ x, 0 ≤ x < DB_LENGTH) d'.
Proof.
  induction n as [|n IH]; intros d c d' c' Hr Hd; simpl.
  - by intros [= <- <-].
  - apply IH; [done|]. apply Forall_app. split; [done|].
    apply Forall_singleton. by apply floor_random_times_range.
Qed.

Lemma part_generateDeck_range n c d c' :
  (∀ i, 0 ≤ random i < 2 ^ 53) →
  generateDeck random n c = (d, c') → Forall (λ x, 0 ≤ x < DB_LENGTH) d.
Proof. intros Hr. by apply part_generateDeck_loop_range. Qed.

Lemma findMatch_wait st h :
  waitingPlayer st = None →
  findMatch random h st
  = Ok (set_waitingPlayer (Some h) st, [to_socket h "waiting_opponent" None]).
Proof. intros Hw. unfold findMatch. by rewrite Hw. Qed.

Lemma findMatch_pair st h opp d c u1 u2 :
  waitingPlayer st = Some opp →
  generateDeck random 15 (rng st) = (d, c) →
  user (sock st opp) = Some u1 → user (sock st h) = Some u2 →
  let rid := ("room_" +:+ opp +:+ "_" +:+ h)%string in
  let r := {| id := rid; p1 := opp; p2 := h;
              scores := {| sp1 := of_Z 0; sp2 := of_Z 0 |}; round := 0;
              maxRounds := 15; deck := d; timer := None |} in
  let st1 := set_rng c (set_roomId opp rid (set_roomId h rid
               (set_members (join rid opp (join rid h (members st)))
                  (set_waitingPlayer None st)))) in
  let st2 := set_rooms (<[rid := length (heap st1)]> (rooms st1))
                       (set_heap (heap st1 ++ [r]) st1) in
  findMatch random h st
  = Ok (setTimeout (StartRound rid) 3000 st2,
        [to_room (members st2) rid "match_found"
           (Some (JObj [("p1", user_json u1); ("p2", user_json u2)]%string))]).
Proof.
  intros Hw Hd Hu1 Hu2. unfold findMatch. rewrite Hw.
  cbn [rng set_roomId set_members set_waitingPlayer set_sockets]. rewrite Hd.
  cbv zeta. autorewrite with partdb. rewrite Hu1, Hu2. done.
Qed.

Lemma part_wf_findMatch st h st' out :
  wf st → is_Some (user (sock st h)) →
  findMatch random h st = Ok (st', out) → wf st'.
Proof.
  intros Hwf [u2 Hu2].
  destruct (waitingPlayer st) as [opp|] eqn:Hw.
  - destruct (pwf_waiting_user _ Hwf opp Hw) as [u1 Hu1].
    destruct (generateDeck random 15 (rng st)) as [d c] eqn:Hd.
    rewrite (findMatch_pair _ _ _ _ _ _ _ Hw Hd Hu1 Hu2).
    intros [= <- <-]. apply part_generateDeck_length in Hd as [Hlen _].
    apply part_wf_setTimeout; [|done].
    match goal with
    | |- wf (set_rooms _ (set_heap _ ?s)) => apply (part_wf_alloc s)
    end; simpl; try done.
    apply part_wf_set_rng. do 2 apply part_wf_set_roomId.
    apply part_wf_set_members. by apply part_wf_set_waitingPlayer.
  - rewrite (findMatch_wait _ _ Hw). intros [= <- <-].
    apply part_wf_set_waitingPlayer; [done|]. by intros ? [= <-].
Qed.

Lemma findMatch_total st h :
  wf st → is_Some (user (sock st h)) →
  ∃ st' out, findMatch random h st = Ok (st', out).
Proof.
  intros Hwf [u2 Hu2].
  destruct (waitingPlayer st) as [opp|] eqn:Hw.
  - destruct (pwf_waiting_user _ Hwf opp Hw) as [u1 Hu1].
    destruct (generateDeck random 15 (rng st)) as [d c] eqn:Hd.
    rewrite (findMatch_pair _ _ _ _ _ _ _ Hw Hd Hu1 Hu2). eauto.
  - rewrite (findMatch_wait _ _ Hw). eauto.
Qed.

Lemma endGame_eq st rid ref r :
  rooms st !! rid = Some ref → heap st !! ref = Some r →
  endGame rid st
  = Ok (set_rooms (delete rid (rooms st))
          (set_members (leave rid (p2 r) (leave rid (p1 r) (members st))) st),
        [to_room (members st) rid "game_over"
           (Some (scores_json (scores r)))]).
Proof. intros Hr Hh. unfold endGame. rewrite Hr, Hh. done. Qed.

Lemma startRound_gone st rid :
  rooms st !! rid = None → startRound random rid st = Ok (st, []).
Proof. intros Hr. unfold startRound. by rewrite Hr. Qed.

Lemma startRound_over st rid ref r :
  rooms st !! rid = Some ref → heap st !! ref = Some r →
  maxRounds r ≤ round r →
  startRound random rid st = endGame rid st.
Proof.
  intros Hr Hh Hle. unfold startRound. rewrite Hr, Hh. simpl.
  by rewrite bool_decide_true.
Qed.

Lemma startRound_go st rid ref r :
  rooms st !! rid = Some ref → heap st !! ref = Some r →
  round r < maxRounds r →
  let tid := next_timer st in
  let r' := set_timer (Some tid) (set_round (round r + 1) r) in
  let st1 := set_timers
               (<[tid := {| delay := 1000; repeat := true;
                            run := Countdown rid ref 20 |}]> (timers st))
               (S tid) (set_rng (S (rng st)) st) in
  startRound random rid st
  = Ok (set_heap (<[ref := r']> (heap st)) st1,
        [to_room (members st) rid "round_start"
           (Some (JObj [("round", JNum (round r + 1));
                        ("songIndex", index (deck r) (round r + 1 - 1));
                        ("seekTime",
                         JNum (floor_random_times (random (rng st)) 11 + 40));
                        ("duration", JNum 20)]%string))]).
Proof.
  intros Hr Hh Hlt. unfold startRound. rewrite Hr, Hh. simpl.
  rewrite bool_decide_false by lia. done.
Qed.

Lemma part_wf_startRound st rid st' out :
  wf st → startRound random rid st = Ok (st', out) → wf st'.
Proof.
  intros Hwf.
  destruct (rooms st !! rid) as [ref|] eqn:Hr;
    [|rewrite startRound_gone by done; by intros [= <- <-]].
  destruct (pwf_rooms _ Hwf _ _ Hr) as [r Hh].
  destruct (pwf_round _ Hwf _ _ Hh) as (Hrd & Hm & Hd).
  destruct (decide (maxRounds r ≤ round r)).
  - rewrite (startRound_over _ _ _ _ Hr Hh) by done.
    rewrite (endGame_eq _ _ _ _ Hr Hh). intros [= <- <-].
    match goal with
    | |- wf (set_rooms _ ?s) => apply (part_wf_delete_room s)
    end. by apply part_wf_set_members.
  - rewrite (startRound_go _ _ _ _ Hr Hh) by lia. intros [= <- <-].
    match goal with
    | |- wf (set_heap _ ?s) => apply (part_wf_update s ref r)
    end; simpl; try done; try lia.
    match goal with
    | |- wf (set_timers _ _ ?s) => apply (part_wf_add_timer s)
    end; [by apply part_wf_set_rng|]. simpl. eauto.
Qed.

Lemma startRound_total st rid :
  wf st → ∃ st' out, startRound random rid st = Ok (st', out).
Proof.
  intros Hwf.
  destruct (rooms st !! rid) as [ref|] eqn:Hr;
    [|rewrite startRound_gone by done; eauto].
  destruct (pwf_rooms _ Hwf _ _ Hr) as [r Hh].
  destruct (decide (maxRounds r ≤ round r)).
  - rewrite (startRound_over _ _ _ _ Hr Hh) by done.
    rewrite (endGame_eq _ _ _ _ Hr Hh). eauto.
  - rewrite (startRound_go _ _ _ _ Hr Hh) by lia. eauto.
Qed.

Lemma part_wf_revealRound st rid st' out :
  wf st → revealRound rid st = Ok (st', out) → wf st'.
Proof.
  intros Hwf. unfold revealRound.
  destruct (rooms st !! rid); intros [= <- <-]; [|done].
  by apply part_wf_setTimeout.
Qed.

Lemma part_wf_tick st tid t rid ref timeLeft st' out :
  wf st → timers st !! tid = Some t → run t = Countdown rid ref timeLeft →
  tick tid rid ref timeLeft st = Ok (st', out) → wf st'.
Proof.
  intros Hwf Ht Hrun. unfold tick.
  destruct (pwf_timers _ Hwf _ _ Ht) as [_ Hok]. rewrite Hrun in Hok.
  assert (wf (set_timers
                (<[tid := {| delay := 1000; repeat := true;
                             run := Countdown rid ref (timeLeft - 1) |}]>
                   (timers st)) (next_timer st) st)) as Hwf1.
  { by eapply part_wf_retime. }
  case_bool_decide; [|by intros [= <- <-]].
  intros Hrun2. inv_ok. eapply part_wf_revealRound; [|done].
  by apply part_wf_clearInterval.
Qed.

Lemma tick_total st tid t rid ref timeLeft :
  wf st → timers st !! tid = Some t → run t = Countdown rid ref timeLeft →
  ∃ st' out, tick tid rid ref timeLeft st = Ok (st', out).
Proof.
  intros Hwf Ht Hrun. unfold tick.
  destruct (pwf_timers _ Hwf _ _ Ht) as [_ Hok]. rewrite Hrun in Hok.
  destruct Hok as [r Hr].
  case_bool_decide; [|eauto]. simpl. rewrite Hr. simpl.
  unfold revealRound. case_match; eauto.
Qed.

Lemma part_wf_handleDisconnect st h st' out :
  wf st → handleDisconnect h st = Ok (st', out) → wf st'.
Proof.
  intros Hwf. unfold handleDisconnect.
  set (st1 := if bool_decide (waitingPlayer st = Some h)
              then set_waitingPlayer None st else st).
  assert (wf st1) as Hwf1.
  { unfold st1. case_bool_decide; [|done].
    by apply part_wf_set_waitingPlayer. }
  clearbody st1.
  repeat case_match; intros Hok; inv_ok; subst; try done.
  match goal with
  | |- wf (set_rooms _ ?s) => apply (part_wf_delete_room s)
  end. by apply part_wf_clearInterval.
Qed.

Lemma handleDisconnect_total st h :
  wf st → ∃ st' out, handleDisconnect h st = Ok (st', out).
Proof.
  intros Hwf. unfold handleDisconnect.
  set (st1 := if bool_decide (waitingPlayer st = Some h)
              then set_waitingPlayer None st else st).
  assert (wf st1) as Hwf1.
  { unfold st1. case_bool_decide; [|done].
    by apply part_wf_set_waitingPlayer. }
  clearbody st1.
  destruct (roomId (sock st1 h)) as [rid|]; [|eauto].
  destruct (rooms st1 !! rid) as [ref|] eqn:Hr; [|eauto].
  destruct (pwf_rooms _ Hwf1 _ _ Hr) as [r ->]. simpl. eauto.
Qed.

Lemma part_wf_on_submit_score st h points st' out :
  wf st → on_submit_score h points st = Ok (st', out) → wf st'.
Proof.
  intros Hwf. unfold on_submit_score.
  repeat case_match; intros Hok; inv_ok; subst; try done.
  all: eapply part_wf_update; eauto; simpl; by eapply pwf_round.
Qed.

Lemma part_on_submit_score_total st h points :
  wf st → ∃ st' out, on_submit_score h points st = Ok (st', out).
Proof.
  intros Hwf. unfold on_submit_score.
  destruct (roomId (sock st h)) as [rid|]; [|eauto].
  destruct (rooms st !! rid) as [ref|] eqn:Hr; [|eauto].
  destruct (pwf_rooms _ Hwf _ _ Hr) as [r ->]. simpl. eauto.
Qed.

Lemma part_wf_step st ev st' out :
  wf st → step random st ev = Ok (st', out) → wf st'.
Proof.
  intros Hwf. destruct ev as [h [d|]|h|h pts|tid]; simpl; [|done|..].
  - apply part_wf_findMatch; [by apply part_wf_set_user|].
    rewrite part_user_set_user. by case_decide.
  - unfold on_disconnect. apply part_wf_handleDisconnect.
    by apply part_wf_set_members.
  - by apply part_wf_on_submit_score.
  - destruct (timers st !! tid) as [t|] eqn:Ht; [|by intros [= <- <-]].
    destruct (run t) as [rid|rid ref tl] eqn:Hrun.
    + apply part_wf_startRound. by apply part_wf_delete_timer.
    + by eapply part_wf_tick.
Qed.

Lemma part_step_total st ev :
  wf st → has_payload ev = true → ∃ st' out, step random st ev = Ok (st', out).
Proof.
  intros Hwf Hev. destruct ev as [h [d|]|h|h pts|tid]; simpl; [|done|..].
  - apply findMatch_total; [by apply part_wf_set_user|].
    rewrite part_user_set_user. by case_decide.
  - unfold on_disconnect. apply handleDisconnect_total.
    by apply part_wf_set_members.
  - by apply part_on_submit_score_total.
  - destruct (timers st !! tid) as [t|] eqn:Ht; [|eauto].
    destruct (run t) as [rid|rid ref tl] eqn:Hrun.
    + apply startRound_total. by apply part_wf_delete_timer.
    + by eapply tick_total.
Qed.

Lemma part_exec_app st evs1 evs2 :
  exec random st (evs1 ++ evs2)
  = '(st1, out1) ← exec random st evs1;
    '(st2, out2) ← exec random st1 evs2;
    Ok (st2, out1 ++ out2).
Proof.
  revert st. induction evs1 as [|ev evs1 IH]; intros st; simpl.
  - destruct (exec random st evs2) as [[st2 out2]|]; done.
  - destruct (step random st ev) as [[st1 out1]|]; simpl; [|done].
    rewrite IH. destruct (exec random st1 evs1) as [[st2 out2]|]; simpl; [|done].
    destruct (exec random st2 evs2) as [[st3 out3]|]; simpl; [|done].
    by rewrite app_assoc.
Qed.

Lemma part_exec_snoc st0 evs st out ev st' o :
  exec random st0 evs = Ok (st, out) → step random st ev = Ok (st', o) →
  exec random st0 (evs ++ [ev]) = Ok (st', out ++ o).
Proof.
  intros He Hs. rewrite part_exec_app, He. simpl. rewrite Hs. simpl.
  by rewrite app_nil_r.
Qed.

Lemma part_wf_exec evs : ∀ st st' out,
  wf st → exec random st evs = Ok (st', out) → wf st'.
Proof.
  induction evs as [|ev evs IH]; intros st st' out Hwf; simpl.
  - by intros [= <- <-].
  - intros H. inv_ok. destruct a as [st1 out1]. inv_ok.
    destruct a as [st2 out2]. inv_ok. subst.
    eapply IH; [|done]. by eapply part_wf_step.
Qed.

Lemma part_exec_total evs : ∀ st,
  wf st → forallb has_payload evs = true →
  ∃ st' out, exec random st evs = Ok (st', out).
Proof.
  induction evs as [|ev evs IH]; intros st Hwf Hevs; [simpl; eauto|].
  apply andb_prop in Hevs as [Hev Hevs].
  destruct (part_step_total st ev Hwf Hev) as (st1 & out1 & Hs).
  cbn [exec]. rewrite Hs. simpl.
  destruct (IH st1) as (st2 & out2 & He); [by eapply part_wf_step|done|].
  rewrite He. simpl. eauto.
Qed.

Lemma part_reachable_wf st : reachable random st → wf st.
Proof. intros (evs & out & H). eapply part_wf_exec; [apply part_wf_init|done]. Qed.

Lemma part_reachable_step st ev st' out :
  reachable random st → step random st ev = Ok (st', out) →
  reachable random st'.
Proof.
  intros (evs & out0 & H) Hs. exists (evs ++ [ev]), (out0 ++ out ++ []).
  rewrite part_exec_app, H. simpl. rewrite Hs. done.
Qed.

End Facts.
End PartFacts.

(** ** Facts about the concrete scenarios *)
Module ScenarioFacts.
Import Js JsFacts Scenario.

Lemma rnd_range n : 0 ≤ rnd n < 2 ^ 53.
Proof. unfold rnd. apply Z.mod_pos_bound. lia. Qed.

Lemma server_after_reachable evs :
  ServerSpec.reachable rnd (server_after evs).
Proof.
  unfold server_after.
  destruct (ServerJs.exec rnd ServerJs.init evs) as [[st out]|] eqn:H.
  - by exists evs, out.
  - by exists [], [].
Qed.

Lemma part_after_reachable evs :
  PartSpec.reachable rnd (part_after evs).
Proof.
  unfold part_after.
  destruct (Part000.exec rnd Part000.init evs) as [[st out]|] eqn:H.
  - by exists evs, out.
  - by exists [], [].
Qed.
End ScenarioFacts.
Module RoundFacts.
Import Js JsFacts ServerJs ServerSpec ServerFacts.
#[local] Arguments generateDeck : simpl never.
Section Rounds.
Variable random : nat → Z.

Lemma keeps_rounds_same_heap st st' out :
  heap st' = heap st → (∀ e, e ∈ out → evname e ≠ "round_start"%string) →
  keeps_rounds st st' out.
Proof. intros Hh Ho. split; [done|]. intros ref r Hr. rewrite Hh. eauto. Qed.

Lemma nextRound_rounds st rid ref st' out :
  nextRound random rid ref st = Ok (st', out) →
  keeps_rounds st st' out ∨ starts_round st st' out.
Proof.
  unfold nextRound. intros H. inv_ok. case_bool_decide.
  - inv_ok. subst. left. apply keeps_rounds_same_heap; [done|].
    intros e ->%list_elem_of_singleton. done.
  - inv_ok. subst. right.
    pose proof (lookup_lt_Some _ _ _ Ha) as Hlt.
    eexists ref, a, _, _, _. split_and!; try done.
    + simpl. by rewrite list_lookup_insert_eq.
    + lia.
    + done.
    + done.
    + intros i Hi. simpl. by rewrite list_lookup_insert_ne.
Qed.

Lemma step_rounds st ev st' out :
  step random st ev = Ok (st', out) →
  keeps_rounds st st' out ∨ starts_round st st' out.
Proof.
  destruct ev as [h [d|]|h|h pts|tid]; simpl; [|done|..].
  - unfold matchmake.
    destruct (pop _) as [[opp rest]|].
    + destruct (generateDeck random 15 _) as [dk c].
      intros H. inv_ok. subst. left. split.
      * intros e ->%list_elem_of_singleton. done.
      * intros ref r Hr. exists r. split; [|done]. simpl.
        by apply lookup_app_l_Some.
    + intros [= <- <-]. left. apply keeps_rounds_same_heap; [done|].
      intros e ->%list_elem_of_singleton. done.
  - unfold on_disconnect. repeat case_match; intros [= <- <-]; left;
      apply keeps_rounds_same_heap; try done.
    all: try (intros e He; by apply elem_of_nil in He).
    intros e ->%list_elem_of_singleton. done.
  - unfold on_submit_score. repeat case_match; intros Hok; inv_ok; subst; left;
      apply keeps_rounds_same_heap; try done.
    all: try (intros e He; by apply elem_of_nil in He).
    intros e ->%list_elem_of_singleton. done.
  - destruct (timers st !! tid) as [t|].
    2:{ intros [= <- <-]. left. apply keeps_rounds_same_heap; [done|].
        intros e He. by apply elem_of_nil in He. }
    destruct (run t) as [rid|rid ref|rid ref]; simpl.
    + unfold startGameLoop. simpl. destruct (rooms st !! rid).
      * intros H%nextRound_rounds. done.
      * intros [= <- <-]. left. apply keeps_rounds_same_heap; [done|].
        intros e He. by apply elem_of_nil in He.
    + destruct (rooms st !! rid); intros [= <- <-]; left;
        apply keeps_rounds_same_heap; try done.
      * intros e ->%list_elem_of_singleton. done.
      * intros e He. by apply elem_of_nil in He.
    + destruct (rooms st !! rid).
      * intros H%nextRound_rounds. done.
      * intros [= <- <-]. left. apply keeps_rounds_same_heap; [done|].
        intros e He. by apply elem_of_nil in He.
Qed.

End Rounds.
End RoundFacts.

Module PartRoundFacts.
Import Js JsFacts Part000 PartSpec PartFacts.
#[local] Arguments generateDeck : simpl never.
Section Rounds.
Variable random : nat → Z.

Lemma part_keeps_rounds_same_heap st st' out :
  heap st' = heap st → (∀ e, e ∈ out → evname e ≠ "round_start"%string) →
  keeps_rounds st st' out.
Proof. intros Hh Ho. split; [done|]. intros ref r Hr. rewrite Hh. eauto. Qed.

Lemma part_keeps_rounds_update st st' out ref r r' :
  heap st !! ref = Some r → round r' = round r →
  heap st' = <[ref := r']> (heap st) →
  (∀ e, e ∈ out → evname e ≠ "round_start"%string) →
  keeps_rounds st st' out.
Proof.
  intros Hr Hrd Hh Ho. split; [done|]. intros i x Hx. rewrite Hh.
  pose proof (lookup_lt_Some _ _ _ Hr) as Hlt.
  destruct (decide (ref = i)) as [<-|Hne].
  - rewrite list_lookup_insert_eq by done. exists r'. split; [done|]. congruence.
  - rewrite list_lookup_insert_ne by done. eauto.
Qed.

Ltac no_round_start :=
  intros e He;
  first [ by apply elem_of_nil in He
        | apply list_elem_of_singleton in He; by subst e ].

Lemma endGame_rounds st rid st' out :
  endGame rid st = Ok (st', out) → keeps_rounds st st' out.
Proof.
  unfold endGame. destruct (rooms st !! rid); intros Hok; inv_ok; subst.
  all: apply part_keeps_rounds_same_heap; [done|no_round_start].
Qed.

Lemma startRound_rounds st rid st' out :
  startRound random rid st = Ok (st', out) →
  keeps_rounds st st' out ∨ starts_round st st' out.
Proof.
  unfold startRound. destruct (rooms st !! rid) as [ref|].
  2:{ intros [= <- <-]. left.
      apply part_keeps_rounds_same_heap; [done|no_round_start]. }
  intros Hok. inv_ok. case_bool_decide.
  - left. by eapply endGame_rounds.
  - inv_ok. subst. right.
    pose proof (lookup_lt_Some _ _ _ Ha) as Hlt.
    eexists ref, a, _, _, _. split_and!; try done.
    + simpl. by rewrite list_lookup_insert_eq.
    + lia.
    + done.
    + done.
    + intros i Hi. simpl. by rewrite list_lookup_insert_ne.
Qed.

Lemma revealRound_rounds st rid st' out :
  revealRound rid st = Ok (st', out) → heap st' = heap st ∧
  ∀ e, e ∈ out → evname e ≠ "round_start"%string.
Proof.
  unfold revealRound. destruct (rooms st !! rid); intros [= <- <-].
  all: split; [done|no_round_start].
Qed.

Lemma heap_clearInterval t st : heap (clearInterval t st) = heap st.
Proof. by destruct t. Qed.

Lemma part_step_rounds st ev st' out :
  step random st ev = Ok (st', out) →
  keeps_rounds st st' out ∨ starts_round st st' out.
Proof.
  destruct ev as [h [d|]|h|h pts|tid]; simpl; [|done|..].
  - unfold findMatch.
    destruct (waitingPlayer _) as [opp|].
    + destruct (generateDeck random 15 _) as [dk c].
      intros H. inv_ok. subst. left. split; [no_round_start|].
      intros ref r Hr. exists r. split; [|done]. simpl.
      by apply lookup_app_l_Some.
    + intros [= <- <-]. left.
      apply part_keeps_rounds_same_heap; [done|no_round_start].
  - unfold on_disconnect, handleDisconnect.
    repeat case_match; intros Hok; inv_ok; subst; left;
      apply part_keeps_rounds_same_heap; try no_round_start;
      simpl; by rewrite ?heap_clearInterval.
  - unfold on_submit_score. repeat case_match; intros Hok; inv_ok; subst; left.
    all: try (apply part_keeps_rounds_same_heap; [done|no_round_start]).
    all: eapply part_keeps_rounds_update; [done| |done|no_round_start]; done.
  - destruct (timers st !! tid) as [t|].
    2:{ intros [= <- <-]. left.
        apply part_keeps_rounds_same_heap; [done|no_round_start]. }
    destruct (run t) as [rid|rid ref tl].
    + intros [Hk|Hs]%startRound_rounds; [left|right]; done.
    + unfold tick. case_bool_decide.
      * intros Hok. inv_ok. apply revealRound_rounds in Hok as [Hh Ho].
        left. apply part_keeps_rounds_same_heap; [|done].
        by rewrite Hh, heap_clearInterval.
      * intros [= <- <-]. left.
        apply part_keeps_rounds_same_heap; [done|no_round_start].
Qed.

End Rounds.
End PartRoundFacts.

(** ** The score handlers *)
Module ScoreFacts.
Import Js JsFacts.

Lemma server_submit_accept st h pts rid ref u r u1 u2 :
  ServerJs.roomId (ServerJs.sock st h) = Some rid →
  ServerJs.rooms st !! rid = Some ref →
  ServerJs.user (ServerJs.sock st h) = Some u →
  ServerJs.heap st !! ref = Some r →
  let st1 := ServerJs.set_user h
               {| ServerJs.data := ServerJs.data u;
                  ServerJs.score := add (ServerJs.score u) pts |} st in
  ServerJs.user (ServerJs.sock st1 (ServerJs.p1 r)) = Some u1 →
  ServerJs.user (ServerJs.sock st1 (ServerJs.p2 r)) = Some u2 →
  ServerJs.on_submit_score h pts st
  = Ok (st1, [to_room (ServerJs.members st) rid "score_update"
                (Some (ServerJs.scores_json "p1" "p2"
                         (ServerJs.score u1) (ServerJs.score u2)))]).
Proof.
  intros Hrid Href Hu Hr st1 Hu1 Hu2. unfold ServerJs.on_submit_score.
  rewrite Hrid, Href, Hu. simpl. rewrite Hr. simpl.
  unfold ServerJs.score_of. fold st1. rewrite Hu1, Hu2. done.
Qed.

Lemma server_submit_ignored st h pts :
  (∀ rid, ServerJs.roomId (ServerJs.sock st h) = Some rid →
          ServerJs.rooms st !! rid = None) →
  ServerJs.on_submit_score h pts st = Ok (st, []).
Proof.
  intros H. unfold ServerJs.on_submit_score.
  destruct (ServerJs.roomId _) as [rid|]; [|done]. by rewrite (H rid).
Qed.

Lemma part_submit_accept st h pts rid ref r :
  Part000.roomId (Part000.sock st h) = Some rid →
  Part000.rooms st !! rid = Some ref →
  Part000.heap st !! ref = Some r →
  let s := if bool_decide (h = Part000.p1 r)
           then {| Part000.sp1 := add (Part000.sp1 (Part000.scores r)) pts;
                   Part000.sp2 := Part000.sp2 (Part000.scores r) |}
           else {| Part000.sp1 := Part000.sp1 (Part000.scores r);
                   Part000.sp2 := add (Part000.sp2 (Part000.scores r)) pts |} in
  Part000.on_submit_score h pts st
  = Ok (Part000.set_heap (<[ref := Part000.set_scores s r]> (Part000.heap st)) st,
        [to_room (Part000.members st) rid "score_update"
           (Some (Part000.scores_json s))]).
Proof.
  intros Hrid Href Hr. unfold Part000.on_submit_score.
  rewrite Hrid, Href, Hr. done.
Qed.

Lemma part_submit_ignored st h pts :
  (∀ rid, Part000.roomId (Part000.sock st h) = Some rid →
          Part000.rooms st !! rid = None) →
  Part000.on_submit_score h pts st = Ok (st, []).
Proof.
  intros H. unfold Part000.on_submit_score.
  destruct (Part000.roomId _) as [rid|]; [|done]. by rewrite (H rid).
Qed.

End ScoreFacts.

(** ** What a step emits, and to which room *)
Module QuietFacts.
Import Js JsFacts.

Lemma not_game_event_name rid e :
  evname e ≠ "round_start"%string → evname e ≠ "round_reveal"%string →
  evname e ≠ "score_update"%string → ¬ game_event rid e.
Proof. intros H1 H2 H3 [_ [?|[?|?]]]; done. Qed.

Lemma not_game_event_dest rid rid' ms ev p :
  rid' ≠ rid → ¬ game_event rid (to_room ms rid' ev p).
Proof. intros Hne [[rs [= ? ?]] _]. done. Qed.

Section Server.
Import ServerJs ServerSpec ServerFacts.
#[local] Arguments generateDeck : simpl never.
Variable random : nat → Z.

Lemma nextRound_quiet rid rid' ref st st' out :
  rid' ≠ rid → nextRound random rid' ref st = Ok (st', out) →
  ∀ e, e ∈ out → ¬ game_event rid e.
Proof.
  intros Hne. unfold nextRound. intros H. inv_ok.
  case_bool_decide; inv_ok; subst; intros e ->%list_elem_of_singleton;
    by apply not_game_event_dest.
Qed.

Lemma step_quiet rid st ev st' out :
  rooms st !! rid = None → step random st ev = Ok (st', out) →
  ∀ e, e ∈ out → ¬ game_event rid e.
Proof.
  intros Hrid. destruct ev as [h [d|]|h|h pts|tid]; simpl; [|done|..].
  - unfold matchmake.
    destruct (pop _) as [[opp rest]|].
    + destruct (generateDeck random 15 _) as [dk c].
      intros H. inv_ok. subst. intros e ->%list_elem_of_singleton.
      by apply not_game_event_name.
    + intros [= <- <-] e ->%list_elem_of_singleton.
      by apply not_game_event_name.
  - unfold on_disconnect. repeat case_match; intros [= <- <-] e He.
    all: try by apply elem_of_nil in He.
    apply list_elem_of_singleton in He as ->. by apply not_game_event_name.
  - unfold on_submit_score.
    destruct (roomId _) as [rid'|]; [|by intros [= <- <-] e ?%elem_of_nil].
    destruct (rooms st !! rid') as [ref|] eqn:Hr;
      [|by intros [= <- <-] e ?%elem_of_nil].
    intros H. inv_ok. subst. intros e ->%list_elem_of_singleton.
    apply not_game_event_dest. congruence.
  - destruct (timers st !! tid) as [t|];
      [|by intros [= <- <-] e ?%elem_of_nil].
    destruct (run t) as [rid'|rid' ref|rid' ref]; simpl.
    + unfold startGameLoop. simpl.
      destruct (rooms st !! rid') eqn:Hr;
        [|by intros [= <- <-] e ?%elem_of_nil].
      apply nextRound_quiet. congruence.
    + destruct (rooms st !! rid') eqn:Hr;
        [|by intros [= <- <-] e ?%elem_of_nil].
      intros [= <- <-] e ->%list_elem_of_singleton.
      apply not_game_event_dest. congruence.
    + destruct (rooms st !! rid') eqn:Hr;
        [|by intros [= <- <-] e ?%elem_of_nil].
      apply nextRound_quiet. congruence.
Qed.

Lemma exec_quiet rid evs : ∀ st st' out,
  unregistered_throughout random rid st evs →
  exec random st evs = Ok (st', out) →
  ∀ e, e ∈ out → ¬ game_event rid e.
Proof.
  induction evs as [|ev evs IH]; intros st st' out; simpl.
  - intros _ [= <- <-] e ?%elem_of_nil. done.
  - intros [Hrid Hrest] H. inv_ok. destruct a as [st1 out1]. inv_ok.
    destruct a as [st2 out2]. inv_ok. subst. rewrite Ha in Hrest.
    intros e [He|He]%elem_of_app.
    + by eapply step_quiet.
    + by eapply IH.
Qed.

Lemma fire_unregistered st tid t :
  timers st !! tid = Some t →
  rooms st !! callback_room (run t) = None →
  step random st (Fire tid)
  = Ok (set_timers (delete tid (timers st)) (next_timer st) st, []).
Proof.
  intros Ht Hr. simpl. rewrite Ht.
  destruct (run t) as [rid|rid ref|rid ref]; simpl in *;
    unfold startGameLoop; simpl; by rewrite Hr.
Qed.

Lemma disconnect_unregisters st h rid st' out :
  roomId (sock st h) = Some rid →
  step random st (Disconnect h) = Ok (st', out) → rooms st' !! rid = None.
Proof.
  intros Hrid. simpl. unfold on_disconnect. simpl.
  change (sock (set_queue _ (set_members _ st)) h) with (sock st h).
  rewrite Hrid. destruct (rooms st !! rid) eqn:Hr; intros [= <- <-]; simpl.
  - apply lookup_delete_eq.
  - done.
Qed.

Lemma game_over_unregisters st ev st' out e rid rs :
  step random st ev = Ok (st', out) → e ∈ out →
  evname e = "game_over"%string → dest e = ToRoom rid rs →
  rooms st' !! rid = None.
Proof.
  assert (∀ rid' ref s s' o, nextRound random rid' ref s = Ok (s', o) →
            e ∈ o → evname e = "game_over"%string → dest e = ToRoom rid rs →
            rooms s' !! rid = None) as Hnext.
  { intros rid' ref s s' o. unfold nextRound. intros H. inv_ok.
    case_bool_decide; inv_ok; subst; intros ->%list_elem_of_singleton; [|done].
    intros _ [= <- _]. simpl. apply lookup_delete_eq. }
  destruct ev as [h [d|]|h|h pts|tid]; simpl; [|done|..].
  - unfold matchmake.
    destruct (pop _) as [[opp rest]|].
    + destruct (generateDeck random 15 _) as [dk c].
      intros H. inv_ok. subst. by intros ->%list_elem_of_singleton.
    + by intros [= <- <-] ->%list_elem_of_singleton.
  - unfold on_disconnect. repeat case_match; intros [= <- <-] He.
    all: try by apply elem_of_nil in He.
    by apply list_elem_of_singleton in He as ->.
  - unfold on_submit_score. repeat case_match; intros Hok; inv_ok; subst.
    all: try by intros ?%elem_of_nil.
    by intros ->%list_elem_of_singleton.
  - destruct (timers st !! tid) as [t|]; [|by intros [= <- <-] ?%elem_of_nil].
    destruct (run t) as [rid'|rid' ref|rid' ref]; simpl.
    + unfold startGameLoop. simpl.
      destruct (rooms st !! rid'); [apply Hnext|].
      by intros [= <- <-] ?%elem_of_nil.
    + destruct (rooms st !! rid'); intros [= <- <-].
      * by intros ->%list_elem_of_singleton.
      * by intros ?%elem_of_nil.
    + destruct (rooms st !! rid'); [apply Hnext|].
      by intros [= <- <-] ?%elem_of_nil.
Qed.

End Server.
Section Part.
Import Part000 PartSpec PartFacts.
#[local] Arguments generateDeck : simpl never.
Variable random : nat → Z.

Lemma endGame_quiet rid rid' st st' out :
  rid' ≠ rid → endGame rid' st = Ok (st', out) →
  ∀ e, e ∈ out → ¬ game_event rid e.
Proof.
  intros Hne. unfold endGame.
  destruct (rooms st !! rid'); intros H; inv_ok; subst.
  - intros e ->%list_elem_of_singleton. by apply not_game_event_dest.
  - by intros e ?%elem_of_nil.
Qed.

Lemma startRound_quiet rid rid' st st' out :
  rooms st !! rid = None → startRound random rid' st = Ok (st', out) →
  ∀ e, e ∈ out → ¬ game_event rid e.
Proof.
  intros Hrid. unfold startRound.
  destruct (rooms st !! rid') as [ref|] eqn:Hr;
    [|by intros [= <- <-] e ?%elem_of_nil].
  assert (rid' ≠ rid) as Hne by congruence.
  intros Hrun. inv_ok. case_bool_decide.
  - by eapply endGame_quiet.
  - inv_ok. subst. intros e ->%list_elem_of_singleton.
    by apply not_game_event_dest.
Qed.

Lemma revealRound_quiet rid rid' st st' out :
  rooms st !! rid = None → revealRound rid' st = Ok (st', out) →
  ∀ e, e ∈ out → ¬ game_event rid e.
Proof.
  intros Hrid. unfold revealRound.
  destruct (rooms st !! rid') eqn:Hr; intros [= <- <-].
  - intros e ->%list_elem_of_singleton. apply not_game_event_dest. congruence.
  - by intros e ?%elem_of_nil.
Qed.

Lemma rooms_clearInterval t st : rooms (clearInterval t st) = rooms st.
Proof. by destruct t. Qed.

Lemma part_step_quiet rid st ev st' out :
  rooms st !! rid = None → step random st ev = Ok (st', out) →
  ∀ e, e ∈ out → ¬ game_event rid e.
Proof.
  intros Hrid. destruct ev as [h [d|]|h|h pts|tid]; simpl; [|done|..].
  - unfold findMatch.
    destruct (waitingPlayer _) as [opp|].
    + destruct (generateDeck random 15 _) as [dk c].
      intros Hrun. inv_ok. subst. intros e ->%list_elem_of_singleton.
      by apply not_game_event_name.
    + intros [= <- <-] e ->%list_elem_of_singleton.
      by apply not_game_event_name.
  - unfold on_disconnect, handleDisconnect.
    repeat case_match; intros Hok; inv_ok; subst; intros e He.
    all: try by apply elem_of_nil in He.
    all: apply list_elem_of_singleton in He as ->; by apply not_game_event_name.
  - unfold on_submit_score.
    destruct (roomId _) as [rid'|]; [|by intros [= <- <-] e ?%elem_of_nil].
    destruct (rooms st !! rid') as [ref|] eqn:Hr;
      [|by intros [= <- <-] e ?%elem_of_nil].
    intros Hrun. inv_ok. subst. intros e ->%list_elem_of_singleton.
    apply not_game_event_dest. congruence.
  - destruct (timers st !! tid) as [t|];
      [|by intros [= <- <-] e ?%elem_of_nil].
    destruct (run t) as [rid'|rid' ref tl].
    + by apply startRound_quiet.
    + unfold tick. case_bool_decide; [|by intros [= <- <-] e ?%elem_of_nil].
      intros Hrun. inv_ok. eapply revealRound_quiet; [|done].
      by rewrite rooms_clearInterval.
Qed.

Lemma part_exec_quiet rid evs : ∀ st st' out,
  unregistered_throughout random rid st evs →
  exec random st evs = Ok (st', out) →
  ∀ e, e ∈ out → ¬ game_event rid e.
Proof.
  induction evs as [|ev evs IH]; intros st st' out; simpl.
  - intros _ [= <- <-] e ?%elem_of_nil. done.
  - intros [Hrid Hrest] H. inv_ok. destruct a as [st1 out1]. inv_ok.
    destruct a as [st2 out2]. inv_ok. subst. rewrite Ha in Hrest.
    intros e [He|He]%elem_of_app.
    + by eapply part_step_quiet.
    + by eapply IH.
Qed.

Lemma part_disconnect_unregisters st h rid st' out :
  roomId (sock st h) = Some rid →
  step random st (Disconnect h) = Ok (st', out) → rooms st' !! rid = None.
Proof.
  intros Hrid. simpl. unfold on_disconnect, handleDisconnect.
  set (st1 := if bool_decide _ then _ else _).
  assert (sock st1 h = sock st h ∧
          rooms st1 = rooms st) as [Hs Hr].
  { unfold st1. by case_bool_decide. }
  rewrite Hs, Hrid, Hr.
  destruct (rooms st !! rid) eqn:Hrm; intros Hok; inv_ok; subst; simpl.
  - rewrite rooms_clearInterval, Hr. apply lookup_delete_eq.
  - by rewrite Hr.
Qed.

Lemma part_game_over_unregisters st ev st' out e rid rs :
  step random st ev = Ok (st', out) → e ∈ out →
  evname e = "game_over"%string → dest e = ToRoom rid rs →
  rooms st' !! rid = None.
Proof.
  assert (∀ rid' s s' o, startRound random rid' s = Ok (s', o) →
            e ∈ o → evname e = "game_over"%string → dest e = ToRoom rid rs →
            rooms s' !! rid = None) as Hnext.
  { intros rid' s s' o. unfold startRound.
    destruct (rooms s !! rid') as [ref|] eqn:Hr;
      [|by intros [= <- <-] ?%elem_of_nil].
    intros Hrun. inv_ok. case_bool_decide.
    - revert Hrun. unfold endGame. rewrite Hr. intros Hrun. inv_ok. subst.
      intros ->%list_elem_of_singleton _ [= <- _]. simpl.
      apply lookup_delete_eq.
    - inv_ok. subst. by intros ->%list_elem_of_singleton. }
  destruct ev as [h [d|]|h|h pts|tid]; simpl; [|done|..].
  - unfold findMatch.
    destruct (waitingPlayer _) as [opp|].
    + destruct (generateDeck random 15 _) as [dk c].
      intros Hrun. inv_ok. subst. by intros ->%list_elem_of_singleton.
    + by intros [= <- <-] ->%list_elem_of_singleton.
  - unfold on_disconnect, handleDisconnect.
    repeat case_match; intros Hok; inv_ok; subst; intros He.
    all: try by apply elem_of_nil in He.
    all: by apply list_elem_of_singleton in He as ->.
  - unfold on_submit_score. repeat case_match; intros Hok; inv_ok; subst.
    all: try by intros ?%elem_of_nil.
    all: by intros ->%list_elem_of_singleton.
  - destruct (timers st !! tid) as [t|]; [|by intros [= <- <-] ?%elem_of_nil].
    destruct (run t) as [rid'|rid' ref tl]; [apply Hnext|].
    unfold tick. case_bool_decide; [|by intros [= <- <-] ?%elem_of_nil].
    intros Hrun. inv_ok. revert Hrun. unfold revealRound.
    case_match; intros [= <- <-].
    + by intros ->%list_elem_of_singleton.
    + by intros ?%elem_of_nil.
Qed.

Lemma part_fire_unregistered st tid t :
  wf st → timers st !! tid = Some t →
  rooms st !! callback_room (run t) = None →
  ∃ st', step random st (Fire tid) = Ok (st', []) ∧
         rooms st' = rooms st ∧ heap st' = heap st ∧
         sockets st' = sockets st ∧ waitingPlayer st' = waitingPlayer st ∧
         members st' = members st ∧ next_timer st' = next_timer st.
Proof.
  intros Hwf Ht Hr. simpl. rewrite Ht.
  destruct (pwf_timers _ Hwf _ _ Ht) as [_ Hok].
  destruct (run t) as [rid|rid ref tl]; simpl in *.
  - rewrite startRound_gone by done. eauto 10.
  - unfold tick. destruct Hok as [r Hh].
    case_bool_decide; [|eauto 10]. simpl. rewrite Hh. simpl.
    unfold revealRound. rewrite rooms_clearInterval. simpl. rewrite Hr.
    eexists. split; [done|]. by destruct (timer r).
Qed.

End Part.
End QuietFacts.

(** ** What destruction does to the pending timers *)
Module TimerFacts.
Import Js JsFacts.

Section Server.
Import ServerJs ServerSpec ServerFacts.
#[local] Arguments generateDeck : simpl never.
Variable random : nat → Z.

Lemma disconnect_keeps_timers st h st' out :
  step random st (Disconnect h) = Ok (st', out) →
  timers st' = timers st ∧ next_timer st' = next_timer st.
Proof.
  simpl. unfold on_disconnect. repeat case_match; by intros [= <- <-].
Qed.

Lemma game_over_keeps_timers st tid st' out e :
  step random st (Fire tid) = Ok (st', out) → e ∈ out →
  evname e = "game_over"%string →
  timers st' = delete tid (timers st) ∧ next_timer st' = next_timer st.
Proof.
  assert (∀ rid ref s s' o, nextRound random rid ref s = Ok (s', o) →
            e ∈ o → evname e = "game_over"%string →
            timers s' = timers s ∧ next_timer s' = next_timer s) as Hnext.
  { intros rid ref s s' o. unfold nextRound. intros H. inv_ok.
    case_bool_decide; inv_ok; subst; intros ->%list_elem_of_singleton; done. }
  simpl. destruct (timers st !! tid) as [t|];
    [|by intros [= <- <-] ?%elem_of_nil].
  destruct (run t) as [rid|rid ref|rid ref]; simpl.
  - unfold startGameLoop. simpl. destruct (rooms st !! rid).
    + intros Hn He Hg. by destruct (Hnext _ _ _ _ _ Hn He Hg).
    + by intros [= <- <-] ?%elem_of_nil.
  - destruct (rooms st !! rid); intros [= <- <-].
    + by intros ->%list_elem_of_singleton.
    + by intros ?%elem_of_nil.
  - destruct (rooms st !! rid).
    + intros Hn He Hg. by destruct (Hnext _ _ _ _ _ Hn He Hg).
    + by intros [= <- <-] ?%elem_of_nil.
Qed.

End Server.

Section Part.
Import Part000 PartSpec PartFacts.
#[local] Arguments generateDeck : simpl never.
Variable random : nat → Z.

Lemma part_disconnect_clears_interval st h rid ref r :
  roomId (sock st h) = Some rid → rooms st !! rid = Some ref →
  heap st !! ref = Some r →
  ∃ st' e,
    step random st (Disconnect h) = Ok (st', [e]) ∧
    evname e = "opponent_left"%string ∧
    rooms st' = delete rid (rooms st) ∧
    timers st' = match timer r with
                 | Some tid => delete tid (timers st)
                 | None => timers st
                 end ∧
    next_timer st' = next_timer st.
Proof.
  intros Hrid Hr Hh. simpl. unfold on_disconnect, handleDisconnect.
  set (st1 := if bool_decide _ then _ else _).
  assert (sock st1 h = sock st h ∧ rooms st1 = rooms st ∧
          heap st1 = heap st ∧ timers st1 = timers st ∧
          next_timer st1 = next_timer st) as (Hs & Hrm & Hhp & Ht & Hn).
  { unfold st1. by case_bool_decide. }
  rewrite Hs, Hrid, Hrm, Hr, Hhp, Hh. simpl.
  eexists _, _. split; [done|]. simpl.
  destruct (timer r); simpl; by rewrite ?Hrm, ?Ht, ?Hn.
Qed.

Lemma part_game_over_keeps_timers st tid st' out e :
  step random st (Fire tid) = Ok (st', out) → e ∈ out →
  evname e = "game_over"%string →
  timers st' = delete tid (timers st) ∧ next_timer st' = next_timer st.
Proof.
  simpl. destruct (timers st !! tid) as [t|];
    [|by intros [= <- <-] ?%elem_of_nil].
  destruct (run t) as [rid|rid ref tl].
  - unfold startRound. simpl.
    destruct (rooms st !! rid) as [ref|] eqn:Hr;
      [|by intros [= <- <-] ?%elem_of_nil].
    intros Hrun. inv_ok. case_bool_decide.
    + revert Hrun. unfold endGame. simpl. rewrite Hr. intros Hrun. inv_ok.
      subst. done.
    + inv_ok. subst. by intros ->%list_elem_of_singleton.
  - unfold tick. case_bool_decide; [|by intros [= <- <-] ?%elem_of_nil].
    intros Hrun. inv_ok. revert Hrun. unfold revealRound.
    case_match; intros [= <- <-].
    + by intros ->%list_elem_of_singleton.
    + by intros ?%elem_of_nil.
Qed.

Lemma part_late_timeout st tid t rid :
  timers st !! tid = Some t → run t = StartRound rid →
  rooms st !! rid = None →
  step random st (Fire tid)
  = Ok (set_timers (delete tid (timers st)) (next_timer st) st, []).
Proof.
  intros Ht Hrun Hr. simpl. rewrite Ht, Hrun.
  by rewrite startRound_gone.
Qed.

End Part.
End TimerFacts.

(** ** Scores as sums of the accepted submissions *)
Module LedgerFacts.
Import Js JsFacts.

Section Server.
Import ServerJs ServerSpec ServerFacts.
#[local] Arguments generateDeck : simpl never.
Variable random : nat → Z.

Lemma matchmake_users st h st' out :
  matchmake random h st = Ok (st', out) →
  ∀ x, user (sock st' x) = user (sock st x).
Proof.
  unfold matchmake. destruct (pop _) as [[opp rest]|].
  - destruct (generateDeck random 15 _) as [dk c].
    intros H. inv_ok. subst. intros x. by autorewrite with sockdb.
  - by intros [= <- <-].
Qed.

Lemma nextRound_sockets st rid ref st' out :
  nextRound random rid ref st = Ok (st', out) → sockets st' = sockets st.
Proof.
  unfold nextRound. intros H. inv_ok. case_bool_decide; inv_ok; by subst.
Qed.

Lemma step_users st ev st' out x :
  step random st ev = Ok (st', out) →
  user (sock st' x)
  = match ev with
    | Identify h d =>
        if decide (h = x)
        then (λ d, {| data := d; score := of_Z 0 |}) <$> d
        else user (sock st x)
    | SubmitScore h points =>
        if decide (h = x)
        then if accepted st h
             then (λ u, {| data := data u; score := add (score u) points |})
                    <$> user (sock st h)
             else user (sock st x)
        else user (sock st x)
    | _ => user (sock st x)
    end.
Proof.
  destruct ev as [h [d|]|h|h pts|tid]; simpl; [|done|..].
  - intros H. rewrite (matchmake_users _ _ _ _ H).
    by rewrite user_set_user.
  - unfold on_disconnect. repeat case_match; by intros [= <- <-].
  - unfold on_submit_score, accepted.
    destruct (roomId (sock st h)) as [rid|].
    2:{ intros [= <- <-]. by case_decide; subst. }
    destruct (rooms st !! rid) as [ref|].
    2:{ intros [= <- <-]. rewrite bool_decide_false by (by intros [? ?]).
        by case_decide; subst. }
    rewrite bool_decide_true by eauto.
    intros H. inv_ok. subst. rewrite user_set_user.
    case_decide; [|done]. by rewrite Ha.
  - destruct (timers st !! tid) as [t|]; [|by intros [= <- <-]].
    assert (∀ s s' o rid ref, nextRound random rid ref s = Ok (s', o) →
              user (sock s' x) = user (sock s x)) as Hnext.
    { intros s s' o rid ref Hs. unfold sock.
      by rewrite (nextRound_sockets _ _ _ _ _ Hs). }
    destruct (run t) as [rid|rid ref|rid ref]; simpl.
    + unfold startGameLoop. simpl. destruct (rooms st !! rid).
      * intros Hs. by rewrite (Hnext _ _ _ _ _ Hs).
      * by intros [= <- <-].
    + destruct (rooms st !! rid); by intros [= <- <-].
    + destruct (rooms st !! rid).
      * intros Hs. by rewrite (Hnext _ _ _ _ _ Hs).
      * by intros [= <- <-].
Qed.

Lemma credited_exec h evs : ∀ st0 acc st out,
  (∀ u0, user (sock st0 h) = Some u0 → score u0 = acc) →
  exec random st0 evs = Ok (st, out) →
  ∀ u, user (sock st h) = Some u → score u = credited random h st0 evs acc.
Proof.
  induction evs as [|ev evs IH]; intros st0 acc st out Hacc; simpl.
  - intros [= <- <-]. done.
  - intros H. inv_ok. destruct a as [st1 out1]. inv_ok.
    destruct a as [st2 out2]. inv_ok. subst. rewrite Ha.
    eapply IH; [|done]. intros u1.
    rewrite (step_users _ _ _ _ h Ha).
    destruct ev as [h' d|h'|h' pts|tid]; try apply Hacc.
    + case_decide; [|apply Hacc]. destruct d; [by intros [= <-]|done].
    + case_decide; [|apply Hacc]. subst h'.
      destruct (accepted st0 h); [|apply Hacc].
      destruct (user (sock st0 h)) as [u0|]; [|done].
      intros [= <-]. simpl. by rewrite (Hacc u0).
Qed.

End Server.
Section Part.
Import Part000 PartSpec PartFacts.
#[local] Arguments generateDeck : simpl never.
Variable random : nat → Z.

Lemma same_heap_scores st st' ev ref r' :
  heap st' = heap st → (∀ h p, ev ≠ SubmitScore h p) →
  heap st' !! ref = Some r' →
  match heap st !! ref with
  | None => scores r' = zero
  | Some r => scores r' = scores_after st ev ref r
  end.
Proof.
  intros Hh Hev Hr. rewrite Hh in Hr. rewrite Hr.
  destruct ev; try done. by destruct (Hev h points).
Qed.

Lemma part_step_scores st ev st' out ref r' :
  step random st ev = Ok (st', out) → heap st' !! ref = Some r' →
  match heap st !! ref with
  | None => scores r' = zero
  | Some r => scores r' = scores_after st ev ref r
  end.
Proof.
  destruct ev as [h [d|]|h|h pts|tid]; simpl; [|done|..].
  - unfold findMatch.
    destruct (waitingPlayer _) as [opp|].
    + destruct (generateDeck random 15 _) as [dk c].
      intros H. inv_ok. subst. simpl.
      intros [Hr|[Hlen Hr]]%lookup_app_Some.
      * by rewrite Hr.
      * apply list_lookup_singleton_Some in Hr as [_ <-].
        rewrite (lookup_ge_None_2 (heap st)) by done. done.
    + intros [= <- <-] Hr. simpl in Hr. by rewrite Hr.
  - unfold on_disconnect, handleDisconnect. intros Hs Hr'.
    apply (same_heap_scores st st' (Disconnect h)); [|done|done].
    revert Hs. repeat case_match; intros Hok; inv_ok; subst; simpl;
      by rewrite ?PartRoundFacts.heap_clearInterval.
  - unfold on_submit_score, routed.
    destruct (roomId (sock st h)) as [rid|];
      [|intros [= <- <-] Hr; by rewrite Hr].
    destruct (rooms st !! rid) as [ref'|];
      [|intros [= <- <-] Hr; by rewrite Hr].
    intros Hrun. inv_ok. subst. simpl.
    pose proof (lookup_lt_Some _ _ _ Ha) as Hlt.
    destruct (decide (ref' = ref)) as [->|Hne].
    + rewrite list_lookup_insert_eq by done. intros [= <-].
      rewrite Ha. simpl. unfold credit. by case_bool_decide.
    + rewrite list_lookup_insert_ne by done. intros Hr. by rewrite Hr.
  - destruct (timers st !! tid) as [t|];
      [|intros [= <- <-] Hr; by rewrite Hr].
    destruct (run t) as [rid|rid ref0 tl].
    + unfold startRound. simpl.
      destruct (rooms st !! rid) as [ref'|] eqn:Hrm;
        [|intros [= <- <-] Hr; simpl in Hr; by rewrite Hr].
      intros Hrun. inv_ok. case_bool_decide.
      * revert Hrun. unfold endGame. simpl. rewrite Hrm. intros Hrun.
        inv_ok. subst. simpl. intros Hr. by rewrite Hr.
      * inv_ok. subst. simpl. simpl in Ha.
        pose proof (lookup_lt_Some _ _ _ Ha) as Hlt.
        destruct (decide (ref' = ref)) as [->|Hne].
        -- rewrite list_lookup_insert_eq by done. intros [= <-].
           by rewrite Ha.
        -- rewrite list_lookup_insert_ne by done. intros Hr. by rewrite Hr.
    + intros Hs Hr'.
      apply (same_heap_scores st st' (Fire tid)); [|done|done].
      revert Hs. unfold tick. case_bool_decide; [|by intros [= <- <-]].
      intros Hrun. inv_ok.
      apply PartRoundFacts.revealRound_rounds in Hrun as [Hh _].
      by rewrite Hh, PartRoundFacts.heap_clearInterval.
Qed.

Lemma part_step_heap_grows st ev st' out ref :
  step random st ev = Ok (st', out) →
  is_Some (heap st !! ref) → is_Some (heap st' !! ref).
Proof.
  intros Hs [r Hr].
  destruct (PartRoundFacts.part_step_rounds random st ev st' out Hs)
    as [[_ Hk]|(ref' & r0 & r0' & e & p & H0 & H0' & _ & _ & _ & _ & _ & _ & Ho)].
  - destruct (Hk ref r Hr) as (r' & -> & _). eauto.
  - destruct (decide (ref = ref')) as [->|Hne]; [eauto|].
    rewrite Ho by done. eauto.
Qed.

Lemma ledger_exec ref evs : ∀ st0 acc st out,
  wf st0 →
  (∀ r0, heap st0 !! ref = Some r0 → scores r0 = acc) →
  (heap st0 !! ref = None → acc = zero) →
  exec random st0 evs = Ok (st, out) →
  ∀ r, heap st !! ref = Some r → scores r = ledger random ref st0 evs acc.
Proof.
  induction evs as [|ev evs IH]; intros st0 acc st out Hwf Hacc Hzero; simpl.
  - intros [= <- <-]. done.
  - intros H. inv_ok. destruct a as [st1 out1]. inv_ok.
    destruct a as [st2 out2]. inv_ok. subst. rewrite Ha.
    eapply IH; [by eapply part_wf_step| | |done].
    + intros r1 Hr1.
      pose proof (part_step_scores _ _ _ _ _ _ Ha Hr1) as Hsc.
      destruct (heap st0 !! ref) as [r0|] eqn:Hr0.
      * rewrite Hsc. unfold scores_after.
        destruct ev as [h' d|h'|h' pts|tid]; try by apply Hacc.
        destruct (routed st0 h') as [ref'|]; [|by apply Hacc].
        case_decide; [|by apply Hacc]. unfold credit.
        by rewrite (Hacc r0 eq_refl).
      * rewrite Hsc, Hzero by done.
        destruct ev as [h' d|h'|h' pts|tid]; try done.
        by destruct (routed st0 h').
    + intros Hnone.
      destruct (heap st0 !! ref) as [r0|] eqn:Hr0.
      * destruct (part_step_heap_grows _ _ _ _ ref Ha) as [r1 Hr1]; [by eauto|].
        congruence.
      * rewrite Hzero by done.
        destruct ev as [h' d|h'|h' pts|tid]; try done.
        by destruct (routed st0 h').
Qed.

End Part.
End LedgerFacts.

(** ** One registered room per socket when every socket identifies once *)
Module LoneFacts.
Import Js JsFacts.

Section Server.
Import ServerJs ServerSpec ServerFacts.
#[local] Arguments generateDeck : simpl never.
Variable random : nat → Z.

Lemma origin_same st st' ev :
  heap st' = heap st →
  (∀ rid ref, rooms st' !! rid = Some ref → rooms st !! rid = Some ref) →
  ∀ rid ref r', rooms st' !! rid = Some ref → heap st' !! ref = Some r' →
                origin st ev rid ref r'.
Proof.
  intros Hh Hr rid ref r' Hrid Href. left. exists r'.
  rewrite <- Hh. eauto.
Qed.

Lemma nextRound_origin st ev rid0 ref0 st' out :
  nextRound random rid0 ref0 st = Ok (st', out) →
  ∀ rid ref r', rooms st' !! rid = Some ref → heap st' !! ref = Some r' →
                origin st ev rid ref r'.
Proof.
  unfold nextRound. intros H. inv_ok. case_bool_decide; inv_ok; subst.
  - apply origin_same; [done|]. simpl. intros rid ref.
    by intros [_ ?]%lookup_delete_Some.
  - simpl. intros rid ref r' Hrid Href. left.
    pose proof (lookup_lt_Some _ _ _ Ha) as Hlt.
    destruct (decide (ref0 = ref)) as [->|Hne].
    + rewrite list_lookup_insert_eq in Href by done.
      injection Href as <-. by exists a.
    + rewrite list_lookup_insert_ne in Href by done. by exists r'.
Qed.

Lemma step_origin st ev st' out :
  wf st → step random st ev = Ok (st', out) →
  ∀ rid ref r', rooms st' !! rid = Some ref → heap st' !! ref = Some r' →
                origin st ev rid ref r'.
Proof.
  intros Hwf. destruct ev as [h [d|]|h|h pts|tid]; simpl; [|done|..].
  - unfold matchmake.
    change (queue (set_user h {| data := d; score := of_Z 0 |} st))
      with (queue st).
    destruct (pop (queue st)) as [[opp rest]|] eqn:Hpop.
    + destruct (generateDeck random 15 _) as [dk c].
      intros H. inv_ok. subst. simpl. intros rid ref r'.
      rewrite lookup_insert. case_decide as Hrid.
      * intros [= <-]. rewrite lookup_app_r, Nat.sub_diag by done.
        intros [= <-]. right. by exists h, (Some d), opp, rest.
      * intros Hr Hh. left. exists r'.
        destruct (wf_rooms _ Hwf _ _ Hr) as [r0 Hr0].
        rewrite (lookup_app_l_Some _ _ _ _ Hr0) in Hh. by simplify_eq.
    + intros [= <- <-]. by apply origin_same.
  - unfold on_disconnect. repeat case_match; intros [= <- <-];
      apply origin_same; try done.
    simpl. intros rid ref. by intros [_ ?]%lookup_delete_Some.
  - unfold on_submit_score. repeat case_match; intros Hok; inv_ok; subst;
      by apply origin_same.
  - destruct (timers st !! tid) as [t|];
      [|intros [= <- <-]; by apply origin_same].
    destruct (run t) as [rid0|rid0 ref0|rid0 ref0]; simpl.
    + unfold startGameLoop. simpl. destruct (rooms st !! rid0).
      * intros Hn. by apply (nextRound_origin _ _ _ _ _ _ Hn).
      * intros [= <- <-]. by apply origin_same.
    + destruct (rooms st !! rid0); intros [= <- <-]; by apply origin_same.
    + destruct (rooms st !! rid0).
      * intros Hn. by apply (nextRound_origin _ _ _ _ _ _ Hn).
      * intros [= <- <-]. by apply origin_same.
Qed.

Lemma step_participant st ev st' out h rid :
  wf st → step random st ev = Ok (st', out) → participant st' h rid →
  participant st h rid
  ∨ (∃ hn d opp rest,
       ev = Identify hn d ∧ pop (queue st) = Some (opp, rest) ∧
       rid = ("room_" +:+ opp +:+ "_" +:+ hn)%string ∧ (h = opp ∨ h = hn)).
Proof.
  intros Hwf Hs (ref & r' & Hrid & Href & Hp).
  destruct (step_origin _ _ _ _ Hwf Hs _ _ _ Hrid Href)
    as [(r & Hr1 & Hr2 & Hp1 & Hp2)|(hn & d & opp & rest & -> & Hpop & -> & Hp1 & Hp2)].
  - left. exists ref, r. rewrite <- Hp1, <- Hp2. done.
  - right. exists hn, d, opp, rest. split_and!; try done.
    destruct Hp; [left|right]; congruence.
Qed.

Lemma step_queue st ev st' out :
  step random st ev = Ok (st', out) →
  queue st'
  = match ev with
    | Identify hn _ =>
        match pop (queue st) with
        | Some (_, rest) => rest
        | None => queue st ++ [hn]
        end
    | Disconnect h => remove_first h (queue st)
    | _ => queue st
    end.
Proof.
  destruct ev as [h [d|]|h|h pts|tid]; simpl; [|done|..].
  - unfold matchmake.
    change (queue (set_user h {| data := d; score := of_Z 0 |} st))
      with (queue st).
    destruct (pop (queue st)) as [[opp rest]|] eqn:Hpop.
    + destruct (generateDeck random 15 _) as [dk c].
      intros H. inv_ok. by subst.
    + by intros [= <- <-].
  - unfold on_disconnect. repeat case_match; by intros [= <- <-].
  - unfold on_submit_score. repeat case_match; intros Hok; inv_ok; by subst.
  - destruct (timers st !! tid) as [t|]; [|by intros [= <- <-]].
    assert (∀ s s' o rid ref, nextRound random rid ref s = Ok (s', o) →
              queue s' = queue s) as Hnext.
    { intros s s' o rid ref. unfold nextRound. intros H. inv_ok.
      case_bool_decide; inv_ok; by subst. }
    destruct (run t) as [rid0|rid0 ref0|rid0 ref0]; simpl.
    + unfold startGameLoop. simpl. destruct (rooms st !! rid0).
      * intros Hn. by rewrite (Hnext _ _ _ _ _ Hn).
      * by intros [= <- <-].
    + destruct (rooms st !! rid0); by intros [= <- <-].
    + destruct (rooms st !! rid0).
      * intros Hn. by rewrite (Hnext _ _ _ _ _ Hn).
      * by intros [= <- <-].
Qed.

Lemma enrolled_spec st h :
  enrolled st h = true ↔ ∃ rid, participant st h rid.
Proof.
  unfold enrolled, participant. rewrite existsb_exists. split.
  - intros ([rid ref] & Hin & Hb). simpl in Hb.
    apply list_elem_of_In, elem_of_map_to_list in Hin.
    destruct (heap st !! ref) as [r|] eqn:Hr; [|done].
    exists rid, ref, r. split; [done|]. split; [done|].
    apply orb_prop in Hb as [Hb|Hb]; apply bool_decide_eq_true in Hb; eauto.
  - intros (rid & ref & r & Hrid & Hr & Hp). exists (rid, ref). split.
    + by apply list_elem_of_In, elem_of_map_to_list.
    + simpl. rewrite Hr. apply orb_true_intro.
      destruct Hp; [left|right]; by apply bool_decide_eq_true.
Qed.

Lemma lone_step st ev st' out :
  wf st → lone st →
  (∀ hn d rid, ev = Identify hn d → ¬ participant st hn rid) →
  step random st ev = Ok (st', out) → lone st'.
Proof.
  intros Hwf [Hq Hr] Hnew Hs.
  pose proof (step_queue _ _ _ _ Hs) as Hqueue.
  assert (∀ x, x ∈ queue st' →
               x ∈ queue st ∨ ∃ d, ev = Identify x d ∧ pop (queue st) = None)
    as Hq'.
  { intros x. rewrite Hqueue. destruct ev as [hn d|h0|h0 pts|tid]; eauto.
    - destruct (pop (queue st)) as [[opp rest]|] eqn:Hpop.
      + rewrite (pop_Some _ _ _ Hpop), elem_of_app. eauto.
      + rewrite elem_of_app, list_elem_of_singleton. intros [?| ->]; eauto.
    - intros ?%elem_of_remove_first. eauto. }
  assert (∀ hn d opp rest, ev = Identify hn d →
            pop (queue st) = Some (opp, rest) →
            queue st' = [] ∧ opp ∈ queue st) as Hpair.
  { intros hn d opp rest -> Hpop. rewrite Hqueue, Hpop.
    pose proof (pop_Some _ _ _ Hpop) as Hxs.
    pose proof (wf_queue_len _ Hwf) as Hlen.
    rewrite Hxs, length_app in Hlen. simpl in Hlen.
    assert (opp ∈ queue st)
      by (rewrite Hxs, elem_of_app, list_elem_of_singleton; by right).
    split; [|done]. destruct rest; [done|simpl in Hlen; lia]. }
  split.
  - intros h rid Hin Hp.
    destruct (step_participant _ _ _ _ _ _ Hwf Hs Hp)
      as [Hold|(hn & d & opp & rest & Hev & Hpop & _ & Hh)].
    + destruct (Hq' _ Hin) as [Hx|(d & Hev & _)].
      * by eapply Hq.
      * by eapply Hnew.
    + destruct (Hpair _ _ _ _ Hev Hpop) as [Hnil _].
      rewrite Hnil in Hin. by apply elem_of_nil in Hin.
  - intros h rid1 rid2 Hp1 Hp2.
    destruct (step_participant _ _ _ _ _ _ Hwf Hs Hp1)
      as [Hold1|(hn & d & opp & rest & Hev & Hpop & Hrid1 & Hh1)];
    destruct (step_participant _ _ _ _ _ _ Hwf Hs Hp2)
      as [Hold2|(hn' & d' & opp' & rest' & Hev' & Hpop' & Hrid2 & Hh2)].
    + by eapply Hr.
    + destruct (Hpair _ _ _ _ Hev' Hpop') as [_ Hoq].
      destruct Hh2 as [->| ->]; [by destruct (Hq _ _ Hoq Hold1)|].
      by destruct (Hnew _ _ _ Hev' Hold1).
    + destruct (Hpair _ _ _ _ Hev Hpop) as [_ Hoq].
      destruct Hh1 as [->| ->]; [by destruct (Hq _ _ Hoq Hold2)|].
      by destruct (Hnew _ _ _ Hev Hold2).
    + subst ev. simplify_eq. done.
Qed.

Lemma lone_init : lone init.
Proof.
  split.
  - by intros h rid ?%elem_of_nil.
  - intros h rid1 rid2 (ref & r & Hr & _). simpl in Hr.
    by rewrite lookup_empty in Hr.
Qed.

Lemma lone_exec evs : ∀ st0 st out,
  wf st0 → lone st0 → outsiders_only random st0 evs = true →
  exec random st0 evs = Ok (st, out) → lone st.
Proof.
  induction evs as [|ev evs IH]; intros st0 st out Hwf Hl Hout; simpl.
  - by intros [= <- <-].
  - intros H. inv_ok. destruct a as [st1 out1]. inv_ok.
    destruct a as [st2 out2]. inv_ok. subst.
    simpl in Hout. rewrite Ha in Hout. apply andb_prop in Hout as [Hev Hout].
    eapply IH; [by eapply wf_step| |done|done].
    eapply lone_step; [done|done| |done].
    intros hn d rid -> Hp. apply negb_true_iff in Hev.
    assert (enrolled st0 hn = true) by (apply enrolled_spec; eauto).
    congruence.
Qed.

End Server.

Section Part.
Import Part000 PartSpec PartFacts.
#[local] Arguments generateDeck : simpl never.
Variable random : nat → Z.

Lemma part_origin_same st st' ev :
  heap st' = heap st →
  (∀ rid ref, rooms st' !! rid = Some ref → rooms st !! rid = Some ref) →
  ∀ rid ref r', rooms st' !! rid = Some ref → heap st' !! ref = Some r' →
                part_origin st ev rid ref r'.
Proof.
  intros Hh Hr rid ref r' Hrid Href. left. exists r'.
  rewrite <- Hh. eauto.
Qed.

Lemma part_origin_update st st' ev ref0 r0 r0' :
  heap st !! ref0 = Some r0 → p1 r0' = p1 r0 → p2 r0' = p2 r0 →
  heap st' = <[ref0 := r0']> (heap st) →
  (∀ rid ref, rooms st' !! rid = Some ref → rooms st !! rid = Some ref) →
  ∀ rid ref r', rooms st' !! rid = Some ref → heap st' !! ref = Some r' →
                part_origin st ev rid ref r'.
Proof.
  intros H0 Hp1 Hp2 Hh Hr rid ref r' Hrid Href. left.
  pose proof (lookup_lt_Some _ _ _ H0) as Hlt. rewrite Hh in Href.
  destruct (decide (ref0 = ref)) as [->|Hne].
  - rewrite list_lookup_insert_eq in Href by done.
    injection Href as <-. exists r0. eauto.
  - rewrite list_lookup_insert_ne in Href by done. exists r'. eauto.
Qed.

Lemma part_step_origin st ev st' out :
  wf st → step random st ev = Ok (st', out) →
  ∀ rid ref r', rooms st' !! rid = Some ref → heap st' !! ref = Some r' →
                part_origin st ev rid ref r'.
Proof.
  intros Hwf. destruct ev as [h [d|]|h|h pts|tid]; simpl; [|done|..].
  - unfold findMatch.
    change (waitingPlayer (set_user h d st)) with (waitingPlayer st).
    destruct (waitingPlayer st) as [opp|] eqn:Hw.
    + destruct (generateDeck random 15 _) as [dk c].
      intros H. inv_ok. subst. simpl. intros rid ref r'.
      rewrite lookup_insert. case_decide as Hrid.
      * intros [= <-]. rewrite lookup_app_r, Nat.sub_diag by done.
        intros [= <-]. right. by exists h, (Some d), opp.
      * intros Hr Hh. left. exists r'.
        destruct (pwf_rooms _ Hwf _ _ Hr) as [r0 Hr0].
        rewrite (lookup_app_l_Some _ _ _ _ Hr0) in Hh. by simplify_eq.
    + intros [= <- <-]. by apply part_origin_same.
  - unfold on_disconnect, handleDisconnect.
    repeat case_match; intros Hok; inv_ok; subst; apply part_origin_same;
      simpl; rewrite ?PartRoundFacts.heap_clearInterval,
               ?QuietFacts.rooms_clearInterval; try done.
    all: simpl; intros rid ref; by intros [_ ?]%lookup_delete_Some.
  - unfold on_submit_score.
    destruct (roomId (sock st h)) as [rid0|];
      [|intros [= <- <-]; by apply part_origin_same].
    destruct (rooms st !! rid0) as [ref0|];
      [|intros [= <- <-]; by apply part_origin_same].
    intros Hok. inv_ok. subst.
    eapply part_origin_update; [exact Ha| | |reflexivity|done]; done.
  - destruct (timers st !! tid) as [t|];
      [|intros [= <- <-]; by apply part_origin_same].
    destruct (run t) as [rid0|rid0 ref0 tl].
    + unfold startRound. simpl.
      destruct (rooms st !! rid0) as [ref0|] eqn:Hr0;
        [|intros [= <- <-]; by apply part_origin_same].
      intros Hrun. inv_ok. case_bool_decide.
      * revert Hrun. unfold endGame. simpl. rewrite Hr0. intros Hrun.
        inv_ok. subst. apply part_origin_same; [done|].
        simpl. intros rid ref. by intros [_ ?]%lookup_delete_Some.
      * inv_ok. subst.
        eapply part_origin_update; [exact Ha| | |reflexivity|done]; done.
    + unfold tick. case_bool_decide;
        [|intros [= <- <-]; by apply part_origin_same].
      intros Hrun. inv_ok. revert Hrun. unfold revealRound.
      rewrite QuietFacts.rooms_clearInterval. simpl.
      case_match; intros [= <- <-]; apply part_origin_same; simpl;
        by rewrite ?PartRoundFacts.heap_clearInterval,
             ?QuietFacts.rooms_clearInterval.
Qed.

Lemma part_step_participant st ev st' out h rid :
  wf st → step random st ev = Ok (st', out) → participant st' h rid →
  participant st h rid
  ∨ (∃ hn d opp,
       ev = Identify hn d ∧ waitingPlayer st = Some opp ∧
       rid = ("room_" +:+ opp +:+ "_" +:+ hn)%string ∧ (h = opp ∨ h = hn)).
Proof.
  intros Hwf Hs (ref & r' & Hrid & Href & Hp).
  destruct (part_step_origin _ _ _ _ Hwf Hs _ _ _ Hrid Href)
    as [(r & Hr1 & Hr2 & Hp1 & Hp2)|(hn & d & opp & -> & Hw & -> & Hp1 & Hp2)].
  - left. exists ref, r. rewrite <- Hp1, <- Hp2. done.
  - right. exists hn, d, opp. split_and!; try done.
    destruct Hp; [left|right]; congruence.
Qed.

Lemma step_waiting st ev st' out :
  step random st ev = Ok (st', out) →
  waitingPlayer st'
  = match ev with
    | Identify hn _ =>
        match waitingPlayer st with
        | Some _ => None
        | None => Some hn
        end
    | Disconnect h =>
        if bool_decide (waitingPlayer st = Some h) then None
        else waitingPlayer st
    | _ => waitingPlayer st
    end.
Proof.
  assert (∀ t s, waitingPlayer (clearInterval t s) = waitingPlayer s) as Hci.
  { intros t s. by destruct t. }
  destruct ev as [h [d|]|h|h pts|tid]; simpl; [|done|..].
  - unfold findMatch.
    change (waitingPlayer (set_user h d st)) with (waitingPlayer st).
    destruct (waitingPlayer st) as [opp|] eqn:Hw.
    + destruct (generateDeck random 15 _) as [dk c].
      intros H. inv_ok. by subst.
    + by intros [= <- <-].
  - unfold on_disconnect, handleDisconnect. simpl.
    case_bool_decide; repeat case_match; intros Hok; inv_ok; subst; simpl;
      by rewrite ?Hci.
  - unfold on_submit_score. repeat case_match; intros Hok; inv_ok; by subst.
  - destruct (timers st !! tid) as [t|]; [|by intros [= <- <-]].
    destruct (run t) as [rid0|rid0 ref0 tl].
    + unfold startRound. simpl.
      destruct (rooms st !! rid0) as [ref0|] eqn:Hr0; [|by intros [= <- <-]].
      intros Hrun. inv_ok. case_bool_decide.
      * revert Hrun. unfold endGame. simpl. rewrite Hr0. intros Hrun.
        inv_ok. by subst.
      * inv_ok. by subst.
    + unfold tick. case_bool_decide; [|by intros [= <- <-]].
      intros Hrun. inv_ok. revert Hrun. unfold revealRound.
      case_match; intros [= <- <-]; simpl; by rewrite Hci.
Qed.

Lemma part_enrolled_spec st h :
  enrolled st h = true ↔ ∃ rid, participant st h rid.
Proof.
  unfold enrolled, participant. rewrite existsb_exists. split.
  - intros ([rid ref] & Hin & Hb). simpl in Hb.
    apply list_elem_of_In, elem_of_map_to_list in Hin.
    destruct (heap st !! ref) as [r|] eqn:Hr; [|done].
    exists rid, ref, r. split; [done|]. split; [done|].
    apply orb_prop in Hb as [Hb|Hb]; apply bool_decide_eq_true in Hb; eauto.
  - intros (rid & ref & r & Hrid & Hr & Hp). exists (rid, ref). split.
    + by apply list_elem_of_In, elem_of_map_to_list.
    + simpl. rewrite Hr. apply orb_true_intro.
      destruct Hp; [left|right]; by apply bool_decide_eq_true.
Qed.

Lemma part_lone_step st ev st' out :
  wf st → lone st →
  (∀ hn d rid, ev = Identify hn d → ¬ participant st hn rid) →
  step random st ev = Ok (st', out) → lone st'.
Proof.
  intros Hwf [Hq Hr] Hnew Hs.
  pose proof (step_waiting _ _ _ _ Hs) as Hwait.
  assert (∀ x, waitingPlayer st' = Some x →
               waitingPlayer st = Some x
               ∨ ∃ d, ev = Identify x d ∧ waitingPlayer st = None) as Hq'.
  { intros x. rewrite Hwait. destruct ev as [hn d|h0|h0 pts|tid]; eauto.
    - destruct (waitingPlayer st); [done|]. intros [= ->]. eauto.
    - case_bool_decide; [done|eauto]. }
  assert (∀ hn d opp, ev = Identify hn d → waitingPlayer st = Some opp →
            waitingPlayer st' = None) as Hpair.
  { intros hn d opp -> Hw. by rewrite Hwait, Hw. }
  split.
  - intros h rid Hin Hp.
    destruct (part_step_participant _ _ _ _ _ _ Hwf Hs Hp)
      as [Hold|(hn & d & opp & Hev & Hw & _ & Hh)].
    + destruct (Hq' _ Hin) as [Hx|(d & Hev & _)].
      * by eapply Hq.
      * by eapply Hnew.
    + rewrite (Hpair _ _ _ Hev Hw) in Hin. done.
  - intros h rid1 rid2 Hp1 Hp2.
    destruct (part_step_participant _ _ _ _ _ _ Hwf Hs Hp1)
      as [Hold1|(hn & d & opp & Hev & Hw & Hrid1 & Hh1)];
    destruct (part_step_participant _ _ _ _ _ _ Hwf Hs Hp2)
      as [Hold2|(hn' & d' & opp' & Hev' & Hw' & Hrid2 & Hh2)].
    + by eapply Hr.
    + destruct Hh2 as [->| ->]; [by destruct (Hq _ _ Hw' Hold1)|].
      by destruct (Hnew _ _ _ Hev' Hold1).
    + destruct Hh1 as [->| ->]; [by destruct (Hq _ _ Hw Hold2)|].
      by destruct (Hnew _ _ _ Hev Hold2).
    + subst ev. simplify_eq. done.
Qed.

Lemma part_lone_init : lone init.
Proof.
  split.
  - by intros h rid.
  - intros h rid1 rid2 (ref & r & Hr & _). simpl in Hr.
    by rewrite lookup_empty in Hr.
Qed.

Lemma part_lone_exec evs : ∀ st0 st out,
  wf st0 → lone st0 → outsiders_only random st0 evs = true →
  exec random st0 evs = Ok (st, out) → lone st.
Proof.
  induction evs as [|ev evs IH]; intros st0 st out Hwf Hl Hout; simpl.
  - by intros [= <- <-].
  - intros H. inv_ok. destruct a as [st1 out1]. inv_ok.
    destruct a as [st2 out2]. inv_ok. subst.
    simpl in Hout. rewrite Ha in Hout. apply andb_prop in Hout as [Hev Hout].
    eapply IH; [by eapply part_wf_step| |done|done].
    eapply part_lone_step; [done|done| |done].
    intros hn d rid -> Hp. apply negb_true_iff in Hev.
    assert (enrolled st0 hn = true) by (apply part_enrolled_spec; eauto).
    congruence.
Qed.

End Part.
End LoneFacts.

(** ** Case analysis of a step *)
Module CaseTactics.
Import Js JsFacts.

(** Splits a step of [src/server.js] that returned into the paths of its
    handler, with the resulting state and emissions written out. *)
Ltac server_cases random :=
  let Hok := fresh "Hok" in
  match goal with
  | |- ServerJs.step random ?st ?ev = Ok _ → _ =>
      destruct ev as [?h [?d|]|?h|?h ?pts|?tid]; simpl;
      [ unfold ServerJs.matchmake;
        match goal with
        | |- context [pop (ServerJs.queue (ServerJs.set_user ?h ?u st))] =>
            change (ServerJs.queue (ServerJs.set_user h u st))
              with (ServerJs.queue st)
        end;
        destruct (pop (ServerJs.queue st)) as [[?opp ?rest]|] eqn:?Hpop;
        [ destruct (ServerJs.generateDeck random 15 _) as [?dk ?c] eqn:?Hdk;
          intros Hok; ServerFacts.inv_ok; subst
        | intros Hok; ServerFacts.inv_ok; subst ]
      | intros Hok; discriminate Hok
      | unfold ServerJs.on_disconnect;
        destruct (ServerJs.roomId _) as [?rid|] eqn:?Hrid;
        [ destruct (ServerJs.rooms _ !! _) as [?ref|] eqn:?Href |];
        intros Hok; ServerFacts.inv_ok; subst
      | unfold ServerJs.on_submit_score;
        destruct (ServerJs.roomId _) as [?rid|] eqn:?Hrid;
        [ destruct (ServerJs.rooms _ !! _) as [?ref|] eqn:?Href |];
        intros Hok; ServerFacts.inv_ok; subst
      | destruct (ServerJs.timers st !! _) as [?t|] eqn:?Ht;
        [ destruct (ServerJs.run _) as [?rid|?rid ?ref|?rid ?ref] eqn:?Hrun;
          simpl; unfold ServerJs.startGameLoop; simpl;
          (destruct (ServerJs.rooms st !! _) as [?ref'|] eqn:?Href;
           [ unfold ServerJs.nextRound; intros Hok; ServerFacts.inv_ok;
             try case_bool_decide; ServerFacts.inv_ok; subst
           | intros Hok; ServerFacts.inv_ok; subst ])
        | intros Hok; ServerFacts.inv_ok; subst ] ]
  end.

(** The same for a step of [src/unnamed/part_000]. *)
Ltac part_cases random :=
  let Hok := fresh "Hok" in
  match goal with
  | |- Part000.step random ?st ?ev = Ok _ → _ =>
      destruct ev as [?h [?d|]|?h|?h ?pts|?tid]; simpl;
      [ unfold Part000.findMatch;
        match goal with
        | |- context [Part000.waitingPlayer (Part000.set_user ?h ?u st)] =>
            change (Part000.waitingPlayer (Part000.set_user h u st))
              with (Part000.waitingPlayer st)
        end;
        destruct (Part000.waitingPlayer st) as [?opp|] eqn:?Hwait;
        [ destruct (Part000.generateDeck random 15 _) as [?dk ?c] eqn:?Hdk;
          intros Hok; PartFacts.inv_ok; subst
        | intros Hok; PartFacts.inv_ok; subst ]
      | intros Hok; discriminate Hok
      | unfold Part000.on_disconnect, Part000.handleDisconnect;
        case_bool_decide;
        (destruct (Part000.roomId _) as [?rid|] eqn:?Hrid;
         [ destruct (Part000.rooms _ !! _) as [?ref|] eqn:?Href |];
         intros Hok; PartFacts.inv_ok; subst;
         try match goal with
             | |- context [Part000.clearInterval (Part000.timer ?a)] =>
                 destruct (Part000.timer a) eqn:?Htimer
             end)
      | unfold Part000.on_submit_score;
        destruct (Part000.roomId _) as [?rid|] eqn:?Hrid;
        [ destruct (Part000.rooms _ !! _) as [?ref|] eqn:?Href |];
        intros Hok; PartFacts.inv_ok; subst
      | destruct (Part000.timers st !! _) as [?t|] eqn:?Ht;
        [ destruct (Part000.run _) as [?rid|?rid ?ref ?tl] eqn:?Hrun;
          [ unfold Part000.startRound; simpl;
            destruct (Part000.rooms st !! _) as [?ref'|] eqn:?Href;
            [ intros Hok; PartFacts.inv_ok; case_bool_decide;
              [ revert Hok; unfold Part000.endGame; simpl;
                match goal with H : Part000.rooms st !! _ = Some _ |- _ =>
                  rewrite H end;
                intros Hok; PartFacts.inv_ok; subst
              | PartFacts.inv_ok; subst ]
            | intros Hok; PartFacts.inv_ok; subst ]
          | unfold Part000.tick; case_bool_decide;
            [ intros Hok; PartFacts.inv_ok; revert Hok;
              unfold Part000.revealRound;
              match goal with
              | |- context [Part000.clearInterval (Part000.timer ?a)] =>
                  destruct (Part000.timer a) eqn:?Htimer
              end; simpl;
              destruct (Part000.rooms st !! _) as [?ref'|] eqn:?Href;
              intros Hok; PartFacts.inv_ok; subst
            | intros Hok; PartFacts.inv_ok; subst ] ]
        | intros Hok; PartFacts.inv_ok; subst ] ]
  end.

End CaseTactics.
Module StoreFacts.
Import Js JsFacts CaseTactics.

Section Server.
Import ServerJs ServerSpec ServerInv ServerFacts.
#[local] Arguments generateDeck : simpl never.
Variable random : nat → Z.

Lemma same_static_refl r : same_static r r.
Proof. by repeat split. Qed.

Lemma insert_static (l : list room) i a a' ref r :
  l !! i = Some a → same_static a a' → l !! ref = Some r →
  ∃ r', <[i := a']> l !! ref = Some r' ∧ same_static r r'.
Proof.
  intros Ha Hs Hr. pose proof (lookup_lt_Some _ _ _ Ha) as Hlt.
  destruct (decide (i = ref)) as [->|Hne].
  - rewrite list_lookup_insert_eq by done. exists a'. split; [done|].
    by simplify_eq.
  - rewrite list_lookup_insert_ne by done. exists r.
    split; [done|apply same_static_refl].
Qed.

Lemma step_static st ev st' out ref r :
  step random st ev = Ok (st', out) → heap st !! ref = Some r →
  ∃ r', heap st' !! ref = Some r' ∧ same_static r r'.
Proof.
  intros Hs Hr. revert Hs. server_cases random; simpl.
  all: try (exists r; split; [done|apply same_static_refl]).
  - exists r. split; [by apply lookup_app_l_Some|apply same_static_refl].
  - eapply insert_static; [exact Ha| |done]. by repeat split.
  - eapply insert_static; [exact Ha| |done]. by repeat split.
Qed.

Lemma step_new_room st ev st' out ref r' :
  step random st ev = Ok (st', out) → heap st' !! ref = Some r' →
  heap st !! ref = None →
  ∃ opp hn, pairs st ev opp hn ∧ ref = length (heap st) ∧
            r' = paired_room random st opp hn.
Proof.
  intros Hs Hr' Hnone. revert Hs Hr'. server_cases random; simpl.
  all: try (intros Hr'; congruence).
  - intros [Hr'|[_ Hr']]%lookup_app_Some; [congruence|].
    apply list_lookup_singleton_Some in Hr' as [Hi <-].
    exists opp, h. split; [by exists (Some d), rest|].
    apply lookup_ge_None in Hnone. split; [lia|].
    unfold paired_room. simpl in Hdk. by rewrite Hdk.
  - intros Hr'. apply lookup_lt_Some in Hr'. rewrite length_insert in Hr'.
    apply lookup_ge_None in Hnone. lia.
  - intros Hr'. apply lookup_lt_Some in Hr'. rewrite length_insert in Hr'.
    apply lookup_ge_None in Hnone. lia.
Qed.

Lemma step_registry st ev st' out rid ref :
  step random st ev = Ok (st', out) → rooms st' !! rid = Some ref →
  rooms st !! rid = Some ref
  ∨ ∃ opp hn, pairs st ev opp hn ∧ ref = length (heap st) ∧
              rid = ("room_" +:+ opp +:+ "_" +:+ hn)%string ∧
              heap st' !! ref = Some (paired_room random st opp hn).
Proof.
  intros Hs. revert Hs. server_cases random; simpl.
  all: try (intros Hr; by left).
  all: try (intros [_ Hr]%lookup_delete_Some; by left).
  rewrite lookup_insert. case_decide as Hrid'.
  - intros [= <-]. right. exists opp, h. split; [by exists (Some d), rest|].
    split; [done|]. split; [done|].
    rewrite lookup_app_r, Nat.sub_diag by done. simpl.
    unfold paired_room. simpl in Hdk. by rewrite Hdk.
  - intros Hr. by left.
Qed.

Lemma step_roomId st ev st' out h rid :
  step random st ev = Ok (st', out) → roomId (sock st' h) = Some rid →
  roomId (sock st h) = Some rid
  ∨ ∃ opp hn, pairs st ev opp hn ∧
              rid = ("room_" +:+ opp +:+ "_" +:+ hn)%string ∧
              (h = opp ∨ h = hn).
Proof.
  intros Hs. revert Hs. server_cases random; simpl;
    autorewrite with sockdb.
  all: try (intros Hr; by left).
  repeat case_decide; subst; try (intros Hr; by left).
  all: intros [= <-]; right; eexists _, _; (split; [by eexists _, _|]);
    split; [done|]; eauto.
Qed.

Lemma step_pairs st ev st' out opp hn :
  step random st ev = Ok (st', out) → pairs st ev opp hn →
  heap st' !! length (heap st) = Some (paired_room random st opp hn) ∧
  rooms st' !! ("room_" +:+ opp +:+ "_" +:+ hn)%string
  = Some (length (heap st)).
Proof.
  intros Hs ([d|] & rest & -> & Hpop); [|done]. revert Hs. simpl.
  unfold matchmake.
  change (queue (set_user hn {| data := d; score := of_Z 0 |} st))
    with (queue st).
  rewrite Hpop. destruct (generateDeck random 15 _) as [dk c] eqn:Hdk.
  intros Hok. inv_ok. subst. simpl. split.
  - rewrite lookup_app_r, Nat.sub_diag by done. simpl.
    unfold paired_room. simpl in Hdk. by rewrite Hdk.
  - apply lookup_insert_eq.
Qed.

Lemma heap_after st ev st' out ref r' :
  step random st ev = Ok (st', out) → heap st' !! ref = Some r' →
  (∃ r, heap st !! ref = Some r ∧ same_static r r')
  ∨ (∃ opp hn, pairs st ev opp hn ∧ ref = length (heap st) ∧
               r' = paired_room random st opp hn).
Proof.
  intros Hs Hr'. destruct (heap st !! ref) as [r|] eqn:Hr.
  - left. exists r. split; [done|].
    destruct (step_static _ _ _ _ _ _ Hs Hr) as (r'' & Hr'' & Hst).
    by simplify_eq.
  - right. by eapply step_new_room.
Qed.

Lemma sound_init : sound init.
Proof.
  split; simpl.
  - intros ref r. by rewrite lookup_nil.
  - intros rid ref r. by rewrite lookup_empty.
  - intros h rid. unfold sock. simpl. by rewrite lookup_empty.
Qed.

Lemma sound_step st ev st' out :
  wf st → sound st → step random st ev = Ok (st', out) → sound st'.
Proof.
  intros Hwf [Hn Hk Hr] Hs. split.
  - intros ref r' Hr'.
    destruct (heap_after _ _ _ _ _ _ Hs Hr')
      as [(r & Hr0 & Hid & Hp1 & Hp2 & _ & Hph & _)|(opp & hn & _ & _ & ->)].
    + destruct (Hn _ _ Hr0). split; congruence.
    + done.
  - intros rid ref r' Hrid Hr'.
    destruct (step_registry _ _ _ _ _ _ Hs Hrid)
      as [Hold|(opp & hn & _ & _ & -> & Hnew)].
    + destruct (wf_rooms _ Hwf _ _ Hold) as [r Hr0].
      destruct (step_static _ _ _ _ _ _ Hs Hr0) as (r'' & Hr'' & Hid & _).
      simplify_eq. rewrite Hid. by eapply Hk.
    + by simplify_eq.
  - intros h rid Hrid.
    destruct (step_roomId _ _ _ _ _ _ Hs Hrid)
      as [Hold|(opp & hn & Hp & -> & Hh)].
    + destruct (Hr _ _ Hold) as (ref & r & Hr0 & Hid & Hp).
      destruct (step_static _ _ _ _ _ _ Hs Hr0)
        as (r' & Hr' & Hid' & Hp1 & Hp2 & _).
      exists ref, r'. split; [done|]. split; [congruence|].
      destruct Hp; [left|right]; congruence.
    + destruct (step_pairs _ _ _ _ _ _ Hs Hp) as [Hnew _].
      eexists _, _. split; [exact Hnew|]. split; [done|]. simpl.
      destruct Hh; [left|right]; done.
Qed.

Lemma sound_exec evs : ∀ st st' out,
  wf st → sound st → exec random st evs = Ok (st', out) → sound st'.
Proof.
  induction evs as [|ev evs IH]; intros st st' out Hwf Hsd; simpl.
  - by intros [= <- <-].
  - intros H. inv_ok. destruct a as [st1 out1]. inv_ok.
    destruct a as [st2 out2]. inv_ok. subst.
    eapply IH; [by eapply wf_step|by eapply sound_step|done].
Qed.

Lemma reachable_sound st : reachable random st → sound st.
Proof.
  intros (evs & out & H). eapply sound_exec; [apply wf_init|apply sound_init|done].
Qed.

Lemma decks_ok_step st ev st' out :
  (∀ i, 0 ≤ random i < 2 ^ 53) →
  decks_ok st → step random st ev = Ok (st', out) → decks_ok st'.
Proof.
  intros Hrandom Hd Hs ref r' Hr'.
  destruct (heap_after _ _ _ _ _ _ Hs Hr')
    as [(r & Hr0 & _ & _ & _ & _ & _ & Hdk)|(opp & hn & _ & _ & ->)].
  - rewrite Hdk. by eapply Hd.
  - unfold paired_room. cbn [deck].
    destruct (generateDeck random 15 (rng st)) as [dk c] eqn:Hdk.
    exact (generateDeck_range random _ _ _ _ Hrandom Hdk).
Qed.

Lemma reachable_decks_ok st :
  (∀ i, 0 ≤ random i < 2 ^ 53) → reachable random st → decks_ok st.
Proof.
  intros Hrandom (evs & out & H). revert H.
  assert (decks_ok init) as Hi by (intros ref r Hr; by destruct ref).
  revert Hi. generalize init. revert st out.
  induction evs as [|ev evs IH]; intros st out st0 Hd; simpl.
  - by intros [= <- <-].
  - intros H. inv_ok. destruct a as [st1 out1]. inv_ok.
    destruct a as [st2 out2]. inv_ok. subst.
    eapply IH; [|done]. by eapply decks_ok_step.
Qed.

End Server.
End StoreFacts.
Module PartStoreFacts.
Import Js JsFacts CaseTactics.
Import Part000 PartSpec PartInv PartFacts.
#[local] Arguments generateDeck : simpl never.

Section Part.
Variable random : nat → Z.

Lemma part_same_static_refl r : same_static r r.
Proof. by repeat split. Qed.

Lemma part_insert_static (l : list room) i a a' ref r :
  l !! i = Some a → same_static a a' → l !! ref = Some r →
  ∃ r', <[i := a']> l !! ref = Some r' ∧ same_static r r'.
Proof.
  intros Ha Hs Hr. pose proof (lookup_lt_Some _ _ _ Ha) as Hlt.
  destruct (decide (i = ref)) as [->|Hne].
  - rewrite list_lookup_insert_eq by done. exists a'. split; [done|].
    by simplify_eq.
  - rewrite list_lookup_insert_ne by done. exists r.
    split; [done|apply part_same_static_refl].
Qed.

Lemma part_step_static st ev st' out ref r :
  step random st ev = Ok (st', out) → heap st !! ref = Some r →
  ∃ r', heap st' !! ref = Some r' ∧ same_static r r'.
Proof.
  intros Hs Hr. revert Hs. part_cases random; simpl.
  all: try (exists r; split; [done|apply part_same_static_refl]).
  - exists r. split; [by apply lookup_app_l_Some|apply part_same_static_refl].
  - eapply part_insert_static; [exact Ha| |done]. by repeat split.
  - eapply part_insert_static; [exact Ha| |done]. by repeat split.
Qed.

Lemma part_step_new_room st ev st' out ref r' :
  step random st ev = Ok (st', out) → heap st' !! ref = Some r' →
  heap st !! ref = None →
  ∃ opp hn, pairs st ev opp hn ∧ ref = length (heap st) ∧
            r' = paired_room random st opp hn.
Proof.
  intros Hs Hr' Hnone. revert Hs Hr'. part_cases random; simpl.
  all: try (intros Hr'; congruence).
  - intros [Hr'|[_ Hr']]%lookup_app_Some; [congruence|].
    apply list_lookup_singleton_Some in Hr' as [Hi <-].
    eexists _, _. split; [by eexists|].
    apply lookup_ge_None in Hnone. split; [lia|].
    unfold paired_room. simpl in Hdk. by rewrite Hdk.
  - intros Hr'. apply lookup_lt_Some in Hr'. rewrite length_insert in Hr'.
    apply lookup_ge_None in Hnone. lia.
  - intros Hr'. apply lookup_lt_Some in Hr'. rewrite length_insert in Hr'.
    apply lookup_ge_None in Hnone. lia.
Qed.

Lemma part_step_registry st ev st' out rid ref :
  step random st ev = Ok (st', out) → rooms st' !! rid = Some ref →
  rooms st !! rid = Some ref
  ∨ ∃ opp hn, pairs st ev opp hn ∧ ref = length (heap st) ∧
              rid = ("room_" +:+ opp +:+ "_" +:+ hn)%string ∧
              heap st' !! ref = Some (paired_room random st opp hn).
Proof.
  intros Hs. revert Hs. part_cases random; simpl.
  all: try (intros Hr; by left).
  all: try (intros [_ Hr]%lookup_delete_Some; by left).
  rewrite lookup_insert. case_decide as Hrid'.
  - intros [= <-]. right. eexists _, _. split; [by eexists|].
    split; [done|]. split; [done|].
    rewrite lookup_app_r, Nat.sub_diag by done. simpl.
    unfold paired_room. simpl in Hdk. by rewrite Hdk.
  - intros Hr. by left.
Qed.

Lemma part_step_roomId st ev st' out h rid :
  step random st ev = Ok (st', out) → roomId (sock st' h) = Some rid →
  roomId (sock st h) = Some rid
  ∨ ∃ opp hn, pairs st ev opp hn ∧
              rid = ("room_" +:+ opp +:+ "_" +:+ hn)%string ∧
              (h = opp ∨ h = hn).
Proof.
  intros Hs. revert Hs. part_cases random; simpl;
    autorewrite with partdb.
  all: try (intros Hr; by left).
  repeat case_decide; subst; try (intros Hr; by left).
  all: intros [= <-]; right; eexists _, _; (split; [by eexists|]);
    split; [done|]; eauto.
Qed.

Lemma part_step_pairs st ev st' out opp hn :
  step random st ev = Ok (st', out) → pairs st ev opp hn →
  heap st' !! length (heap st) = Some (paired_room random st opp hn) ∧
  rooms st' !! ("room_" +:+ opp +:+ "_" +:+ hn)%string
  = Some (length (heap st)).
Proof.
  intros Hs ([d|] & -> & Hw); [|done]. revert Hs. simpl.
  unfold findMatch.
  change (waitingPlayer (set_user hn d st)) with (waitingPlayer st).
  rewrite Hw. destruct (generateDeck random 15 _) as [dk c] eqn:Hdk.
  intros Hok. inv_ok. subst. simpl. split.
  - rewrite lookup_app_r, Nat.sub_diag by done. simpl.
    unfold paired_room. simpl in Hdk. by rewrite Hdk.
  - apply lookup_insert_eq.
Qed.

Lemma part_heap_after st ev st' out ref r' :
  step random st ev = Ok (st', out) → heap st' !! ref = Some r' →
  (∃ r, heap st !! ref = Some r ∧ same_static r r')
  ∨ (∃ opp hn, pairs st ev opp hn ∧ ref = length (heap st) ∧
               r' = paired_room random st opp hn).
Proof.
  intros Hs Hr'. destruct (heap st !! ref) as [r|] eqn:Hr.
  - left. exists r. split; [done|].
    destruct (part_step_static _ _ _ _ _ _ Hs Hr) as (r'' & Hr'' & Hst).
    by simplify_eq.
  - right. by eapply part_step_new_room.
Qed.

Lemma part_sound_init : sound init.
Proof.
  split; simpl.
  - intros ref r Hr. by destruct ref.
  - intros rid ref r. by rewrite lookup_empty.
  - intros h rid. unfold sock. simpl. by rewrite lookup_empty.
Qed.

Lemma part_sound_step st ev st' out :
  wf st → sound st → step random st ev = Ok (st', out) → sound st'.
Proof.
  intros Hwf [Hn Hk Hr] Hs. split.
  - intros ref r' Hr'.
    destruct (part_heap_after _ _ _ _ _ _ Hs Hr')
      as [(r & Hr0 & Hid & Hp1 & Hp2 & _)|(opp & hn & _ & _ & ->)].
    + pose proof (Hn _ _ Hr0). congruence.
    + done.
  - intros rid ref r' Hrid Hr'.
    destruct (part_step_registry _ _ _ _ _ _ Hs Hrid)
      as [Hold|(opp & hn & _ & _ & -> & Hnew)].
    + destruct (pwf_rooms _ Hwf _ _ Hold) as [r Hr0].
      destruct (part_step_static _ _ _ _ _ _ Hs Hr0) as (r'' & Hr'' & Hid & _).
      simplify_eq. rewrite Hid. by eapply Hk.
    + by simplify_eq.
  - intros h rid Hrid.
    destruct (part_step_roomId _ _ _ _ _ _ Hs Hrid)
      as [Hold|(opp & hn & Hp & -> & Hh)].
    + destruct (Hr _ _ Hold) as (ref & r & Hr0 & Hid & Hp).
      destruct (part_step_static _ _ _ _ _ _ Hs Hr0)
        as (r' & Hr' & Hid' & Hp1 & Hp2 & _).
      exists ref, r'. split; [done|]. split; [congruence|].
      destruct Hp; [left|right]; congruence.
    + destruct (part_step_pairs _ _ _ _ _ _ Hs Hp) as [Hnew _].
      eexists _, _. split; [exact Hnew|]. split; [done|]. simpl.
      destruct Hh; [left|right]; done.
Qed.

Lemma part_sound_exec evs : ∀ st st' out,
  wf st → sound st → exec random st evs = Ok (st', out) → sound st'.
Proof.
  induction evs as [|ev evs IH]; intros st st' out Hwf Hsd; simpl.
  - by intros [= <- <-].
  - intros H. inv_ok. destruct a as [st1 out1]. inv_ok.
    destruct a as [st2 out2]. inv_ok. subst.
    eapply IH; [by eapply part_wf_step|by eapply part_sound_step|done].
Qed.

Lemma part_reachable_sound st : reachable random st → sound st.
Proof.
  intros (evs & out & H).
  eapply part_sound_exec; [apply part_wf_init|apply part_sound_init|done].
Qed.

Lemma part_decks_ok_step st ev st' out :
  (∀ i, 0 ≤ random i < 2 ^ 53) →
  decks_ok st → step random st ev = Ok (st', out) → decks_ok st'.
Proof.
  intros Hrandom Hd Hs ref r' Hr'.
  destruct (part_heap_after _ _ _ _ _ _ Hs Hr')
    as [(r & Hr0 & _ & _ & _ & _ & Hdk)|(opp & hn & _ & _ & ->)].
  - rewrite Hdk. by eapply Hd.
  - unfold paired_room. cbn [deck].
    destruct (generateDeck random 15 (rng st)) as [dk c] eqn:Hdk.
    exact (part_generateDeck_range random _ _ _ _ Hrandom Hdk).
Qed.

Lemma part_reachable_decks_ok st :
  (∀ i, 0 ≤ random i < 2 ^ 53) → reachable random st → decks_ok st.
Proof.
  intros Hrandom (evs & out & H). revert H.
  assert (decks_ok init) as Hi by (intros ref r Hr; by destruct ref).
  revert Hi. generalize init. revert st out.
  induction evs as [|ev evs IH]; intros st out st0 Hd; simpl.
  - by intros [= <- <-].
  - intros H. inv_ok. destruct a as [st1 out1]. inv_ok.
    destruct a as [st2 out2]. inv_ok. subst.
    eapply IH; [|done]. by eapply part_decks_ok_step.
Qed.

End Part.
End PartStoreFacts.

(** ** What a [round_start] carries *)
Module RoundStartFacts.
Import Js JsFacts CaseTactics.

Section Server.
Import ServerJs ServerSpec ServerInv ServerFacts.
#[local] Arguments generateDeck : simpl never.
Variable random : nat → Z.

Lemma step_round_start st ev st' out e :
  step random st ev = Ok (st', out) → e ∈ out →
  evname e = "round_start"%string →
  ∃ ref r r',
    heap st !! ref = Some r ∧ heap st' !! ref = Some r' ∧
    round r < maxRounds r ∧ round r' = round r + 1 ∧ deck r' = deck r ∧
    payload e
    = Some (JObj [("round", JNum (round r'));
                  ("songIndex", index (deck r') (round r' - 1));
                  ("seekTime",
                   JNum (floor_random_times (random (rng st)) 11 + 40));
                  ("duration", JNum 20)]%string).
Proof.
  intros Hs. revert Hs. server_cases random; simpl.
  all: try by intros ?%elem_of_nil.
  all: intros ->%list_elem_of_singleton; try done; intros _.
  all: pose proof (lookup_lt_Some _ _ _ Ha) as Hlt;
    eexists _, a, _; (split; [exact Ha|]);
    (split; [simpl; by rewrite list_lookup_insert_eq|]);
    split_and!; try done; simpl in *; lia.
Qed.

End Server.

Section Part.
Import Part000 PartSpec PartInv PartFacts.
#[local] Arguments generateDeck : simpl never.
Variable random : nat → Z.

Lemma part_step_round_start st ev st' out e :
  step random st ev = Ok (st', out) → e ∈ out →
  evname e = "round_start"%string →
  ∃ ref r r',
    heap st !! ref = Some r ∧ heap st' !! ref = Some r' ∧
    round r < maxRounds r ∧ round r' = round r + 1 ∧ deck r' = deck r ∧
    payload e
    = Some (JObj [("round", JNum (round r'));
                  ("songIndex", index (deck r') (round r' - 1));
                  ("seekTime",
                   JNum (floor_random_times (random (rng st)) 11 + 40));
                  ("duration", JNum 20)]%string).
Proof.
  intros Hs. revert Hs. part_cases random; simpl.
  all: try by intros ?%elem_of_nil.
  all: intros ->%list_elem_of_singleton; try done; intros _.
  all: pose proof (lookup_lt_Some _ _ _ Ha) as Hlt;
    eexists _, a, _; (split; [exact Ha|]);
    (split; [simpl; by rewrite list_lookup_insert_eq|]);
    split_and!; try done; simpl in *; lia.
Qed.

End Part.
End RoundStartFacts.

(** ** How rooms leave the registry *)
Module FarewellFacts.
Import Js JsFacts CaseTactics.

Section Server.
Import ServerJs ServerSpec ServerFacts.
Variable random : nat → Z.

Lemma step_farewell st ev st' out rid :
  step random st ev = Ok (st', out) →
  (∃ e rs, e ∈ out ∧ dest e = ToRoom rid rs ∧
           (evname e = "opponent_left" ∨ evname e = "game_over")%string)
  ↔ is_Some (rooms st !! rid) ∧ rooms st' !! rid = None.
Proof.
  intros Hs. revert Hs. server_cases random; simpl.
  all: split;
    [ intros (e & rs & He & Hd & Hn) | intros [[ref0 Hsome] Hnone] ].
  all: try by apply elem_of_nil in He.
  all: try (apply list_elem_of_singleton in He; subst e; simpl in *).
  all: try (destruct Hn; discriminate).
  all: try congruence.
  all: try (injection Hd as <- <-; split; [by eexists|apply lookup_delete_eq]).
  all: try (apply lookup_delete_None in Hnone as [<-|?]; [|congruence];
            eexists _, _; split; [apply list_elem_of_singleton; reflexivity|];
            simpl; eauto).
  all: try (apply lookup_insert_None in Hnone as [? ?]; congruence).
Qed.

End Server.
Section Part.
Import Part000 PartSpec PartFacts.
Variable random : nat → Z.

Lemma part_step_farewell st ev st' out rid :
  step random st ev = Ok (st', out) →
  (∃ e rs, e ∈ out ∧ dest e = ToRoom rid rs ∧
           (evname e = "opponent_left" ∨ evname e = "game_over")%string)
  ↔ is_Some (rooms st !! rid) ∧ rooms st' !! rid = None.
Proof.
  intros Hs. revert Hs. part_cases random; simpl.
  all: split;
    [ intros (e & rs & He & Hd & Hn) | intros [[ref0 Hsome] Hnone] ].
  all: try by apply elem_of_nil in He.
  all: try (apply list_elem_of_singleton in He; subst e; simpl in * ).
  all: try (destruct Hn; discriminate).
  all: try congruence.
  all: try (injection Hd as <- <-; split; [by eexists|apply lookup_delete_eq]).
  all: try (apply lookup_delete_None in Hnone as [<-|?]; [|congruence];
            eexists _, _; split; [apply list_elem_of_singleton; reflexivity|];
            simpl; eauto).
  all: try (apply lookup_insert_None in Hnone as [? ?]; congruence).
Qed.

End Part.
End FarewellFacts.

(** ** Counting what a run emits *)
Module TallyFacts.
Import Js JsFacts CaseTactics Wire.

Lemma count_nil ev : count ev [] = 0.
Proof. done. Qed.

Lemma count_singleton ev e :
  count ev [e] = if decide (evname e = ev) then 1 else 0.
Proof. unfold count. simpl. unfold filter. simpl. by case_decide. Qed.

Lemma count_app ev l1 l2 : count ev (l1 ++ l2) = count ev l1 + count ev l2.
Proof. unfold count. rewrite filter_app, length_app. lia. Qed.

Section Sums.
Context {A : Type} (f : A → Z).

Lemma sum_app (l1 l2 : list A) :
  foldr Z.add 0 (f <$> (l1 ++ l2))
  = foldr Z.add 0 (f <$> l1) + foldr Z.add 0 (f <$> l2).
Proof. induction l1 as [|x l1 IH]; csimpl; [done|]. rewrite IH. lia. Qed.

Lemma sum_insert (l : list A) i x y :
  l !! i = Some x →
  foldr Z.add 0 (f <$> <[i := y]> l) = foldr Z.add 0 (f <$> l) - f x + f y.
Proof.
  revert i. induction l as [|z l IH]; intros [|i]; csimpl; try done.
  - intros [= ->]. lia.
  - intros Hi. rewrite (IH _ Hi). lia.
Qed.

Lemma sum_bound (l : list A) b :
  (∀ i x, l !! i = Some x → f x ≤ b) →
  foldr Z.add 0 (f <$> l) ≤ b * Z.of_nat (length l).
Proof.
  induction l as [|z l IH]; intros Hb; csimpl; [lia|].
  pose proof (Hb 0%nat z eq_refl).
  assert (foldr Z.add 0 (f <$> l) ≤ b * Z.of_nat (length l)).
  { apply IH. intros i x Hi. apply (Hb (S i) x Hi). }
  lia.
Qed.

End Sums.

Lemma size_pos {A} (m : gmap string A) k v :
  m !! k = Some v → (0 < size m)%nat.
Proof.
  intros Hk. destruct (decide (size m = 0%nat)) as [Hz|]; [|lia].
  apply map_size_empty_iff in Hz. by rewrite Hz in Hk.
Qed.

Section Server.
Import ServerJs ServerSpec ServerFacts ServerInv.
Variable random : nat → Z.

Lemma step_tally st ev st' out :
  step random st ev = Ok (st', out) →
  count "match_found" out
  = Z.of_nat (length (heap st')) - Z.of_nat (length (heap st)) ∧
  count "round_start" out = rounds_played st' - rounds_played st ∧
  Z.of_nat (size (rooms st')) + count "game_over" out
    + count "opponent_left" out
  ≤ Z.of_nat (size (rooms st)) + count "match_found" out.
Proof.
  intros Hs. revert Hs. server_cases random; unfold rounds_played; simpl.
  all: rewrite ?count_nil, ?count_singleton; simpl.
  all: rewrite ?length_app, ?length_insert, ?sum_app; simpl.
  all: try (rewrite (sum_insert _ _ _ _ _ Ha); simpl).
  all: try (rewrite map_size_delete_Some by by eexists).
  all: try (rewrite map_size_insert; case_match; simpl).
  all: try lia.
  all: match goal with
       | H : rooms _ !! _ = Some _ |- _ =>
           simpl in H; pose proof (size_pos _ _ _ H)
       end; lia.
Qed.

Lemma exec_tally evs : ∀ st st' out,
  exec random st evs = Ok (st', out) →
  count "match_found" out
  = Z.of_nat (length (heap st')) - Z.of_nat (length (heap st)) ∧
  count "round_start" out = rounds_played st' - rounds_played st ∧
  Z.of_nat (size (rooms st')) + count "game_over" out
    + count "opponent_left" out
  ≤ Z.of_nat (size (rooms st)) + count "match_found" out.
Proof.
  induction evs as [|ev evs IH]; intros st st' out; simpl.
  - intros [= <- <-]. rewrite !count_nil. lia.
  - destruct (step random st ev) as [[st1 out1]|] eqn:Hs; simpl; [|done].
    destruct (exec random st1 evs) as [[st2 out2]|] eqn:He; simpl; [|done].
    intros [= <- <-]. rewrite !count_app.
    pose proof (step_tally _ _ _ _ Hs). pose proof (IH _ _ _ He). lia.
Qed.

End Server.

Section Part.
Import Part000 PartSpec PartFacts PartInv.
Variable random : nat → Z.

Lemma part_step_tally st ev st' out :
  step random st ev = Ok (st', out) →
  count "match_found" out
  = Z.of_nat (length (heap st')) - Z.of_nat (length (heap st)) ∧
  count "round_start" out = rounds_played st' - rounds_played st ∧
  Z.of_nat (size (rooms st')) + count "game_over" out
    + count "opponent_left" out
  ≤ Z.of_nat (size (rooms st)) + count "match_found" out.
Proof.
  intros Hs. revert Hs. part_cases random; unfold rounds_played; simpl.
  all: rewrite ?count_nil, ?count_singleton; simpl.
  all: rewrite ?length_app, ?length_insert, ?sum_app; simpl.
  all: try (rewrite (sum_insert _ _ _ _ _ Ha); simpl).
  all: try (rewrite map_size_delete_Some by by eexists).
  all: try (rewrite map_size_insert; case_match; simpl).
  all: try lia.
  all: match goal with
       | H : rooms _ !! _ = Some _ |- _ =>
           simpl in H; pose proof (size_pos _ _ _ H)
       end; lia.
Qed.

Lemma part_exec_tally evs : ∀ st st' out,
  exec random st evs = Ok (st', out) →
  count "match_found" out
  = Z.of_nat (length (heap st')) - Z.of_nat (length (heap st)) ∧
  count "round_start" out = rounds_played st' - rounds_played st ∧
  Z.of_nat (size (rooms st')) + count "game_over" out
    + count "opponent_left" out
  ≤ Z.of_nat (size (rooms st)) + count "match_found" out.
Proof.
  induction evs as [|ev evs IH]; intros st st' out; simpl.
  - intros [= <- <-]. rewrite !count_nil. lia.
  - destruct (step random st ev) as [[st1 out1]|] eqn:Hs; simpl; [|done].
    destruct (exec random st1 evs) as [[st2 out2]|] eqn:He; simpl; [|done].
    intros [= <- <-]. rewrite !count_app.
    pose proof (part_step_tally _ _ _ _ Hs). pose proof (IH _ _ _ He). lia.
Qed.

End Part.
End TallyFacts.

(** ** The countdown of a round in [src/unnamed/part_000] *)
Module CountdownFacts.
Import Js JsFacts CaseTactics Part000 PartSpec PartFacts Countdown.

Section Part.
Variable random : nat → Z.

Lemma tick_waits st tid rid ref n :
  timers st !! tid = Some (ticking rid ref n) → 1 < n →
  ∃ st', step random st (Fire tid) = Ok (st', []) ∧
         timers st' !! tid = Some (ticking rid ref (n - 1)) ∧
         same_but_timers st st'.
Proof.
  intros Ht Hn. simpl. rewrite Ht. simpl. unfold tick.
  rewrite bool_decide_eq_false_2 by lia.
  eexists. split; [done|]. simpl. split; [apply lookup_insert_eq|done].
Qed.

Lemma ticks_wait k : ∀ st tid rid ref n,
  timers st !! tid = Some (ticking rid ref n) → Z.of_nat k < n →
  ∃ st', exec random st (replicate k (Fire tid)) = Ok (st', []) ∧
         timers st' !! tid = Some (ticking rid ref (n - Z.of_nat k)) ∧
         same_but_timers st st'.
Proof.
  induction k as [|k IH]; intros st tid rid ref n Ht Hn.
  - exists st. simpl. rewrite Z.sub_0_r. done.
  - destruct (tick_waits st tid rid ref n Ht) as (st1 & Hs & Ht1 & Hsame);
      [lia|].
    destruct (IH st1 tid rid ref (n - 1) Ht1) as (st2 & He & Ht2 & Hsame2);
      [lia|].
    exists st2. change (replicate (S k) (Fire tid))
      with (Fire tid :: replicate k (Fire tid)).
    cbn [exec]. rewrite Hs. simpl. rewrite He. simpl.
    split; [done|]. split.
    + rewrite Ht2. do 2 f_equal. lia.
    + unfold same_but_timers in *. destruct_and!. split_and!; congruence.
Qed.

Lemma tick_reveals st tid rid ref ref' r :
  timers st !! tid = Some (ticking rid ref 1) →
  heap st !! ref = Some r → timer r = Some tid →
  rooms st !! rid = Some ref' → (tid < next_timer st)%nat →
  ∃ st', step random st (Fire tid)
         = Ok (st', [to_room (members st) rid "round_reveal" None]) ∧
         timers st' !! tid = None ∧
         timers st' !! next_timer st
         = Some {| delay := 8000; repeat := false; run := StartRound rid |} ∧
         sockets st' = sockets st ∧ rooms st' = rooms st ∧
         heap st' = heap st.
Proof.
  intros Ht Hr Htimer Hrid Hlt. simpl. rewrite Ht. simpl. unfold tick. simpl.
  rewrite Hr. simpl. rewrite Htimer. simpl. unfold revealRound. simpl.
  rewrite Hrid. eexists. split; [done|]. simpl. split_and!; try done.
  - rewrite lookup_insert_ne by lia. apply lookup_delete_eq.
  - apply lookup_insert_eq.
Qed.

Lemma round_start_ticking st ev st1 out e rid rs :
  step random st ev = Ok (st1, out) → e ∈ out →
  evname e = "round_start"%string → dest e = ToRoom rid rs →
  ∃ ref r1 ref',
    timers st1 !! next_timer st = Some (ticking rid ref 20) ∧
    heap st1 !! ref = Some r1 ∧ timer r1 = Some (next_timer st) ∧
    rooms st1 !! rid = Some ref' ∧ next_timer st1 = S (next_timer st).
Proof.
  intros Hs. revert Hs. part_cases random; simpl.
  all: try by intros ?%elem_of_nil.
  all: intros ->%list_elem_of_singleton; try done; intros _ [= <- <-].
  all: pose proof (lookup_lt_Some _ _ _ Ha) as Hlt;
    eexists _, _, _; split_and!;
    [apply lookup_insert_eq|by apply list_lookup_insert_eq|done|done|done].
Qed.

End Part.

Section Server.
Import ServerJs.
Variable random : nat → Z.

Lemma round_start_guessing st ev st1 out e rid rs :
  ServerJs.step random st ev = Ok (st1, out) → e ∈ out →
  evname e = "round_start"%string → dest e = ToRoom rid rs →
  ∃ ref ref',
    ServerJs.timers st1 !! ServerJs.next_timer st
    = Some {| ServerJs.delay := 20000;
              ServerJs.run := ServerJs.EndOfGuessing rid ref |} ∧
    ServerJs.rooms st1 !! rid = Some ref' ∧
    ServerJs.next_timer st1 = S (ServerJs.next_timer st).
Proof.
  intros Hs. revert Hs. server_cases random; simpl.
  all: try by intros ?%elem_of_nil.
  all: intros ->%list_elem_of_singleton; try done; intros _ [= <- <-].
  all: eexists _, _; split_and!; [apply lookup_insert_eq|done|done].
Qed.

End Server.
End CountdownFacts.

(** ** What a step schedules *)
Module ScheduleFacts.
Import Js JsFacts CaseTactics.

Section Server.
Import ServerJs ServerSpec ServerFacts.
Variable random : nat → Z.

Lemma step_schedule st ev st' out :
  step random st ev = Ok (st', out) →
  (next_timer st' = next_timer st ∧
   (∀ tid t, timers st' !! tid = Some t → timers st !! tid = Some t) ∧
   (∀ e, e ∈ out →
      evname e ≠ "match_found" ∧ evname e ≠ "round_start" ∧
      evname e ≠ "round_reveal")%string)
  ∨ (∃ e t,
       out = [e] ∧ next_timer st' = S (next_timer st) ∧
       timers st' !! next_timer st = Some t ∧
       (∀ tid t0, tid ≠ next_timer st → timers st' !! tid = Some t0 →
          timers st !! tid = Some t0) ∧
       ((evname e = "match_found" ∧ delay t = 3000)
        ∨ (evname e = "round_start" ∧ delay t = 20000)
        ∨ (evname e = "round_reveal" ∧ delay t = 8000))%string).
Proof.
  intros Hs. revert Hs. server_cases random; simpl.
  all: first
    [ right; eexists _, _; split; [reflexivity|]; simpl;
      split; [reflexivity|]; split; [apply lookup_insert_eq|];
      split;
      [ intros tid0 t0 Hne; rewrite lookup_insert_ne by done;
        first [ by intros [_ ?]%lookup_delete_Some | done ]
      | simpl; by eauto ]
    | left; split; [reflexivity|]; split;
      [ intros tid0 t0; first [ by intros [_ ?]%lookup_delete_Some | done ]
      | first [ by intros e ?%elem_of_nil
              | by intros e ->%list_elem_of_singleton ] ] ].
Qed.

End Server.

Ltac old_timer :=
  repeat match goal with
         | H : <[_ := _]> _ !! _ = Some _ |- _ =>
             apply lookup_insert_Some in H as [[? ?]|[? H]]
         | H : delete _ _ !! _ = Some _ |- _ =>
             apply lookup_delete_Some in H as [? H]
         end; subst; by eauto.

Section Part.
Import Part000 PartSpec PartFacts.
Variable random : nat → Z.

Lemma part_step_schedule st ev st' out :
  step random st ev = Ok (st', out) →
  (next_timer st' = next_timer st ∧
   (∀ tid t, timers st' !! tid = Some t → is_Some (timers st !! tid)) ∧
   (∀ e, e ∈ out →
      evname e ≠ "match_found" ∧ evname e ≠ "round_start" ∧
      evname e ≠ "round_reveal")%string)
  ∨ (∃ e t,
       out = [e] ∧ next_timer st' = S (next_timer st) ∧
       timers st' !! next_timer st = Some t ∧
       (∀ tid t1, tid ≠ next_timer st → timers st' !! tid = Some t1 →
          is_Some (timers st !! tid)) ∧
       ((evname e = "match_found" ∧ delay t = 3000 ∧ repeat t = false)
        ∨ (evname e = "round_start" ∧ delay t = 1000 ∧ repeat t = true)
        ∨ (evname e = "round_reveal" ∧ delay t = 8000 ∧ repeat t = false))%string).
Proof.
  intros Hs. revert Hs. part_cases random; simpl.
  all: first
    [ right; eexists _, _; split; [reflexivity|]; simpl;
      split; [reflexivity|]; split; [apply lookup_insert_eq|];
      split;
      [ intros tid0 t0 Hne Hl; old_timer
      | simpl; by eauto 10 ]
    | left; split; [reflexivity|]; split;
      [ intros tid0 t0 Hl; old_timer
      | first [ by intros e ?%elem_of_nil
              | by intros e ->%list_elem_of_singleton ] ] ].
Qed.

End Part.
End ScheduleFacts.

(** ** The end of a game *)
Module GameOverFacts.
Import Js JsFacts CaseTactics.

Section Server.
Import ServerJs ServerSpec ServerFacts.
Variable random : nat → Z.

Lemma step_game_over st ev st' out e :
  step random st ev = Ok (st', out) → e ∈ out →
  evname e = "game_over"%string →
  ∃ ref r u1 u2,
    heap st !! ref = Some r ∧ maxRounds r ≤ round r ∧
    user (sock st (p1 r)) = Some u1 ∧ user (sock st (p2 r)) = Some u2 ∧
    payload e
    = Some (JObj [("p1Score", JDouble (score u1));
                  ("p2Score", JDouble (score u2))]%string).
Proof.
  intros Hs. revert Hs. server_cases random; simpl.
  all: try by intros ?%elem_of_nil.
  all: intros ->%list_elem_of_singleton; try done; intros _.
  all: eexists _, a, u0, u; split_and!; done.
Qed.

End Server.

Section Part.
Import Part000 PartSpec PartFacts.
Variable random : nat → Z.

Lemma part_step_game_over st ev st' out e :
  step random st ev = Ok (st', out) → e ∈ out →
  evname e = "game_over"%string →
  ∃ rid ref r,
    rooms st !! rid = Some ref ∧ heap st !! ref = Some r ∧
    maxRounds r ≤ round r ∧
    dest e = ToRoom rid (default ∅ (members st !! rid)) ∧
    payload e
    = Some (JObj [("p1", JDouble (sp1 (scores r)));
                  ("p2", JDouble (sp2 (scores r)))]%string) ∧
    members st' = leave rid (p2 r) (leave rid (p1 r) (members st)).
Proof.
  intros Hs. revert Hs. part_cases random; simpl.
  all: try by intros ?%elem_of_nil.
  all: intros ->%list_elem_of_singleton; try done; intros _.
  all: assert (a0 = a) as -> by congruence.
  all: eexists rid, _, a; split_and!; done.
Qed.

End Part.
End GameOverFacts.

(** ** The deck as a function of the draws *)
Module DeckFacts.
Import Js JsFacts.

Lemma generateDeck_loop_draws random n : ∀ d c,
  ServerJs.generateDeck_loop random n d c
  = (d ++ ((λ k, floor_random_times (random k) 300) <$> seq c n),
     (c + n)%nat).
Proof.
  induction n as [|n IH]; intros d c; simpl.
  - rewrite app_nil_r. f_equal. lia.
  - rewrite IH. rewrite <- app_assoc. simpl. f_equal. lia.
Qed.

Lemma part_generateDeck_loop_draws random n : ∀ d c,
  Part000.generateDeck_loop random n d c
  = (d ++ ((λ k, floor_random_times (random k) 300) <$> seq c n),
     (c + n)%nat).
Proof.
  induction n as [|n IH]; intros d c; simpl.
  - rewrite app_nil_r. f_equal. lia.
  - rewrite IH. rewrite <- app_assoc. simpl. f_equal. lia.
Qed.

Lemma repeated_entry (f : nat → Z) c n i j :
  (i < j < n)%nat → f (c + i)%nat = f (c + j)%nat →
  ¬ NoDup (f <$> seq c n).
Proof.
  intros Hij Heq Hnd.
  assert ((f <$> seq c n) !! i = Some (f (c + i)%nat)) as Hi.
  { rewrite list_lookup_fmap, lookup_seq_lt by lia. done. }
  assert ((f <$> seq c n) !! j = Some (f (c + j)%nat)) as Hj.
  { rewrite list_lookup_fmap, lookup_seq_lt by lia. done. }
  rewrite <- Heq in Hj.
  pose proof (NoDup_lookup _ _ _ _ Hnd Hi Hj). lia.
Qed.

End DeckFacts.

(** ** Socket ids of one length: a routed socket is a participant *)
Module SizedFacts.
Import Js JsFacts.

Section Server.
Import ServerJs ServerSpec ServerFacts ServerInv.
Variable random : nat → Z.




End Server.

Section Part.
Import Part000 PartSpec PartFacts PartInv.
Variable random : nat → Z.




End Part.
End SizedFacts.

(** * The properties of the match lifecycle engine *)
Import Js JsFacts ServerFacts PartFacts.

(** C1, as the code has it: while a match id is not registered, nothing the
    server does emits [round_start], [round_reveal] or [score_update] for
    it.  A timer that fires for an unregistered room and a score submission
    of a socket whose [roomId] is unregistered stop at the registry lookup
    and emit nothing; a participant's disconnect and the [game_over] step
    both unregister the id.  The silence lasts as long as the id stays
    unregistered: pairing the same two sockets again in the same order
    registers the same id anew. *)
Theorem unregistered_room_is_silent (random : nat → Z) (rid : string) :
  (∀ st evs st' out,
     ServerSpec.unregistered_throughout random rid st evs →
     ServerJs.exec random st evs = Ok (st', out) →
     ∀ e, e ∈ out → ¬ game_event rid e)
  ∧
  (∀ st tid t,
     ServerJs.timers st !! tid = Some t →
     ServerSpec.callback_room (ServerJs.run t) = rid →
     ServerJs.rooms st !! rid = None →
     ServerJs.step random st (ServerJs.Fire tid)
     = Ok (ServerJs.set_timers (delete tid (ServerJs.timers st))
             (ServerJs.next_timer st) st, []))
  ∧
  (∀ st h points,
     ServerJs.roomId (ServerJs.sock st h) = Some rid →
     ServerJs.rooms st !! rid = None →
     ServerJs.step random st (ServerJs.SubmitScore h points) = Ok (st, []))
  ∧
  (∀ st h st' out,
     ServerJs.roomId (ServerJs.sock st h) = Some rid →
     ServerJs.step random st (ServerJs.Disconnect h) = Ok (st', out) →
     ServerJs.rooms st' !! rid = None)
  ∧
  (∀ st ev st' out e rs,
     ServerJs.step random st ev = Ok (st', out) → e ∈ out →
     evname e = "game_over"%string → dest e = ToRoom rid rs →
     ServerJs.rooms st' !! rid = None)
  ∧
  (∀ st evs st' out,
     PartSpec.unregistered_throughout random rid st evs →
     Part000.exec random st evs = Ok (st', out) →
     ∀ e, e ∈ out → ¬ game_event rid e)
  ∧
  (∀ st tid t,
     PartSpec.reachable random st →
     Part000.timers st !! tid = Some t →
     PartSpec.callback_room (Part000.run t) = rid →
     Part000.rooms st !! rid = None →
     ∃ st', Part000.step random st (Part000.Fire tid) = Ok (st', []) ∧
            Part000.rooms st' = Part000.rooms st ∧
            Part000.heap st' = Part000.heap st ∧
            Part000.sockets st' = Part000.sockets st ∧
            Part000.waitingPlayer st' = Part000.waitingPlayer st)
  ∧
  (∀ st h points,
     Part000.roomId (Part000.sock st h) = Some rid →
     Part000.rooms st !! rid = None →
     Part000.step random st (Part000.SubmitScore h points) = Ok (st, []))
  ∧
  (∀ st h st' out,
     Part000.roomId (Part000.sock st h) = Some rid →
     Part000.step random st (Part000.Disconnect h) = Ok (st', out) →
     Part000.rooms st' !! rid = None)
  ∧
  (∀ st ev st' out e rs,
     Part000.step random st ev = Ok (st', out) → e ∈ out →
     evname e = "game_over"%string → dest e = ToRoom rid rs →
     Part000.rooms st' !! rid = None).
Proof.
  split_and!.
  - intros st evs. apply QuietFacts.exec_quiet.
  - intros st tid t Ht <- Hr.
    exact (QuietFacts.fire_unregistered random st tid t Ht Hr).
  - intros st h pts Hrid Hr. simpl. apply ScoreFacts.server_submit_ignored.
    intros rid' Hrid'. congruence.
  - intros st h st' out. apply QuietFacts.disconnect_unregisters.
  - intros st ev st' out e rs. apply QuietFacts.game_over_unregisters.
  - intros st evs. apply QuietFacts.part_exec_quiet.
  - intros st tid t Hwf%part_reachable_wf Ht <- Hr.
    destruct (QuietFacts.part_fire_unregistered random st tid t Hwf Ht Hr)
      as (st' & Hs & ? & ? & ? & ? & _).
    by exists st'.
  - intros st h pts Hrid Hr. simpl. apply ScoreFacts.part_submit_ignored.
    intros rid' Hrid'. congruence.
  - intros st h st' out. apply QuietFacts.part_disconnect_unregisters.
  - intros st ev st' out e rs. apply QuietFacts.part_game_over_unregisters.
Qed.

Lemma unregistered_room_is_silent_witness :
  ServerJs.step Scenario.rnd
    (Scenario.server_after
       [ServerJs.Identify "A" (Some Scenario.ann);
        ServerJs.Identify "B" (Some Scenario.bob);
        ServerJs.Disconnect "A"])
    (ServerJs.SubmitScore "B" (of_Z 5))
  = Ok (Scenario.server_after
          [ServerJs.Identify "A" (Some Scenario.ann);
           ServerJs.Identify "B" (Some Scenario.bob);
           ServerJs.Disconnect "A"], []).
Proof.
  apply (proj1 (proj2 (proj2
           (unregistered_room_is_silent Scenario.rnd "room_A_B")))).
  - vm_compute. reflexivity.
  - vm_compute. reflexivity.
Defined.

(** In [src/server.js], A and B play a whole match: [game_over] is emitted
    and [room_A_B] is unregistered with no timer left.  They identify again
    and are paired again under the same id, and the lobby timer of the new
    match emits [round_start] for [room_A_B]. *)
Lemma rematch_reuses_room_id :
  ServerJs.rooms (Scenario.server_after Scenario.full_game)
    !! "room_A_B"%string = None ∧
  ServerJs.timers (Scenario.server_after Scenario.full_game) = ∅ ∧
  last (map Scenario.wire (Scenario.server_emits Scenario.full_game))
  = Some ("game_over",
          Some (JObj [("p1Score", JDouble (of_Z 0));
                      ("p2Score", JDouble (of_Z 0))]))%string ∧
  ∃ e,
    last (Scenario.server_emits (Scenario.full_game ++ Scenario.rematch))
    = Some e ∧
    game_event "room_A_B" e ∧
    Scenario.wire e
    = ("round_start",
       Some (JObj [("round", JNum 1); ("songIndex", JNum 33);
                   ("seekTime", JNum 41); ("duration", JNum 20)]))%string.
Proof.
  split_and!; try (vm_compute; reflexivity).
  exists (to_room {["room_A_B"%string := {["A"%string; "B"%string]}]}
            "room_A_B" "round_start"
            (Some (JObj [("round", JNum 1); ("songIndex", JNum 33);
                         ("seekTime", JNum 41); ("duration", JNum 20)]%string))).
  split_and!.
  - vm_compute. reflexivity.
  - split; [by eexists|]. by left.
  - reflexivity.
Qed.


(** C2: every sequence of events whose [identify] messages carry their
    payload is handled without an error, and after it
    the matchmaking queue holds at most one waiting handle (the queue of
    [src/server.js] has length 0 or 1, [src/unnamed/part_000] has a single
    slot); an arrival on an empty queue becomes the sole waiting entry, an
    arrival while a handle waits removes that handle and pairs the two in a
    room at once, and a removal only ever empties the slot. *)
Theorem queue_holds_at_most_one (random : nat → Z) :
  (∀ evs, forallb ServerSpec.has_payload evs = true →
     ∃ st out,
       ServerJs.exec random ServerJs.init evs = Ok (st, out) ∧
       (length (ServerJs.queue st) ≤ 1)%nat)
  ∧
  (∀ evs, forallb PartSpec.has_payload evs = true →
     ∃ st out, Part000.exec random Part000.init evs = Ok (st, out))
  ∧
  (∀ st, ServerSpec.reachable random st →
     (length (ServerJs.queue st) ≤ 1)%nat ∧
     (∀ h d, ServerJs.queue st = [] →
        ∃ st', ServerJs.step random st (ServerJs.Identify h (Some d))
               = Ok (st', [to_socket h "waiting_opponent" None]) ∧
               ServerJs.queue st' = [h] ∧
               ServerJs.rooms st' = ServerJs.rooms st) ∧
     (∀ h d w, ServerJs.queue st = [w] →
        ∃ st' out r,
          ServerJs.step random st (ServerJs.Identify h (Some d)) = Ok (st', out) ∧
          ServerJs.queue st' = [] ∧
          ServerJs.rooms st' !! ("room_" +:+ w +:+ "_" +:+ h)%string
            = Some (length (ServerJs.heap st)) ∧
          ServerJs.heap st' !! length (ServerJs.heap st) = Some r ∧
          ServerJs.p1 r = w ∧ ServerJs.p2 r = h) ∧
     (∀ h, ∃ st' out,
        ServerJs.step random st (ServerJs.Disconnect h) = Ok (st', out) ∧
        ServerJs.queue st'
        = if decide (ServerJs.queue st = [h]) then [] else ServerJs.queue st))
  ∧
  (∀ st, PartSpec.reachable random st →
     (∀ h d, Part000.waitingPlayer st = None →
        ∃ st', Part000.step random st (Part000.Identify h (Some d))
               = Ok (st', [to_socket h "waiting_opponent" None]) ∧
               Part000.waitingPlayer st' = Some h ∧
               Part000.rooms st' = Part000.rooms st) ∧
     (∀ h d w, Part000.waitingPlayer st = Some w →
        ∃ st' out r,
          Part000.step random st (Part000.Identify h (Some d)) = Ok (st', out) ∧
          Part000.waitingPlayer st' = None ∧
          Part000.rooms st' !! ("room_" +:+ w +:+ "_" +:+ h)%string
            = Some (length (Part000.heap st)) ∧
          Part000.heap st' !! length (Part000.heap st) = Some r ∧
          Part000.p1 r = w ∧ Part000.p2 r = h) ∧
     (∀ h, ∃ st' out,
        Part000.step random st (Part000.Disconnect h) = Ok (st', out) ∧
        Part000.waitingPlayer st'
        = if decide (Part000.waitingPlayer st = Some h) then None
          else Part000.waitingPlayer st)).
Proof.
  split_and!.
  - intros evs Hevs.
    destruct (exec_total random evs ServerJs.init wf_init Hevs)
      as (st & out & He).
    exists st, out. split; [done|]. apply ServerSpec.wf_queue_len.
    by eapply wf_exec; [apply wf_init|].
  - intros evs Hevs. by apply part_exec_total; [apply part_wf_init|].
  - intros st Hwf%ServerFacts.reachable_wf. split_and!.
    + by apply ServerSpec.wf_queue_len.
    + intros h d Hq. eexists. simpl. 
      rewrite ServerFacts.matchmake_wait by (simpl; by rewrite Hq).
      simpl. by rewrite Hq.
    + intros h d w Hq.
      destruct (ServerSpec.wf_queue_user _ Hwf w) as [u1 Hu1];
        [rewrite Hq; set_solver|].
      set (st0 := ServerJs.set_user h
                    {| ServerJs.data := d; ServerJs.score := of_Z 0 |} st).
      destruct (ServerJs.generateDeck random 15 (ServerJs.rng st0))
        as [dk c] eqn:Hd.
      assert (∃ u, ServerJs.user (ServerJs.sock st0 w) = Some u) as [u1' Hu1'].
      { unfold st0. rewrite ServerFacts.user_set_user. case_decide; eauto. }
      eexists _, _, _. simpl. fold st0.
      erewrite (ServerFacts.matchmake_pair random st0 h w [] dk c);
        [|by simpl; rewrite Hq|done|done
         |unfold st0; rewrite ServerFacts.user_set_user; by rewrite decide_True].
      split; [done|]. simpl. split; [done|].
      rewrite lookup_insert_eq. split; [done|].
      rewrite lookup_app_r, Nat.sub_diag by done. done.
    + intros h. pose proof (ServerSpec.wf_queue_len _ Hwf) as Hlen.
      simpl. unfold ServerJs.on_disconnect. simpl.
      assert (remove_first h (ServerJs.queue st)
              = if decide (ServerJs.queue st = [h]) then []
                else ServerJs.queue st) as Hq.
      { destruct (ServerJs.queue st) as [|x [|??]]; simpl in *; try lia.
        all: repeat case_decide; congruence. }
      repeat case_match; eexists _, _; (split; [done|]); by simpl.
  - intros st Hwf%PartFacts.part_reachable_wf. split_and!.
    + intros h d Hw. eexists. simpl. 
      rewrite PartFacts.findMatch_wait by done. done.
    + intros h d w Hw.
      destruct (PartSpec.pwf_waiting_user _ Hwf w Hw) as [u1 Hu1].
      set (st0 := Part000.set_user h d st).
      destruct (Part000.generateDeck random 15 (Part000.rng st0))
        as [dk c] eqn:Hd.
      assert (∃ u, Part000.user (Part000.sock st0 w) = Some u) as [u1' Hu1'].
      { unfold st0. rewrite PartFacts.part_user_set_user. case_decide; eauto. }
      eexists _, _, _. simpl. fold st0.
      erewrite (PartFacts.findMatch_pair random st0 h w dk c);
        [|done|done|done
         |unfold st0; rewrite PartFacts.part_user_set_user; by rewrite decide_True].
      split; [done|]. simpl. split; [done|].
      rewrite lookup_insert_eq. split; [done|].
      rewrite lookup_app_r, Nat.sub_diag by done. done.
    + intros h.
      destruct (PartFacts.part_step_total random st (Part000.Disconnect h)
                  Hwf eq_refl) as (st' & out & Hs).
      exists st', out. split; [done|]. revert Hs. simpl.
      unfold Part000.on_disconnect, Part000.handleDisconnect. simpl.
      case_bool_decide; case_decide; try done;
        repeat case_match; intros Hok; PartFacts.inv_ok; subst; simpl;
        try done; by destruct (Part000.timer _).
Qed.

Lemma queue_holds_at_most_one_witness :
  (length (ServerJs.queue
             (Scenario.server_after
                [ServerJs.Identify "A" (Some Scenario.ann)])) ≤ 1)%nat.
Proof.
  apply (proj1 (proj2 (proj2 (queue_holds_at_most_one Scenario.rnd)))).
  exists [ServerJs.Identify "A" (Some Scenario.ann)],
         (Scenario.server_emits [ServerJs.Identify "A" (Some Scenario.ann)]).
  vm_compute. reflexivity.
Defined.


(** C4: in every reachable state the round counter of every room object
    lies between 0 and [maxRounds] = 15; one step either leaves every
    counter unchanged and announces no round, or enters the guessing phase
    of one room, whose counter goes up by exactly 1 and is the round number
    announced by [round_start]; and when the counter has reached
    [maxRounds], the scheduler step after the final reveal emits
    [game_over], unregisters the room and starts no round. *)
Theorem round_counter_steps_by_one (random : nat → Z) :
  (∀ st ref r,
     ServerSpec.reachable random st → ServerJs.heap st !! ref = Some r →
     0 ≤ ServerJs.round r ≤ ServerJs.maxRounds r ∧ ServerJs.maxRounds r = 15)
  ∧
  (∀ st ev st' out,
     ServerJs.step random st ev = Ok (st', out) →
     ServerSpec.keeps_rounds st st' out ∨ ServerSpec.starts_round st st' out)
  ∧
  (∀ st tid t rid ref r,
     ServerSpec.reachable random st →
     ServerJs.timers st !! tid = Some t →
     ServerJs.run t = ServerJs.EndOfReveal rid ref →
     is_Some (ServerJs.rooms st !! rid) →
     ServerJs.heap st !! ref = Some r →
     ServerJs.round r = ServerJs.maxRounds r →
     ∃ st' e rs,
       ServerJs.step random st (ServerJs.Fire tid) = Ok (st', [e]) ∧
       evname e = "game_over"%string ∧ dest e = ToRoom rid rs ∧
       ServerJs.rooms st' !! rid = None ∧
       ServerJs.heap st' = ServerJs.heap st)
  ∧
  (∀ st ref r,
     PartSpec.reachable random st → Part000.heap st !! ref = Some r →
     0 ≤ Part000.round r ≤ Part000.maxRounds r ∧ Part000.maxRounds r = 15)
  ∧
  (∀ st ev st' out,
     Part000.step random st ev = Ok (st', out) →
     PartSpec.keeps_rounds st st' out ∨ PartSpec.starts_round st st' out)
  ∧
  (∀ st tid t rid ref r,
     PartSpec.reachable random st →
     Part000.timers st !! tid = Some t →
     Part000.run t = Part000.StartRound rid →
     Part000.rooms st !! rid = Some ref →
     Part000.heap st !! ref = Some r →
     Part000.round r = Part000.maxRounds r →
     ∃ st' e rs,
       Part000.step random st (Part000.Fire tid) = Ok (st', [e]) ∧
       evname e = "game_over"%string ∧ dest e = ToRoom rid rs ∧
       Part000.rooms st' !! rid = None ∧
       Part000.heap st' = Part000.heap st).
Proof.
  split_and!.
  - intros st ref r Hwf%ServerFacts.reachable_wf Hr.
    destruct (ServerSpec.wf_round _ Hwf _ _ Hr) as (? & ? & ?). done.
  - apply RoundFacts.step_rounds.
  - intros st tid t rid ref r Hwf%ServerFacts.reachable_wf Ht Hrun [x Hx] Hr Hmax.
    destruct (ServerSpec.wf_players _ Hwf _ _ Hr) as [[u1 Hu1] [u2 Hu2]].
    eexists _, _, _. simpl. rewrite Ht, Hrun. simpl. rewrite Hx.
    erewrite ServerFacts.nextRound_over; [|done|lia|done|done].
    split_and!; try done. simpl. apply lookup_delete_eq.
  - intros st ref r Hwf%PartFacts.part_reachable_wf Hr.
    destruct (PartSpec.pwf_round _ Hwf _ _ Hr) as (? & ? & ?). done.
  - apply PartRoundFacts.part_step_rounds.
  - intros st tid t rid ref r Hwf%PartFacts.part_reachable_wf Ht Hrun Hx Hr Hmax.
    eexists _, _, _. simpl. rewrite Ht, Hrun.
    erewrite PartFacts.startRound_over; [|done|done|lia].
    erewrite PartFacts.endGame_eq; [|done|done].
    split_and!; try done. simpl. apply lookup_delete_eq.
Qed.

Lemma round_counter_steps_by_one_witness :
  ∃ r,
    ServerJs.heap
      (Scenario.server_after
         [ServerJs.Identify "A" (Some Scenario.ann);
          ServerJs.Identify "B" (Some Scenario.bob);
          ServerJs.Fire 0]) !! 0%nat = Some r ∧
    ServerJs.round r = 1 ∧
    0 ≤ ServerJs.round r ≤ ServerJs.maxRounds r ∧ ServerJs.maxRounds r = 15.
Proof.
  eexists. split; [vm_compute; reflexivity|]. split; [reflexivity|].
  eapply (proj1 (round_counter_steps_by_one Scenario.rnd)
            (Scenario.server_after
               [ServerJs.Identify "A" (Some Scenario.ann);
                ServerJs.Identify "B" (Some Scenario.bob); ServerJs.Fire 0])
            0%nat).
  - exists [ServerJs.Identify "A" (Some Scenario.ann);
            ServerJs.Identify "B" (Some Scenario.bob); ServerJs.Fire 0],
           (Scenario.server_emits
              [ServerJs.Identify "A" (Some Scenario.ann);
               ServerJs.Identify "B" (Some Scenario.bob); ServerJs.Fire 0]).
    vm_compute. reflexivity.
  - vm_compute. reflexivity.
Defined.

(** C5, as the code has it: an accepted score submission adds the points to
    the submitter's cumulative score, leaves every other score as it is,
    and the [score_update] broadcast that follows carries the two current
    scores.  The addition is that of JavaScript numbers, so a score is the
    binary64 sum, accumulated in the order of arrival, of the accepted
    submissions: in [src/server.js] those of the player since its last
    [identify] (which resets the score to 0, also during a match); in
    [src/unnamed/part_000] those applied to the room object since it was
    created, the submissions of the socket that is [p1] counted for [p1]
    and all others for [p2]. *)
Theorem score_update_carries_credited_sums (random : nat → Z) :
  (∀ evs st out h points rid ref r,
     ServerJs.exec random ServerJs.init evs = Ok (st, out) →
     ServerJs.roomId (ServerJs.sock st h) = Some rid →
     ServerJs.rooms st !! rid = Some ref →
     ServerJs.heap st !! ref = Some r →
     ∃ st' e rs u u',
       ServerJs.step random st (ServerJs.SubmitScore h points) = Ok (st', [e]) ∧
       evname e = "score_update"%string ∧ dest e = ToRoom rid rs ∧
       ServerJs.user (ServerJs.sock st h) = Some u ∧
       ServerJs.user (ServerJs.sock st' h) = Some u' ∧
       ServerJs.score u' = add (ServerJs.score u) points ∧
       (∀ x, x ≠ h →
             ServerJs.user (ServerJs.sock st' x)
             = ServerJs.user (ServerJs.sock st x)) ∧
       payload e
       = Some (JObj
                 [("p1",
                   JDouble (ServerSpec.credited random (ServerJs.p1 r)
                              ServerJs.init
                              (evs ++ [ServerJs.SubmitScore h points])
                              (of_Z 0)));
                  ("p2",
                   JDouble (ServerSpec.credited random (ServerJs.p2 r)
                              ServerJs.init
                              (evs ++ [ServerJs.SubmitScore h points])
                              (of_Z 0)))
                 ]%string))
  ∧
  (∀ evs st out h points rid ref r,
     Part000.exec random Part000.init evs = Ok (st, out) →
     Part000.roomId (Part000.sock st h) = Some rid →
     Part000.rooms st !! rid = Some ref →
     Part000.heap st !! ref = Some r →
     ∃ st' e rs r',
       Part000.step random st (Part000.SubmitScore h points) = Ok (st', [e]) ∧
       evname e = "score_update"%string ∧ dest e = ToRoom rid rs ∧
       Part000.heap st' !! ref = Some r' ∧
       (h = Part000.p1 r →
        Part000.sp1 (Part000.scores r')
        = add (Part000.sp1 (Part000.scores r)) points ∧
        Part000.sp2 (Part000.scores r') = Part000.sp2 (Part000.scores r)) ∧
       (h ≠ Part000.p1 r →
        Part000.sp1 (Part000.scores r') = Part000.sp1 (Part000.scores r) ∧
        Part000.sp2 (Part000.scores r')
        = add (Part000.sp2 (Part000.scores r)) points) ∧
       payload e
       = Some (JObj [("p1", JDouble (Part000.sp1 (Part000.scores r')));
                     ("p2", JDouble (Part000.sp2 (Part000.scores r')))
                    ]%string) ∧
       Part000.scores r'
       = PartSpec.ledger random ref Part000.init
           (evs ++ [Part000.SubmitScore h points]) PartSpec.zero).
Proof.
  split.
  - intros evs st out h pts rid ref r Hexec Hrid Href Hr.
    assert (ServerSpec.wf st) as Hwf
      by (apply (reachable_wf random); by exists evs, out).
    destruct (ServerSpec.wf_room_user _ Hwf _ _ Hrid) as [u Hu].
    destruct (ServerSpec.wf_players _ Hwf _ _ Hr) as [[u1 Hu1] [u2 Hu2]].
    set (u' := {| ServerJs.data := ServerJs.data u;
                  ServerJs.score := add (ServerJs.score u) pts |}).
    set (st1 := ServerJs.set_user h u' st).
    assert (∃ v1, ServerJs.user (ServerJs.sock st1 (ServerJs.p1 r)) = Some v1)
      as [v1 Hv1].
    { unfold st1. rewrite user_set_user. case_decide; eauto. }
    assert (∃ v2, ServerJs.user (ServerJs.sock st1 (ServerJs.p2 r)) = Some v2)
      as [v2 Hv2].
    { unfold st1. rewrite user_set_user. case_decide; eauto. }
    pose proof (ScoreFacts.server_submit_accept st h pts rid ref u r v1 v2
                  Hrid Href Hu Hr Hv1 Hv2) as Hstep.
    pose proof (exec_snoc random _ _ _ _ (ServerJs.SubmitScore h pts) _ _
                  Hexec Hstep) as Hexec'.
    eexists st1, _, _, u, u'. simpl. split; [exact Hstep|].
    split_and!; try done.
    + unfold st1. rewrite user_set_user. by rewrite decide_True.
    + intros x Hx. unfold st1. rewrite user_set_user. by rewrite decide_False.
    + assert (ServerJs.score v1
              = ServerSpec.credited random (ServerJs.p1 r) ServerJs.init
                  (evs ++ [ServerJs.SubmitScore h pts]) (of_Z 0)) as <-.
      { eapply (LedgerFacts.credited_exec random); [|exact Hexec'|exact Hv1].
        intros u0 Hu0. done. }
      assert (ServerJs.score v2
              = ServerSpec.credited random (ServerJs.p2 r) ServerJs.init
                  (evs ++ [ServerJs.SubmitScore h pts]) (of_Z 0)) as <-.
      { eapply (LedgerFacts.credited_exec random); [|exact Hexec'|exact Hv2].
        intros u0 Hu0. done. }
      done.
  - intros evs st out h pts rid ref r Hexec Hrid Href Hr.
    pose proof (lookup_lt_Some _ _ _ Hr) as Hlt.
    pose proof (ScoreFacts.part_submit_accept st h pts rid ref r Hrid Href Hr)
      as Hstep. simpl in Hstep.
    match type of Hstep with
    | _ = Ok (?s, [?e]) => set (st1 := s) in *; set (e1 := e) in *
    end.
    pose proof (part_exec_snoc random _ _ _ _ (Part000.SubmitScore h pts) _ _
                  Hexec Hstep) as Hexec'.
    assert (Part000.heap st1 !! ref
            = Some (Part000.set_scores
                      (PartSpec.credit h pts r (Part000.scores r)) r)) as Hr'.
    { unfold st1. simpl. rewrite list_lookup_insert_eq by done.
      unfold PartSpec.credit. by case_bool_decide. }
    eexists st1, e1, _,
      (Part000.set_scores (PartSpec.credit h pts r (Part000.scores r)) r).
    split; [exact Hstep|].
    split_and!; try done.
    + intros Hp. simpl. unfold PartSpec.credit.
      by rewrite bool_decide_true.
    + intros Hp. simpl. unfold PartSpec.credit.
      by rewrite bool_decide_false.
    + refine (LedgerFacts.ledger_exec random ref _ Part000.init PartSpec.zero
                st1 _ part_wf_init _ _ Hexec' _ Hr').
      * intros r0 Hr0. done.
      * done.
Qed.

Lemma score_update_carries_credited_sums_witness :
  ∃ st' e rs,
    ServerJs.step Scenario.rnd (Scenario.server_after Scenario.reidentify)
      (ServerJs.SubmitScore "B" (of_Z 3)) = Ok (st', [e]) ∧
    evname e = "score_update"%string ∧
    dest e = ToRoom "room_A_B"%string rs ∧
    payload e
    = Some (JObj [("p1", JDouble (of_Z 5)); ("p2", JDouble (of_Z 3))]%string).
Proof.
  destruct (proj1 (score_update_carries_credited_sums Scenario.rnd)
              Scenario.reidentify
              (Scenario.server_after Scenario.reidentify)
              (Scenario.server_emits Scenario.reidentify)
              "B"%string (of_Z 3) "room_A_B"%string 0%nat
              (Scenario.server_room Scenario.reidentify 0))
    as (st' & e & rs & u & u' & Hs & He & Hd & _ & _ & _ & _ & Hp).
  - vm_compute. reflexivity.
  - vm_compute. reflexivity.
  - vm_compute. reflexivity.
  - vm_compute. reflexivity.
  - exists st', e, rs. split_and!; try done.
Defined.

(** In [src/server.js], A and B are paired, A submits 10 points (accepted:
    the board shows 10 for A), identifies again while the match is
    registered, and submits 5 more (accepted): the board then shows 5 for A,
    not the 15 points of its two accepted submissions. *)
Lemma reidentify_resets_score :
  map Scenario.wire (Scenario.server_emits Scenario.reidentify)
  = [("waiting_opponent", None);
     ("match_found",
      Some (JObj [("p1", JObj [("uid", JStr "u1"); ("name", JStr "Ann");
                               ("avatar", JStr "a.png");
                               ("score", JDouble (of_Z 0))]);
                  ("p2", JObj [("uid", JStr "u2"); ("name", JStr "Bob");
                               ("avatar", JStr "b.png");
                               ("score", JDouble (of_Z 0))]);
                  ("roomId", JStr "room_A_B")]));
     ("score_update",
      Some (JObj [("p1", JDouble (of_Z 10)); ("p2", JDouble (of_Z 0))]));
     ("waiting_opponent", None);
     ("score_update",
      Some (JObj [("p1", JDouble (of_Z 5)); ("p2", JDouble (of_Z 0))]))
    ]%string ∧
  ServerJs.rooms (Scenario.server_after Scenario.reidentify)
    !! "room_A_B"%string = Some 0%nat ∧
  ((λ r, (ServerJs.p1 r, ServerJs.p2 r))
     <$> ServerJs.heap (Scenario.server_after Scenario.reidentify) !! 0%nat)
  = Some ("A", "B")%string ∧
  of_Z 5 ≠ add (of_Z 10) (of_Z 5).
Proof. split_and!; try (vm_compute; reflexivity). by vm_compute. Qed.

(** C6, as the code has it: destroying a match cancels only the countdown
    interval stored in the room's [timer] field, and only in
    [src/unnamed/part_000] on a disconnect.  [src/server.js] cancels
    nothing, and the one-shot timeouts (lobby delay, end of guessing,
    reveal pause) are never cancelled in either variant: a disconnect
    leaves them pending, the [game_over] step only consumes the timer that
    fired, and a timeout that fires for an unregistered room is dropped
    without emitting or scheduling anything. *)
Theorem destruction_cancels_stored_interval_only (random : nat → Z) :
  (∀ st h rid ref r,
     Part000.roomId (Part000.sock st h) = Some rid →
     Part000.rooms st !! rid = Some ref →
     Part000.heap st !! ref = Some r →
     ∃ st' e,
       Part000.step random st (Part000.Disconnect h) = Ok (st', [e]) ∧
       evname e = "opponent_left"%string ∧
       Part000.rooms st' !! rid = None ∧
       Part000.timers st'
       = match Part000.timer r with
         | Some tid => delete tid (Part000.timers st)
         | None => Part000.timers st
         end)
  ∧
  (∀ st h st' out,
     ServerJs.step random st (ServerJs.Disconnect h) = Ok (st', out) →
     ServerJs.timers st' = ServerJs.timers st)
  ∧
  (∀ st tid st' out e,
     ServerJs.step random st (ServerJs.Fire tid) = Ok (st', out) →
     e ∈ out → evname e = "game_over"%string →
     ServerJs.timers st' = delete tid (ServerJs.timers st))
  ∧
  (∀ st tid st' out e,
     Part000.step random st (Part000.Fire tid) = Ok (st', out) →
     e ∈ out → evname e = "game_over"%string →
     Part000.timers st' = delete tid (Part000.timers st))
  ∧
  (∀ st tid t,
     ServerJs.timers st !! tid = Some t →
     ServerJs.rooms st !! ServerSpec.callback_room (ServerJs.run t) = None →
     ∃ st',
       ServerJs.step random st (ServerJs.Fire tid) = Ok (st', []) ∧
       ServerJs.timers st' = delete tid (ServerJs.timers st) ∧
       ServerJs.next_timer st' = ServerJs.next_timer st)
  ∧
  (∀ st tid t rid,
     Part000.timers st !! tid = Some t →
     Part000.run t = Part000.StartRound rid →
     Part000.rooms st !! rid = None →
     ∃ st',
       Part000.step random st (Part000.Fire tid) = Ok (st', []) ∧
       Part000.timers st' = delete tid (Part000.timers st) ∧
       Part000.next_timer st' = Part000.next_timer st).
Proof.
  split_and!.
  - intros st h rid ref r Hrid Hr Hh.
    destruct (TimerFacts.part_disconnect_clears_interval
                random st h rid ref r Hrid Hr Hh)
      as (st' & e & Hs & He & Hrm & Ht & _).
    exists st', e. split_and!; try done. rewrite Hrm. apply lookup_delete_eq.
  - intros st h st' out Hs.
    by destruct (TimerFacts.disconnect_keeps_timers random st h st' out Hs).
  - intros st tid st' out e Hs He Hg.
    by destruct (TimerFacts.game_over_keeps_timers
                   random st tid st' out e Hs He Hg).
  - intros st tid st' out e Hs He Hg.
    by destruct (TimerFacts.part_game_over_keeps_timers
                   random st tid st' out e Hs He Hg).
  - intros st tid t Ht Hr. eexists.
    rewrite (QuietFacts.fire_unregistered random st tid t Ht Hr). done.
  - intros st tid t rid Ht Hrun Hr. eexists.
    rewrite (TimerFacts.part_late_timeout random st tid t rid Ht Hrun Hr).
    done.
Qed.

Lemma destruction_cancels_stored_interval_only_witness :
  Part000.timers (Scenario.part_after Scenario.guessing) !! 1%nat
  = Some {| Part000.delay := 1000; Part000.repeat := true;
            Part000.run := Part000.Countdown "room_A_B" 0 18 |} ∧
  ∃ st' e,
    Part000.step Scenario.rnd (Scenario.part_after Scenario.guessing)
      (Part000.Disconnect "B") = Ok (st', [e]) ∧
    evname e = "opponent_left"%string ∧
    Part000.rooms st' !! "room_A_B"%string = None ∧
    Part000.timers st' = ∅.
Proof.
  split; [vm_compute; reflexivity|].
  destruct (proj1 (destruction_cancels_stored_interval_only Scenario.rnd)
              (Scenario.part_after Scenario.guessing)
              "B"%string "room_A_B"%string 0%nat
              (Scenario.part_room Scenario.guessing 0))
    as (st' & e & Hs & He & Hr & Ht).
  - vm_compute. reflexivity.
  - vm_compute. reflexivity.
  - vm_compute. reflexivity.
  - exists st', e. split_and!; try done.
Defined.

(** After A leaves during the lobby delay ([src/server.js]) or during the
    reveal pause ([src/unnamed/part_000]), [room_A_B] is unregistered and
    the timeout it scheduled is still pending.  And in [src/server.js],
    after A and B are paired twice and the first lobby timer has fired, the
    registered room [room_A_B] has two timers outstanding. *)
Lemma destroyed_room_keeps_timers :
  (ServerJs.rooms (Scenario.server_after Scenario.lobby_leave)
     !! "room_A_B"%string = None ∧
   ServerJs.timers (Scenario.server_after Scenario.lobby_leave) !! 0%nat
   = Some {| ServerJs.delay := 3000;
             ServerJs.run := ServerJs.StartGameLoop "room_A_B" |}) ∧
  (Part000.rooms (Scenario.part_after Scenario.reveal_leave)
     !! "room_A_B"%string = None ∧
   Part000.timers (Scenario.part_after Scenario.reveal_leave) !! 2%nat
   = Some {| Part000.delay := 8000; Part000.repeat := false;
             Part000.run := Part000.StartRound "room_A_B" |}) ∧
  (ServerJs.rooms (Scenario.server_after Scenario.double_pairing)
     !! "room_A_B"%string = Some 1%nat ∧
   map_to_list
     (ServerSpec.outstanding "room_A_B"
        (Scenario.server_after Scenario.double_pairing))
   = [(2%nat, {| ServerJs.delay := 20000;
                 ServerJs.run := ServerJs.EndOfGuessing "room_A_B" 1 |});
      (1%nat, {| ServerJs.delay := 3000;
                 ServerJs.run := ServerJs.StartGameLoop "room_A_B" |})]).
Proof. split_and!; vm_compute; reflexivity. Qed.
(** C7, as the code has it: along a run in which every [identify] comes
    from a socket that is not, at that moment, a participant of a
    registered room, a socket is a participant of at most one registered
    room at a time.  The [identify] handler enrols the socket again
    whenever it is sent, so a socket that identifies again while its match
    is registered can be paired into a second one. *)
Theorem one_room_per_socket_enrolled_from_outside (random : nat → Z) :
  (∀ evs st out h rid1 rid2,
     ServerSpec.outsiders_only random ServerJs.init evs = true →
     ServerJs.exec random ServerJs.init evs = Ok (st, out) →
     ServerSpec.participant st h rid1 →
     ServerSpec.participant st h rid2 →
     rid1 = rid2)
  ∧
  (∀ evs st out h rid1 rid2,
     PartSpec.outsiders_only random Part000.init evs = true →
     Part000.exec random Part000.init evs = Ok (st, out) →
     PartSpec.participant st h rid1 →
     PartSpec.participant st h rid2 →
     rid1 = rid2).
Proof.
  split.
  - intros evs st out h rid1 rid2 Hout Hexec.
    eapply ServerSpec.lone_room.
    eapply (LoneFacts.lone_exec random evs ServerJs.init);
      [apply wf_init|apply LoneFacts.lone_init|done|done].
  - intros evs st out h rid1 rid2 Hout Hexec.
    eapply PartSpec.plone_room.
    eapply (LoneFacts.part_lone_exec random evs Part000.init);
      [apply part_wf_init|apply LoneFacts.part_lone_init|done|done].
Qed.

Lemma one_room_per_socket_enrolled_from_outside_witness :
  ServerSpec.participant
    (Scenario.server_after (Scenario.full_game ++ Scenario.rematch))
    "A" "room_A_B" ∧
  "room_A_B"%string = "room_A_B"%string.
Proof.
  assert (ServerSpec.participant
            (Scenario.server_after (Scenario.full_game ++ Scenario.rematch))
            "A" "room_A_B") as Hp.
  { eexists 1%nat, _. split_and!.
    - vm_compute. reflexivity.
    - vm_compute. reflexivity.
    - left. reflexivity. }
  split; [exact Hp|].
  apply (proj1 (one_room_per_socket_enrolled_from_outside Scenario.rnd)
           (Scenario.full_game ++ Scenario.rematch)
           (Scenario.server_after (Scenario.full_game ++ Scenario.rematch))
           (Scenario.server_emits (Scenario.full_game ++ Scenario.rematch))
           "A"%string).
  - vm_compute. reflexivity.
  - vm_compute. reflexivity.
  - exact Hp.
  - exact Hp.
Defined.

(** A is paired with B, identifies again and is paired with C: in both
    variants [room_A_B] and [room_A_C] are registered at the same time and
    A is [p1] of both. *)
Lemma second_identify_joins_second_room :
  (ServerJs.rooms (Scenario.server_after Scenario.two_rooms)
     !! "room_A_B"%string = Some 0%nat ∧
   ServerJs.rooms (Scenario.server_after Scenario.two_rooms)
     !! "room_A_C"%string = Some 1%nat ∧
   (λ r, (ServerJs.p1 r, ServerJs.p2 r))
     <$> ServerJs.heap (Scenario.server_after Scenario.two_rooms)
   = [("A", "B"); ("A", "C")]%string) ∧
  (Part000.rooms (Scenario.part_after Scenario.part_two_rooms)
     !! "room_A_B"%string = Some 0%nat ∧
   Part000.rooms (Scenario.part_after Scenario.part_two_rooms)
     !! "room_A_C"%string = Some 1%nat ∧
   (λ r, (Part000.p1 r, Part000.p2 r))
     <$> Part000.heap (Scenario.part_after Scenario.part_two_rooms)
   = [("A", "B"); ("A", "C")]%string) ∧
  ServerSpec.participant (Scenario.server_after Scenario.two_rooms)
    "A" "room_A_B" ∧
  ServerSpec.participant (Scenario.server_after Scenario.two_rooms)
    "A" "room_A_C" ∧
  "room_A_B"%string ≠ "room_A_C"%string.
Proof.
  split_and!; try (vm_compute; reflexivity).
  - eexists 0%nat, _. split_and!; [vm_compute; reflexivity..|by left].
  - eexists 1%nat, _. split_and!; [vm_compute; reflexivity..|by left].
  - done.
Qed.


(** C9, as the code has it: the [match_found] announcement of a pairing is
    the only emission of that step, goes to the room both participants have
    just joined, and carries the two profiles as [p1] and [p2]; the room id
    is a third field [roomId] in [src/server.js] only, the payload
    of [src/unnamed/part_000] consists of the two profiles. *)
Theorem match_found_reaches_both_with_profiles (random : nat → Z) :
  (∀ st h d w rest,
     ServerSpec.reachable random st →
     pop (ServerJs.queue st) = Some (w, rest) →
     ∃ st' e rs u1 p,
       ServerJs.step random st (ServerJs.Identify h (Some d)) = Ok (st', [e]) ∧
       evname e = "match_found"%string ∧
       dest e = ToRoom ("room_" +:+ w +:+ "_" +:+ h)%string rs ∧
       w ∈ rs ∧ h ∈ rs ∧
       ServerJs.user (ServerJs.sock st' w) = Some u1 ∧
       payload e = Some p ∧
       prop "p1" p = Some (ServerJs.user_json u1) ∧
       prop "p2" p
       = Some (ServerJs.user_json
                 {| ServerJs.data := d; ServerJs.score := of_Z 0 |}) ∧
       prop "roomId" p = Some (JStr ("room_" +:+ w +:+ "_" +:+ h)%string))
  ∧
  (∀ st h d w,
     PartSpec.reachable random st →
     Part000.waitingPlayer st = Some w →
     ∃ st' e rs u1,
       Part000.step random st (Part000.Identify h (Some d)) = Ok (st', [e]) ∧
       evname e = "match_found"%string ∧
       dest e = ToRoom ("room_" +:+ w +:+ "_" +:+ h)%string rs ∧
       w ∈ rs ∧ h ∈ rs ∧
       Part000.user (Part000.sock st' w) = Some u1 ∧
       payload e
       = Some (JObj [("p1", Part000.user_json u1);
                     ("p2", Part000.user_json d)]%string)).
Proof.
  split.
  - intros st h d w rest Hwf%ServerFacts.reachable_wf Hpop.
    destruct (ServerSpec.wf_queue_user _ Hwf w) as [u1 Hu1].
    { rewrite (pop_Some _ _ _ Hpop), elem_of_app, list_elem_of_singleton.
      by right. }
    set (st0 := ServerJs.set_user h
                  {| ServerJs.data := d; ServerJs.score := of_Z 0 |} st).
    destruct (ServerJs.generateDeck random 15 (ServerJs.rng st0))
      as [dk c] eqn:Hd.
    assert (∃ u, ServerJs.user (ServerJs.sock st0 w) = Some u) as [u1' Hu1'].
    { unfold st0. rewrite ServerFacts.user_set_user. case_decide; eauto. }
    eexists _, _, _, u1', _. simpl. fold st0.
    erewrite (ServerFacts.matchmake_pair random st0 h w rest dk c);
      [|done|done|done
       |unfold st0; rewrite ServerFacts.user_set_user; by rewrite decide_True].
    split; [done|]. split_and!; try done; try apply joined_both.
    by autorewrite with sockdb.
  - intros st h d w Hwf%PartFacts.part_reachable_wf Hw.
    destruct (PartSpec.pwf_waiting_user _ Hwf w Hw) as [u1 Hu1].
    set (st0 := Part000.set_user h d st).
    destruct (Part000.generateDeck random 15 (Part000.rng st0))
      as [dk c] eqn:Hd.
    assert (∃ u, Part000.user (Part000.sock st0 w) = Some u) as [u1' Hu1'].
    { unfold st0. rewrite PartFacts.part_user_set_user. case_decide; eauto. }
    eexists _, _, _, u1'. simpl. fold st0.
    erewrite (PartFacts.findMatch_pair random st0 h w dk c);
      [|done|done|done
       |unfold st0; rewrite PartFacts.part_user_set_user; by rewrite decide_True].
    split; [done|]. split_and!; try done; try apply joined_both.
    by autorewrite with partdb.
Qed.

Lemma match_found_reaches_both_with_profiles_witness :
  ∃ st' e rs u1 p,
    ServerJs.step Scenario.rnd
      (Scenario.server_after [ServerJs.Identify "A" (Some Scenario.ann)])
      (ServerJs.Identify "B" (Some Scenario.bob)) = Ok (st', [e]) ∧
    evname e = "match_found"%string ∧
    dest e = ToRoom "room_A_B"%string rs ∧
    "A"%string ∈ rs ∧ "B"%string ∈ rs ∧
    ServerJs.user (ServerJs.sock st' "A") = Some u1 ∧
    payload e = Some p ∧
    prop "p1" p = Some (ServerJs.user_json u1) ∧
    prop "p2" p
    = Some (ServerJs.user_json
              {| ServerJs.data := Scenario.bob; ServerJs.score := of_Z 0 |}) ∧
    prop "roomId" p = Some (JStr "room_A_B"%string).
Proof.
  apply (proj1 (match_found_reaches_both_with_profiles Scenario.rnd)
           (Scenario.server_after [ServerJs.Identify "A" (Some Scenario.ann)])
           "B"%string Scenario.bob "A"%string []).
  - exists [ServerJs.Identify "A" (Some Scenario.ann)],
           (Scenario.server_emits [ServerJs.Identify "A" (Some Scenario.ann)]).
    vm_compute. reflexivity.
  - vm_compute. reflexivity.
Defined.

(** In [src/unnamed/part_000] the announcement of the pairing of A and B,
    registered as [room_A_B], has the two profiles and no field holding the
    room id. *)
Lemma part_match_found_lacks_room_id :
  Part000.rooms
    (Scenario.part_after
       [Part000.Identify "A" (Some Scenario.ann);
        Part000.Identify "B" (Some Scenario.bob)])
    !! "room_A_B"%string = Some 0%nat ∧
  ∃ e p,
    Scenario.part_emits
      [Part000.Identify "A" (Some Scenario.ann);
       Part000.Identify "B" (Some Scenario.bob)]
    = [to_socket "A" "waiting_opponent" None; e] ∧
    evname e = "match_found"%string ∧ payload e = Some p ∧
    p = JObj [("p1", JObj [("uid", JStr "u1"); ("name", JStr "Ann");
                           ("avatar", JStr "a.png")]);
              ("p2", JObj [("uid", JStr "u2"); ("name", JStr "Bob");
                           ("avatar", JStr "b.png")])]%string ∧
    prop "roomId" p = None ∧
    ∀ k, prop k p ≠ Some (JStr "room_A_B"%string).
Proof.
  split; [vm_compute; reflexivity|].
  eexists _, _. split; [vm_compute; reflexivity|].
  split_and!; try reflexivity.
  intros k. simpl. repeat case_decide; done.
Qed.
(** C10, as the code has it: [submit_score] does not validate [points].  An
    accepted submission of any number, negative ones included, makes the
    submitter's cumulative score the JavaScript sum of the score before and
    [points], which is their binary64 sum (in [src/unnamed/part_000] the
    score credited is [scores.p1] for the socket that is [p1] and
    [scores.p2] otherwise).  That sum is the exact one whenever both are
    integers and the result lies within [-2^53, 2^53], and the sum of two
    doubles is a double; a score can go below zero. *)
Theorem submit_score_adds_any_points :
  (∀ random st h points rid,
     ServerSpec.reachable random st →
     ServerJs.roomId (ServerJs.sock st h) = Some rid →
     is_Some (ServerJs.rooms st !! rid) →
     ∃ st' out u u',
       ServerJs.step random st (ServerJs.SubmitScore h points) = Ok (st', out) ∧
       ServerJs.user (ServerJs.sock st h) = Some u ∧
       ServerJs.user (ServerJs.sock st' h) = Some u' ∧
       ServerJs.score u' = add (ServerJs.score u) points)
  ∧
  (∀ random st h points rid ref r,
     Part000.roomId (Part000.sock st h) = Some rid →
     Part000.rooms st !! rid = Some ref →
     Part000.heap st !! ref = Some r →
     ∃ st' out r',
       Part000.step random st (Part000.SubmitScore h points) = Ok (st', out) ∧
       Part000.heap st' !! ref = Some r' ∧
       (h = Part000.p1 r →
        Part000.sp1 (Part000.scores r')
        = add (Part000.sp1 (Part000.scores r)) points) ∧
       (h ≠ Part000.p1 r →
        Part000.sp2 (Part000.scores r')
        = add (Part000.sp2 (Part000.scores r)) points))
  ∧
  (∀ a b,
     is_double (of_Z a) = true → is_double (of_Z b) = true →
     Z.abs (a + b) ≤ 2 ^ 53 → add (of_Z a) (of_Z b) = of_Z (a + b))
  ∧
  (∀ x y, is_double x = true → is_double y = true →
          is_double (add x y) = true)
  ∧
  (∃ u,
     ServerJs.user
       (ServerJs.sock
          (Scenario.server_after
             [ServerJs.Identify "A" (Some Scenario.ann);
              ServerJs.Identify "B" (Some Scenario.bob);
              ServerJs.SubmitScore "A" (of_Z (-5))]) "A") = Some u ∧
     ServerJs.score u = of_Z (-5)).
Proof.
  split_and!.
  - intros random st h pts rid Hwf%reachable_wf Hrid [ref Href].
    destruct (ServerSpec.wf_room_user _ Hwf _ _ Hrid) as [u Hu].
    destruct (ServerSpec.wf_rooms _ Hwf _ _ Href) as [r Hr].
    destruct (ServerSpec.wf_players _ Hwf _ _ Hr) as [[u1 Hu1] [u2 Hu2]].
    set (u' := {| ServerJs.data := ServerJs.data u;
                  ServerJs.score := add (ServerJs.score u) pts |}).
    assert (∃ v1, ServerJs.user (ServerJs.sock (ServerJs.set_user h u' st)
                                   (ServerJs.p1 r)) = Some v1) as [v1 Hv1].
    { rewrite user_set_user. case_decide; eauto. }
    assert (∃ v2, ServerJs.user (ServerJs.sock (ServerJs.set_user h u' st)
                                   (ServerJs.p2 r)) = Some v2) as [v2 Hv2].
    { rewrite user_set_user. case_decide; eauto. }
    eexists _, _, u, u'. simpl.
    erewrite ScoreFacts.server_submit_accept by done.
    split_and!; try done. rewrite user_set_user. by rewrite decide_True.
  - intros random st h pts rid ref r Hrid Href Hr.
    pose proof (lookup_lt_Some _ _ _ Hr) as Hlt.
    eexists _, _, _. simpl.
    erewrite ScoreFacts.part_submit_accept by done.
    split; [done|]. simpl. rewrite list_lookup_insert_eq by done.
    split; [done|]. simpl.
    split; intros Hp; [rewrite bool_decide_true by done
                      |rewrite bool_decide_false by done]; done.
  - intros a b _ _. apply add_of_Z.
  - apply add_double.
  - eexists. split; vm_compute; reflexivity.
Qed.

Lemma submit_score_adds_any_points_witness :
  ∃ st' out u u',
    ServerJs.step Scenario.rnd (Scenario.server_after Play.paired)
      (ServerJs.SubmitScore "B" (of_Z (-100))) = Ok (st', out) ∧
    ServerJs.user (ServerJs.sock (Scenario.server_after Play.paired) "B")
    = Some u ∧
    ServerJs.user (ServerJs.sock st' "B") = Some u' ∧
    ServerJs.score u' = add (ServerJs.score u) (of_Z (-100)).
Proof.
  apply (proj1 submit_score_adds_any_points Scenario.rnd
           (Scenario.server_after Play.paired)
           "B"%string (of_Z (-100)) "room_A_B"%string).
  - exists Play.paired, (Scenario.server_emits Play.paired).
    vm_compute. reflexivity.
  - vm_compute. reflexivity.
  - exists 0%nat. vm_compute. reflexivity.
Defined.

(** In [src/server.js], A and B are paired and A submits [2^53] (accepted):
    its score is [2^53].  A then submits 1 (accepted): its score is still
    [2^53], not the score before plus 1. *)
Lemma large_score_absorbs_one_point :
  ∃ u u',
    ServerJs.user (ServerJs.sock (Scenario.server_after Play.large) "A")
    = Some u ∧
    ServerJs.user
      (ServerJs.sock
         (Play.server_next Play.large (ServerJs.SubmitScore "A" (of_Z 1)))
         "A") = Some u' ∧
    map Scenario.wire
      (Play.server_says Play.large (ServerJs.SubmitScore "A" (of_Z 1)))
    = [("score_update",
        Some (JObj [("p1", JDouble (of_Z (2 ^ 53)));
                    ("p2", JDouble (of_Z 0))]))]%string ∧
    units (ServerJs.score u) = Some (2 ^ 53 * 2 ^ 1074) ∧
    units (of_Z 1) = Some (2 ^ 1074) ∧
    units (ServerJs.score u') = Some (2 ^ 53 * 2 ^ 1074) ∧
    2 ^ 53 * 2 ^ 1074 ≠ 2 ^ 53 * 2 ^ 1074 + 2 ^ 1074.
Proof.
  eexists _, _. split_and!; try (vm_compute; reflexivity).
  vm_compute. discriminate.
Qed.

(** * Further properties of the two servers *)

(** X1: no step removes a room object from the store or rewrites the fields
    set when it was built: [id], [p1], [p2], [maxRounds] and [deck] (and
    [phase] in [src/server.js]) are the same after the step. *)
Theorem room_fields_written_once (random : nat → Z) :
  (∀ st ev st' out ref r,
     ServerJs.step random st ev = Ok (st', out) →
     ServerJs.heap st !! ref = Some r →
     ∃ r', ServerJs.heap st' !! ref = Some r' ∧
           ServerJs.id r' = ServerJs.id r ∧
           ServerJs.p1 r' = ServerJs.p1 r ∧ ServerJs.p2 r' = ServerJs.p2 r ∧
           ServerJs.maxRounds r' = ServerJs.maxRounds r ∧
           ServerJs.phase r' = ServerJs.phase r ∧
           ServerJs.deck r' = ServerJs.deck r)
  ∧
  (∀ st ev st' out ref r,
     Part000.step random st ev = Ok (st', out) →
     Part000.heap st !! ref = Some r →
     ∃ r', Part000.heap st' !! ref = Some r' ∧
           Part000.id r' = Part000.id r ∧
           Part000.p1 r' = Part000.p1 r ∧ Part000.p2 r' = Part000.p2 r ∧
           Part000.maxRounds r' = Part000.maxRounds r ∧
           Part000.deck r' = Part000.deck r).
Proof.
  split.
  - intros st ev st' out ref r Hs Hr.
    apply (StoreFacts.step_static random st ev st' out ref r Hs Hr).
  - intros st ev st' out ref r Hs Hr.
    apply (PartStoreFacts.part_step_static random st ev st' out ref r Hs Hr).
Qed.

Lemma room_fields_written_once_witness :
  ∃ r',
    ServerJs.heap (Play.server_next Play.paired (ServerJs.Fire 0)) !! 0%nat
    = Some r' ∧
    ServerJs.round r' = 1 ∧
    ServerJs.deck r' = ServerJs.deck (Scenario.server_room Play.paired 0).
Proof.
  destruct (proj1 (room_fields_written_once Scenario.rnd)
              (Scenario.server_after Play.paired) (ServerJs.Fire 0)
              (Play.server_next Play.paired (ServerJs.Fire 0))
              (Play.server_says Play.paired (ServerJs.Fire 0))
              0%nat (Scenario.server_room Play.paired 0))
    as (r' & Hr' & _ & _ & _ & _ & _ & Hdeck).
  - vm_compute. reflexivity.
  - vm_compute. reflexivity.
  - exists r'. split; [exact Hr'|]. split; [|exact Hdeck].
    revert Hr'. vm_compute. by intros [= <-].
Defined.

(** X2: in every reachable state a room object is named after its two
    participants, [id = "room_" + p1.id + "_" + p2.id], and the registry
    files every registered room object under that id. *)
Theorem rooms_filed_under_their_id (random : nat → Z) :
  (∀ st ref r,
     ServerSpec.reachable random st → ServerJs.heap st !! ref = Some r →
     ServerJs.id r
     = ("room_" +:+ ServerJs.p1 r +:+ "_" +:+ ServerJs.p2 r)%string)
  ∧
  (∀ st rid ref,
     ServerSpec.reachable random st → ServerJs.rooms st !! rid = Some ref →
     ∃ r, ServerJs.heap st !! ref = Some r ∧ ServerJs.id r = rid)
  ∧
  (∀ st ref r,
     PartSpec.reachable random st → Part000.heap st !! ref = Some r →
     Part000.id r
     = ("room_" +:+ Part000.p1 r +:+ "_" +:+ Part000.p2 r)%string)
  ∧
  (∀ st rid ref,
     PartSpec.reachable random st → Part000.rooms st !! rid = Some ref →
     ∃ r, Part000.heap st !! ref = Some r ∧ Part000.id r = rid).
Proof.
  split_and!.
  - intros st ref r Hre Hr.
    by destruct (ServerInv.sound_named _ (StoreFacts.reachable_sound _ _ Hre)
                   _ _ Hr).
  - intros st rid ref Hre Hrid.
    destruct (ServerSpec.wf_rooms _ (reachable_wf _ _ Hre) _ _ Hrid) as [r Hr].
    exists r. split; [done|].
    by eapply ServerInv.sound_key, Hr; [eapply StoreFacts.reachable_sound|].
  - intros st ref r Hre Hr.
    by eapply PartInv.psound_named, Hr; eapply PartStoreFacts.part_reachable_sound.
  - intros st rid ref Hre Hrid.
    destruct (PartSpec.pwf_rooms _ (part_reachable_wf _ _ Hre) _ _ Hrid)
      as [r Hr].
    exists r. split; [done|].
    by eapply PartInv.psound_key, Hr;
      [eapply PartStoreFacts.part_reachable_sound|].
Qed.

Lemma rooms_filed_under_their_id_witness :
  ∃ r,
    ServerJs.heap (Scenario.server_after Scenario.two_rooms) !! 1%nat = Some r ∧
    ServerJs.id r = "room_A_C"%string.
Proof.
  apply (proj1 (proj2 (rooms_filed_under_their_id Scenario.rnd))
           (Scenario.server_after Scenario.two_rooms) "room_A_C"%string 1%nat).
  - exists Scenario.two_rooms, (Scenario.server_emits Scenario.two_rooms).
    vm_compute. reflexivity.
  - vm_compute. reflexivity.
Defined.

(** X3: [src/server.js] never updates the [phase] of a room: in every
    reachable state, whatever the round, it is still ['lobby']. *)
Theorem server_phase_stays_lobby (random : nat → Z) :
  ∀ st ref r,
    ServerSpec.reachable random st → ServerJs.heap st !! ref = Some r →
    ServerJs.phase r = "lobby"%string.
Proof.
  intros st ref r Hre Hr.
  by destruct (ServerInv.sound_named _ (StoreFacts.reachable_sound _ _ Hre)
                 _ _ Hr).
Qed.

Lemma server_phase_stays_lobby_witness :
  ServerJs.round (Scenario.server_room Scenario.full_game 0) = 15 ∧
  ServerJs.phase (Scenario.server_room Scenario.full_game 0) = "lobby"%string.
Proof.
  split; [vm_compute; reflexivity|].
  apply (server_phase_stays_lobby Scenario.rnd
           (Scenario.server_after Scenario.full_game) 0%nat).
  - exists Scenario.full_game, (Scenario.server_emits Scenario.full_game).
    vm_compute. reflexivity.
  - vm_compute. reflexivity.
Defined.

(** X4: in every reachable state the [roomId] of a socket is the id of a
    room object of which the socket is [p1] or [p2]: a [roomId] is only
    ever set by the pairing that builds that room. *)
Theorem room_id_of_socket_names_its_room (random : nat → Z) :
  (∀ st h rid,
     ServerSpec.reachable random st →
     ServerJs.roomId (ServerJs.sock st h) = Some rid →
     ∃ ref r, ServerJs.heap st !! ref = Some r ∧ ServerJs.id r = rid ∧
              (ServerJs.p1 r = h ∨ ServerJs.p2 r = h))
  ∧
  (∀ st h rid,
     PartSpec.reachable random st →
     Part000.roomId (Part000.sock st h) = Some rid →
     ∃ ref r, Part000.heap st !! ref = Some r ∧ Part000.id r = rid ∧
              (Part000.p1 r = h ∨ Part000.p2 r = h)).
Proof.
  split.
  - intros st h rid Hre.
    apply ServerInv.sound_roomId. by eapply StoreFacts.reachable_sound.
  - intros st h rid Hre.
    apply PartInv.psound_roomId. by eapply PartStoreFacts.part_reachable_sound.
Qed.

Lemma room_id_of_socket_names_its_room_witness :
  ∃ ref r,
    ServerJs.heap (Scenario.server_after Scenario.two_rooms) !! ref = Some r ∧
    ServerJs.id r = "room_A_C"%string ∧
    (ServerJs.p1 r = "A"%string ∨ ServerJs.p2 r = "A"%string).
Proof.
  apply (proj1 (room_id_of_socket_names_its_room Scenario.rnd)
           (Scenario.server_after Scenario.two_rooms) "A"%string).
  - exists Scenario.two_rooms, (Scenario.server_emits Scenario.two_rooms).
    vm_compute. reflexivity.
  - vm_compute. reflexivity.
Defined.

(** X5: every [round_start] the servers emit is well formed: its round
    number lies between 1 and 15, [songIndex] is the deck entry of that
    round (position [round - 1] of the deck dealt when the room was built,
    never [undefined]) and an index of the catalog in [0, 300), [seekTime]
    lies between 40 and 50 inclusive and [duration] is 20. *)
Theorem round_start_is_well_formed (random : nat → Z)
    (Hrandom : ∀ i, 0 ≤ random i < 2 ^ 53) :
  (∀ st ev st' out e,
     ServerSpec.reachable random st →
     ServerJs.step random st ev = Ok (st', out) → e ∈ out →
     evname e = "round_start"%string →
     ∃ ref r' n k s,
       ServerJs.heap st' !! ref = Some r' ∧ ServerJs.round r' = n ∧
       1 ≤ n ≤ 15 ∧
       ServerJs.deck r' !! Z.to_nat (n - 1) = Some k ∧ 0 ≤ k < 300 ∧
       40 ≤ s ≤ 50 ∧
       payload e
       = Some (JObj [("round", JNum n); ("songIndex", JNum k);
                     ("seekTime", JNum s); ("duration", JNum 20)]%string))
  ∧
  (∀ st ev st' out e,
     PartSpec.reachable random st →
     Part000.step random st ev = Ok (st', out) → e ∈ out →
     evname e = "round_start"%string →
     ∃ ref r' n k s,
       Part000.heap st' !! ref = Some r' ∧ Part000.round r' = n ∧
       1 ≤ n ≤ 15 ∧
       Part000.deck r' !! Z.to_nat (n - 1) = Some k ∧ 0 ≤ k < 300 ∧
       40 ≤ s ≤ 50 ∧
       payload e
       = Some (JObj [("round", JNum n); ("songIndex", JNum k);
                     ("seekTime", JNum s); ("duration", JNum 20)]%string)).
Proof.
  split.
  - intros st ev st' out e Hre Hs He Hname.
    destruct (RoundStartFacts.step_round_start random _ _ _ _ _ Hs He Hname)
      as (ref & r & r' & Hr & Hr' & Hlt & Hrd & Hdk & Hp).
    destruct (ServerSpec.wf_round _ (reachable_wf _ _ Hre) _ _ Hr)
      as (Hr0 & Hmax & Hlen).
    pose proof (StoreFacts.reachable_decks_ok random st Hrandom Hre _ _ Hr)
      as Hdeck.
    destruct (lookup_lt_is_Some_2 (ServerJs.deck r)
                (Z.to_nat (ServerJs.round r))) as [k Hk]; [lia|].
    pose proof (proj1 (Forall_lookup _ _) Hdeck _ _ Hk) as Hrange.
    pose proof (floor_random_times_range
                  (random (ServerJs.rng st)) 11 (Hrandom _) ltac:(lia)).
    exists ref, r', (ServerJs.round r + 1), k,
      (floor_random_times (random (ServerJs.rng st)) 11 + 40).
    rewrite Hp, Hrd, Hdk. unfold index.
    replace (ServerJs.round r + 1 - 1) with (ServerJs.round r) by lia.
    rewrite (proj2 (Z.ltb_ge _ _)) by lia. rewrite Hk.
    split_and!; try done; try lia; apply Hrange.
  - intros st ev st' out e Hre Hs He Hname.
    destruct (RoundStartFacts.part_step_round_start random _ _ _ _ _ Hs He Hname)
      as (ref & r & r' & Hr & Hr' & Hlt & Hrd & Hdk & Hp).
    destruct (PartSpec.pwf_round _ (part_reachable_wf _ _ Hre) _ _ Hr)
      as (Hr0 & Hmax & Hlen).
    pose proof (PartStoreFacts.part_reachable_decks_ok random st Hrandom Hre
                  _ _ Hr) as Hdeck.
    destruct (lookup_lt_is_Some_2 (Part000.deck r)
                (Z.to_nat (Part000.round r))) as [k Hk]; [lia|].
    pose proof (proj1 (Forall_lookup _ _) Hdeck _ _ Hk) as Hrange.
    pose proof (floor_random_times_range
                  (random (Part000.rng st)) 11 (Hrandom _) ltac:(lia)).
    exists ref, r', (Part000.round r + 1), k,
      (floor_random_times (random (Part000.rng st)) 11 + 40).
    rewrite Hp, Hrd, Hdk. unfold index.
    replace (Part000.round r + 1 - 1) with (Part000.round r) by lia.
    rewrite (proj2 (Z.ltb_ge _ _)) by lia. rewrite Hk.
    split_and!; try done; try lia; apply Hrange.
Qed.

Lemma round_start_is_well_formed_witness :
  ∃ ref r' n k s,
    ServerJs.heap (Play.server_next Play.paired (ServerJs.Fire 0)) !! ref
    = Some r' ∧ ServerJs.round r' = n ∧ 1 ≤ n ≤ 15 ∧
    ServerJs.deck r' !! Z.to_nat (n - 1) = Some k ∧ 0 ≤ k < 300 ∧
    40 ≤ s ≤ 50 ∧
    payload
      (default (to_socket EmptyString "none" None)
         (head (Play.server_says Play.paired (ServerJs.Fire 0))))
    = Some (JObj [("round", JNum n); ("songIndex", JNum k);
                  ("seekTime", JNum s); ("duration", JNum 20)]%string).
Proof.
  destruct (proj1 (round_start_is_well_formed Scenario.rnd
                     ScenarioFacts.rnd_range)
              (Scenario.server_after Play.paired) (ServerJs.Fire 0)
              (Play.server_next Play.paired (ServerJs.Fire 0))
              (Play.server_says Play.paired (ServerJs.Fire 0))
              (default (to_socket EmptyString "none" None)
                 (head (Play.server_says Play.paired (ServerJs.Fire 0)))))
    as (ref & r' & n & k & s & H1 & H2 & H3 & H4 & H5 & H6 & H7).
  - exists Play.paired, (Scenario.server_emits Play.paired).
    vm_compute. reflexivity.
  - vm_compute. reflexivity.
  - vm_compute. apply list_elem_of_singleton. reflexivity.
  - vm_compute. reflexivity.
  - exists ref, r', n, k, s. repeat split; assumption || lia.
Defined.

(** X6: the only [TypeError] is that of an [identify] without payload.  In
    every state the servers reach from their initial state, a
    [submit_score], a [disconnect], a timer firing and an [identify] that
    carries its payload are handled to the end: the reads of [socket.user]
    and of the room object never meet [undefined].  An [identify] whose
    payload is missing raises in every state, at the first read of a
    property of [socket.user].  The pairing reads the [user] of the waiting
    socket too: in a state where a socket without [user] waits, the next
    [identify] raises. *)
Theorem only_identify_without_payload_throws (random : nat → Z) :
  (∀ st ev, ServerSpec.reachable random st →
     ServerSpec.has_payload ev = true →
     ∃ st' out, ServerJs.step random st ev = Ok (st', out))
  ∧
  (∀ st ev, PartSpec.reachable random st →
     PartSpec.has_payload ev = true →
     ∃ st' out, Part000.step random st ev = Ok (st', out))
  ∧
  (∀ st h,
     ServerJs.step random st (ServerJs.Identify h None) = Throw ∧
     ∀ evs, ServerJs.exec random st (ServerJs.Identify h None :: evs) = Throw)
  ∧
  (∀ st h,
     Part000.step random st (Part000.Identify h None) = Throw ∧
     ∀ evs, Part000.exec random st (Part000.Identify h None :: evs) = Throw)
  ∧
  (∀ st h d opp rest,
     pop (ServerJs.queue st) = Some (opp, rest) → opp ≠ h →
     ServerJs.user (ServerJs.sock st opp) = None →
     ServerJs.step random st (ServerJs.Identify h (Some d)) = Throw)
  ∧
  (∀ st h d opp,
     Part000.waitingPlayer st = Some opp → opp ≠ h →
     Part000.user (Part000.sock st opp) = None →
     Part000.step random st (Part000.Identify h (Some d)) = Throw).
Proof.
  split_and!.
  - intros st ev Hre Hev. apply (step_total random); [|done].
    by apply (reachable_wf random).
  - intros st ev Hre Hev. apply (part_step_total random); [|done].
    by apply (part_reachable_wf random).
  - done.
  - done.
  - intros st h d opp rest Hpop Hne Hu. simpl.
    unfold ServerJs.matchmake.
    change (ServerJs.queue (ServerJs.set_user h _ st)) with (ServerJs.queue st).
    rewrite Hpop.
    destruct (ServerJs.generateDeck random 15 _) as [dk c]. simpl.
    autorewrite with sockdb.
    destruct (decide (h = opp)) as [->|_]; [done|]. by rewrite Hu.
  - intros st h d opp Hw Hne Hu. simpl.
    unfold Part000.findMatch.
    change (Part000.waitingPlayer (Part000.set_user h d st))
      with (Part000.waitingPlayer st).
    rewrite Hw.
    destruct (Part000.generateDeck random 15 _) as [dk c]. simpl.
    autorewrite with partdb.
    destruct (decide (h = opp)) as [->|_]; [done|]. by rewrite Hu.
Qed.

Lemma only_identify_without_payload_throws_witness :
  ∃ st' out,
    ServerJs.step Scenario.rnd (Scenario.server_after Play.paired)
      (ServerJs.SubmitScore "A" (of_Z 100)) = Ok (st', out).
Proof.
  apply (proj1 (only_identify_without_payload_throws Scenario.rnd)
           (Scenario.server_after Play.paired)
           (ServerJs.SubmitScore "A" (of_Z 100))).
  - exists Play.paired, (Scenario.server_emits Play.paired).
    vm_compute. reflexivity.
  - reflexivity.
Defined.

(** X7: a room never leaves the registry silently, and the two closing
    events are never sent for a room that stays.  A step sends
    [opponent_left] or [game_over] to room [rid] exactly when [rid] was
    registered before the step and is no longer registered after it. *)
Theorem room_is_unregistered_with_a_farewell (random : nat → Z) :
  (∀ st ev st' out rid,
     ServerJs.step random st ev = Ok (st', out) →
     (∃ e rs, e ∈ out ∧ dest e = ToRoom rid rs ∧
              (evname e = "opponent_left" ∨ evname e = "game_over")%string)
     ↔ is_Some (ServerJs.rooms st !! rid) ∧ ServerJs.rooms st' !! rid = None)
  ∧
  (∀ st ev st' out rid,
     Part000.step random st ev = Ok (st', out) →
     (∃ e rs, e ∈ out ∧ dest e = ToRoom rid rs ∧
              (evname e = "opponent_left" ∨ evname e = "game_over")%string)
     ↔ is_Some (Part000.rooms st !! rid) ∧ Part000.rooms st' !! rid = None).
Proof.
  split; intros st ev st' out rid Hs.
  - by apply (FarewellFacts.step_farewell random st ev).
  - by apply (FarewellFacts.part_step_farewell random st ev).
Qed.

Lemma room_is_unregistered_with_a_farewell_witness :
  ∃ e rs,
    e ∈ Play.part_says Play.part_paired (Part000.Disconnect "B") ∧
    dest e = ToRoom "room_A_B" rs ∧
    (evname e = "opponent_left" ∨ evname e = "game_over")%string.
Proof.
  apply (proj2 (proj2 (room_is_unregistered_with_a_farewell Scenario.rnd)
                  (Scenario.part_after Play.part_paired)
                  (Part000.Disconnect "B")
                  (Play.part_next Play.part_paired (Part000.Disconnect "B"))
                  (Play.part_says Play.part_paired (Part000.Disconnect "B"))
                  "room_A_B"%string ltac:(vm_compute; reflexivity))).
  split; [exists 0%nat|]; vm_compute; reflexivity.
Defined.

(** X8: a match is closed at most once.  Along any run of either server
    from its initial state, the [game_over] and [opponent_left] emissions
    together with the rooms still registered at the end never outnumber
    the [match_found] emissions. *)
Theorem match_is_closed_at_most_once (random : nat → Z) :
  (∀ evs st out,
     ServerJs.exec random ServerJs.init evs = Ok (st, out) →
     Wire.count "game_over" out + Wire.count "opponent_left" out
       + Z.of_nat (size (ServerJs.rooms st))
     ≤ Wire.count "match_found" out)
  ∧
  (∀ evs st out,
     Part000.exec random Part000.init evs = Ok (st, out) →
     Wire.count "game_over" out + Wire.count "opponent_left" out
       + Z.of_nat (size (Part000.rooms st))
     ≤ Wire.count "match_found" out).
Proof.
  split; intros evs st out He.
  - destruct (TallyFacts.exec_tally random _ _ _ _ He) as (_ & _ & H).
    revert H. simpl. rewrite map_size_empty. lia.
  - destruct (TallyFacts.part_exec_tally random _ _ _ _ He) as (_ & _ & H).
    revert H. simpl. rewrite map_size_empty. lia.
Qed.

Lemma match_is_closed_at_most_once_witness :
  Wire.count "game_over" (Scenario.server_emits Scenario.lobby_leave)
    + Wire.count "opponent_left" (Scenario.server_emits Scenario.lobby_leave)
    + Z.of_nat (size (ServerJs.rooms
                        (Scenario.server_after Scenario.lobby_leave)))
  ≤ Wire.count "match_found" (Scenario.server_emits Scenario.lobby_leave).
Proof.
  apply (proj1 (match_is_closed_at_most_once Scenario.rnd)
           Scenario.lobby_leave).
  vm_compute. reflexivity.
Defined.

(** X9: the [round_start] emissions of a run are the rounds the room
    objects have played: their number is the sum of the round counters at
    the end of the run, one room object has been built per [match_found],
    and so a run announces at most 15 rounds per match found. *)
Theorem rounds_announced_are_rounds_played (random : nat → Z) :
  (∀ evs st out,
     ServerJs.exec random ServerJs.init evs = Ok (st, out) →
     Wire.count "round_start" out = ServerInv.rounds_played st ∧
     Wire.count "match_found" out = Z.of_nat (length (ServerJs.heap st)) ∧
     Wire.count "round_start" out ≤ 15 * Wire.count "match_found" out)
  ∧
  (∀ evs st out,
     Part000.exec random Part000.init evs = Ok (st, out) →
     Wire.count "round_start" out = PartInv.rounds_played st ∧
     Wire.count "match_found" out = Z.of_nat (length (Part000.heap st)) ∧
     Wire.count "round_start" out ≤ 15 * Wire.count "match_found" out).
Proof.
  split; intros evs st out He.
  - destruct (TallyFacts.exec_tally random _ _ _ _ He) as (Hm & Hr & _).
    revert Hm Hr. unfold ServerInv.rounds_played at 2. simpl.
    intros Hm Hr. split; [lia|]. split; [lia|].
    rewrite Hr, Hm, Z.sub_0_r, Z.sub_0_r.
    apply TallyFacts.sum_bound. intros i r Hi.
    assert (ServerSpec.wf st) as Hwf by (apply (reachable_wf random); by exists evs, out).
    destruct (ServerSpec.wf_round _ Hwf _ _ Hi). lia.
  - destruct (TallyFacts.part_exec_tally random _ _ _ _ He) as (Hm & Hr & _).
    revert Hm Hr. unfold PartInv.rounds_played at 2. simpl.
    intros Hm Hr. split; [lia|]. split; [lia|].
    rewrite Hr, Hm, Z.sub_0_r, Z.sub_0_r.
    apply TallyFacts.sum_bound. intros i r Hi.
    assert (PartSpec.wf st) as Hwf
      by (apply (part_reachable_wf random); by exists evs, out).
    destruct (PartSpec.pwf_round _ Hwf _ _ Hi). lia.
Qed.

Lemma rounds_announced_are_rounds_played_witness :
  Wire.count "round_start" (Scenario.server_emits Scenario.full_game)
  = ServerInv.rounds_played (Scenario.server_after Scenario.full_game) ∧
  Wire.count "match_found" (Scenario.server_emits Scenario.full_game)
  = Z.of_nat
      (length (ServerJs.heap (Scenario.server_after Scenario.full_game))) ∧
  Wire.count "round_start" (Scenario.server_emits Scenario.full_game)
  ≤ 15 * Wire.count "match_found" (Scenario.server_emits Scenario.full_game).
Proof.
  apply (proj1 (rounds_announced_are_rounds_played Scenario.rnd)
           Scenario.full_game).
  vm_compute. reflexivity.
Defined.

(** X10: what a [disconnect] does.  The handler closes at most the room
    the leaving socket's [roomId] names: every other registry entry, all
    sockets (the stale [roomId] and the scores included) and all room
    objects stay as they are.  It emits nothing, or one [opponent_left]
    without payload to that room, which the leaving socket, already out of
    its rooms, does not receive.  Afterwards the socket is not waiting for
    an opponent (in [src/server.js] because a reachable queue holds each
    socket at most once). *)
Theorem disconnect_closes_own_room_only (random : nat → Z) :
  (∀ st h st' out,
     ServerSpec.reachable random st →
     ServerJs.step random st (ServerJs.Disconnect h) = Ok (st', out) →
     ServerJs.sockets st' = ServerJs.sockets st ∧
     ServerJs.heap st' = ServerJs.heap st ∧
     (∀ rid, ServerJs.roomId (ServerJs.sock st h) ≠ Some rid →
        ServerJs.rooms st' !! rid = ServerJs.rooms st !! rid) ∧
     (length out ≤ 1)%nat ∧
     (∀ e, e ∈ out →
        ∃ rid rs, ServerJs.roomId (ServerJs.sock st h) = Some rid ∧
                  dest e = ToRoom rid rs ∧ (h ∉ rs) ∧
                  evname e = "opponent_left"%string ∧ payload e = None) ∧
     h ∉ ServerJs.queue st')
  ∧
  (∀ st h st' out,
     Part000.step random st (Part000.Disconnect h) = Ok (st', out) →
     Part000.sockets st' = Part000.sockets st ∧
     Part000.heap st' = Part000.heap st ∧
     (∀ rid, Part000.roomId (Part000.sock st h) ≠ Some rid →
        Part000.rooms st' !! rid = Part000.rooms st !! rid) ∧
     (length out ≤ 1)%nat ∧
     (∀ e, e ∈ out →
        ∃ rid rs, Part000.roomId (Part000.sock st h) = Some rid ∧
                  dest e = ToRoom rid rs ∧ (h ∉ rs) ∧
                  evname e = "opponent_left"%string ∧ payload e = None) ∧
     Part000.waitingPlayer st' ≠ Some h).
Proof.
  assert (∀ (ms : gmap string (gset string)) h rid,
            h ∉ default (∅ : gset string) (leave_all h ms !! rid)) as Hleft.
  { intros ms h rid. unfold leave_all. rewrite lookup_fmap.
    destruct (ms !! rid); simpl; set_solver. }
  split.
  - intros st h st' out Hre.
    pose proof (ServerSpec.wf_queue_len _ (reachable_wf random _ Hre)) as Hlen.
    assert (h ∉ remove_first h (ServerJs.queue st)) as Hq.
    { destruct (ServerJs.queue st) as [|x [|y q]]; simpl in *;
        [set_solver| |lia]. case_decide; set_solver. }
    simpl. unfold ServerJs.on_disconnect. simpl.
    change (ServerJs.sock (ServerJs.set_queue _ (ServerJs.set_members _ st)) h)
      with (ServerJs.sock st h).
    destruct (ServerJs.roomId (ServerJs.sock st h)) as [rid|] eqn:Hrid;
      [destruct (ServerJs.rooms st !! rid) as [ref|] eqn:Href|];
      intros [= <- <-]; simpl; split_and!; try done; try lia.
    + intros rid' Hne. apply lookup_delete_ne. congruence.
    + intros e ->%list_elem_of_singleton. eexists rid, _.
      split_and!; try done; apply Hleft.
    + by intros e ?%elem_of_nil.
    + by intros e ?%elem_of_nil.
  - intros st h st' out. simpl.
    unfold Part000.on_disconnect, Part000.handleDisconnect. simpl.
    assert (∀ b : bool,
              Part000.sock (if b then Part000.set_waitingPlayer None
                                        (Part000.set_members
                                           (leave_all h (Part000.members st)) st)
                            else Part000.set_members
                                   (leave_all h (Part000.members st)) st) h
              = Part000.sock st h) as Hsock by (by intros []).
    rewrite Hsock.
    case_bool_decide as Hw;
      (destruct (Part000.roomId (Part000.sock st h)) as [rid|] eqn:Hrid;
       [destruct (Part000.rooms _ !! rid) as [ref|] eqn:Href; simpl in Href|]);
      intros Hok; inv_ok; subst; simpl;
      try match goal with
          | |- context [Part000.clearInterval (Part000.timer ?a)] =>
              destruct (Part000.timer a) eqn:?Htimer
          end; simpl; split_and!; try done; try lia.
    all: try (intros rid' Hne; apply lookup_delete_ne; congruence).
    all: try (by intros e ?%elem_of_nil).
    all: try (intros e ->%list_elem_of_singleton; eexists rid, _;
              split_and!; try done; apply Hleft).
Qed.

Lemma disconnect_closes_own_room_only_witness :
  ServerJs.heap (Play.server_next Play.paired (ServerJs.Disconnect "A"))
  = ServerJs.heap (Scenario.server_after Play.paired) ∧
  (length (Play.server_says Play.paired (ServerJs.Disconnect "A")) ≤ 1)%nat ∧
  "A" ∉ ServerJs.queue (Play.server_next Play.paired (ServerJs.Disconnect "A")).
Proof.
  destruct (proj1 (disconnect_closes_own_room_only Scenario.rnd)
              (Scenario.server_after Play.paired) "A"%string
              (Play.server_next Play.paired (ServerJs.Disconnect "A"))
              (Play.server_says Play.paired (ServerJs.Disconnect "A")))
    as (_ & Hheap & _ & Hlen & _ & Hq).
  - exists Play.paired, (Scenario.server_emits Play.paired).
    vm_compute. reflexivity.
  - vm_compute. reflexivity.
  - exact (conj Hheap (conj Hlen Hq)).
Defined.

(** X11: a round is revealed 20 seconds after it starts.  When a step
    announces [round_start] to a room and nothing else happens in between:
    in [src/unnamed/part_000] the first 19 firings of the interval it
    started emit nothing, the 20th emits [round_reveal] to the room, clears
    the interval and schedules the next round 8000 ms later; in
    [src/server.js] the one firing of the 20000 ms timeout it scheduled
    emits [round_reveal] and schedules the 8000 ms timeout. *)
Theorem round_is_revealed_after_twenty_seconds (random : nat → Z) :
  (∀ st ev st1 out e rid rs,
     Part000.step random st ev = Ok (st1, out) → e ∈ out →
     evname e = "round_start"%string → dest e = ToRoom rid rs →
     let tid := Part000.next_timer st in
     (∀ k, (k < 20)%nat →
        ∃ st2, Part000.exec random st1 (replicate k (Part000.Fire tid))
               = Ok (st2, [])) ∧
     ∃ st2,
       Part000.exec random st1 (replicate 20 (Part000.Fire tid))
       = Ok (st2, [to_room (Part000.members st1) rid "round_reveal" None]) ∧
       Part000.timers st2 !! tid = None ∧
       Part000.timers st2 !! S tid
       = Some {| Part000.delay := 8000; Part000.repeat := false;
                 Part000.run := Part000.StartRound rid |})
  ∧
  (∀ st ev st1 out e rid rs,
     ServerJs.step random st ev = Ok (st1, out) → e ∈ out →
     evname e = "round_start"%string → dest e = ToRoom rid rs →
     let tid := ServerJs.next_timer st in
     ∃ st2 ref,
       ServerJs.step random st1 (ServerJs.Fire tid)
       = Ok (st2, [to_room (ServerJs.members st1) rid "round_reveal" None]) ∧
       ServerJs.timers st2 !! tid = None ∧
       ServerJs.timers st2 !! S tid
       = Some {| ServerJs.delay := 8000;
                 ServerJs.run := ServerJs.EndOfReveal rid ref |}).
Proof.
  split.
  - intros st ev st1 out e rid rs Hs He Hname Hdest tid.
    destruct (CountdownFacts.round_start_ticking random _ _ _ _ _ _ _
                Hs He Hname Hdest)
      as (ref & r1 & ref' & Ht & Hr1 & Htimer & Hrid & Hnext).
    fold tid in Ht, Htimer, Hnext. split.
    + intros k Hk.
      destruct (CountdownFacts.ticks_wait random k st1 tid rid ref 20 Ht)
        as (st2 & He2 & _); [lia|]. by exists st2.
    + destruct (CountdownFacts.ticks_wait random 19 st1 tid rid ref 20 Ht)
        as (st2 & He2 & Ht2 & Hsame); [lia|].
      destruct Hsame as (Hso & Hw & Hro & Hh & Hm & Hn & Hg).
      destruct (CountdownFacts.tick_reveals random st2 tid rid ref ref' r1)
        as (st3 & Hs3 & Hgone & Hnew & _).
      { exact Ht2. }
      { by rewrite Hh. }
      { done. }
      { by rewrite Hro. }
      { rewrite Hn, Hnext. lia. }
      exists st3. split.
      * change (replicate 20 (Part000.Fire tid))
          with (replicate 19 (Part000.Fire tid) ++ [Part000.Fire tid]).
        rewrite (part_exec_snoc random _ _ _ _ _ _ _ He2 Hs3).
        by rewrite Hm.
      * split; [done|]. by rewrite <- Hnext, <- Hn.
  - intros st ev st1 out e rid rs Hs He Hname Hdest tid.
    destruct (CountdownFacts.round_start_guessing random _ _ _ _ _ _ _
                Hs He Hname Hdest) as (ref & ref' & Ht & Hrid & Hnext).
    fold tid in Ht, Hnext.
    eexists _, ref. simpl. rewrite Ht. simpl. rewrite Hrid.
    split; [done|]. simpl. split.
    + rewrite lookup_insert_ne by lia. apply lookup_delete_eq.
    + rewrite Hnext. apply lookup_insert_eq.
Qed.

Lemma round_is_revealed_after_twenty_seconds_witness :
  ∃ st2,
    Part000.exec Scenario.rnd
      (Play.part_next Play.part_paired (Part000.Fire 0))
      (replicate 20 (Part000.Fire 1))
    = Ok (st2,
          [to_room
             (Part000.members
                (Play.part_next Play.part_paired (Part000.Fire 0)))
             "room_A_B" "round_reveal" None]) ∧
    Part000.timers st2 !! 1%nat = None ∧
    Part000.timers st2 !! 2%nat
    = Some {| Part000.delay := 8000; Part000.repeat := false;
              Part000.run := Part000.StartRound "room_A_B" |}.
Proof.
  apply (proj1 (round_is_revealed_after_twenty_seconds Scenario.rnd)
           (Scenario.part_after Play.part_paired) (Part000.Fire 0)
           (Play.part_next Play.part_paired (Part000.Fire 0))
           (Play.part_says Play.part_paired (Part000.Fire 0))
           (default (to_socket EmptyString "none" None)
              (head (Play.part_says Play.part_paired (Part000.Fire 0))))
           "room_A_B"%string {["A"; "B"]}%string).
  - vm_compute. reflexivity.
  - vm_compute. apply list_elem_of_singleton. reflexivity.
  - vm_compute. reflexivity.
  - vm_compute. reflexivity.
Defined.

(** X12: timers are scheduled with the three announcements and never
    otherwise.  A step that emits [match_found], [round_start] or
    [round_reveal] emits nothing else and schedules exactly one timer: 3000
    ms after [match_found], 8000 ms after [round_reveal], and after
    [round_start] a 20000 ms timeout in [src/server.js] or a 1000 ms
    interval in [src/unnamed/part_000].  Any other step schedules nothing:
    every timer pending after it was pending before. *)
Theorem timers_follow_the_announcements (random : nat → Z) :
  (∀ st ev st' out,
     ServerJs.step random st ev = Ok (st', out) →
     (ServerJs.next_timer st' = ServerJs.next_timer st ∧
      (∀ tid t, ServerJs.timers st' !! tid = Some t →
         ServerJs.timers st !! tid = Some t) ∧
      (∀ e, e ∈ out →
         evname e ≠ "match_found" ∧ evname e ≠ "round_start" ∧
         evname e ≠ "round_reveal")%string)
     ∨ (∃ e t,
          out = [e] ∧
          ServerJs.next_timer st' = S (ServerJs.next_timer st) ∧
          ServerJs.timers st' !! ServerJs.next_timer st = Some t ∧
          (∀ tid t0, tid ≠ ServerJs.next_timer st →
             ServerJs.timers st' !! tid = Some t0 →
             ServerJs.timers st !! tid = Some t0) ∧
          ((evname e = "match_found" ∧ ServerJs.delay t = 3000)
           ∨ (evname e = "round_start" ∧ ServerJs.delay t = 20000)
           ∨ (evname e = "round_reveal" ∧ ServerJs.delay t = 8000))%string))
  ∧
  (∀ st ev st' out,
     Part000.step random st ev = Ok (st', out) →
     (Part000.next_timer st' = Part000.next_timer st ∧
      (∀ tid t, Part000.timers st' !! tid = Some t →
         is_Some (Part000.timers st !! tid)) ∧
      (∀ e, e ∈ out →
         evname e ≠ "match_found" ∧ evname e ≠ "round_start" ∧
         evname e ≠ "round_reveal")%string)
     ∨ (∃ e t,
          out = [e] ∧
          Part000.next_timer st' = S (Part000.next_timer st) ∧
          Part000.timers st' !! Part000.next_timer st = Some t ∧
          (∀ tid t1, tid ≠ Part000.next_timer st →
             Part000.timers st' !! tid = Some t1 →
             is_Some (Part000.timers st !! tid)) ∧
          ((evname e = "match_found" ∧ Part000.delay t = 3000 ∧
            Part000.repeat t = false)
           ∨ (evname e = "round_start" ∧ Part000.delay t = 1000 ∧
              Part000.repeat t = true)
           ∨ (evname e = "round_reveal" ∧ Part000.delay t = 8000 ∧
              Part000.repeat t = false))%string)).
Proof.
  split; intros st ev st' out Hs.
  - by apply (ScheduleFacts.step_schedule random st ev).
  - by apply (ScheduleFacts.part_step_schedule random st ev).
Qed.

Lemma timers_follow_the_announcements_witness :
  ∃ e t,
    Play.server_says Play.paired (ServerJs.Fire 0) = [e] ∧
    ServerJs.timers (Play.server_next Play.paired (ServerJs.Fire 0)) !! 1%nat
    = Some t ∧
    evname e = "round_start"%string ∧ ServerJs.delay t = 20000.
Proof.
  destruct (proj1 (timers_follow_the_announcements Scenario.rnd)
              (Scenario.server_after Play.paired) (ServerJs.Fire 0)
              (Play.server_next Play.paired (ServerJs.Fire 0))
              (Play.server_says Play.paired (ServerJs.Fire 0)))
    as [(Hn & _)|(e & t & Hout & _ & Ht & _ & Hd)].
  - vm_compute. reflexivity.
  - revert Hn. vm_compute. lia.
  - assert (evname e = "round_start"%string) as Hname.
    { revert Hout. vm_compute. by intros [= <-]. }
    exists e, t. split; [exact Hout|]. split; [exact Ht|].
    destruct Hd as [[Hm _]|[Hd|[Hr _]]]; [congruence|exact Hd|congruence].
Defined.

(** X13: [game_over] is sent only for a room object that has played its 15
    rounds, and it carries the final scores, each the binary64 sum, in the
    order of arrival, of the accepted submissions it counts.  In
    [src/server.js] these are [p1Score] and [p2Score], the points credited
    to the two sockets of the room object since each last identified; in
    [src/unnamed/part_000] they are the scoreboard of the registered room
    object, the submissions applied to it since it was built, and its two
    sockets then leave the room. *)
Theorem game_over_carries_final_scores (random : nat → Z) :
  (∀ evs st out0 ev st' out e,
     ServerJs.exec random ServerJs.init evs = Ok (st, out0) →
     ServerJs.step random st ev = Ok (st', out) → e ∈ out →
     evname e = "game_over"%string →
     ∃ ref r,
       ServerJs.heap st !! ref = Some r ∧ ServerJs.round r = 15 ∧
       payload e
       = Some (JObj
                 [("p1Score",
                   JDouble (ServerSpec.credited random (ServerJs.p1 r)
                              ServerJs.init evs (of_Z 0)));
                  ("p2Score",
                   JDouble (ServerSpec.credited random (ServerJs.p2 r)
                              ServerJs.init evs (of_Z 0)))]%string))
  ∧
  (∀ evs st out0 ev st' out e,
     Part000.exec random Part000.init evs = Ok (st, out0) →
     Part000.step random st ev = Ok (st', out) → e ∈ out →
     evname e = "game_over"%string →
     ∃ rid ref r,
       Part000.rooms st !! rid = Some ref ∧
       Part000.heap st !! ref = Some r ∧ Part000.round r = 15 ∧
       dest e = ToRoom rid (default ∅ (Part000.members st !! rid)) ∧
       payload e
       = Some (JObj
                 [("p1",
                   JDouble (Part000.sp1 (PartSpec.ledger random ref
                                           Part000.init evs PartSpec.zero)));
                  ("p2",
                   JDouble (Part000.sp2 (PartSpec.ledger random ref
                                           Part000.init evs PartSpec.zero)))
                 ]%string) ∧
       (Part000.p1 r
        ∉ default (∅ : gset string) (Part000.members st' !! rid)) ∧
       (Part000.p2 r
        ∉ default (∅ : gset string) (Part000.members st' !! rid))).
Proof.
  split.
  - intros evs st out0 ev st' out e Hexec Hs He Hname.
    destruct (GameOverFacts.step_game_over random _ _ _ _ _ Hs He Hname)
      as (ref & r & u1 & u2 & Hr & Hover & Hu1 & Hu2 & Hp).
    assert (ServerSpec.wf st) as Hwf
      by (apply (reachable_wf random); by exists evs, out0).
    destruct (ServerSpec.wf_round _ Hwf _ _ Hr) as (Hr0 & Hmax & _).
    exists ref, r. split; [done|]. split; [lia|].
    rewrite Hp.
    rewrite (LedgerFacts.credited_exec random (ServerJs.p1 r) evs
               ServerJs.init (of_Z 0) st out0 ltac:(done) Hexec u1 Hu1).
    rewrite (LedgerFacts.credited_exec random (ServerJs.p2 r) evs
               ServerJs.init (of_Z 0) st out0 ltac:(done) Hexec u2 Hu2).
    done.
  - intros evs st out0 ev st' out e Hexec Hs He Hname.
    destruct (GameOverFacts.part_step_game_over random _ _ _ _ _ Hs He Hname)
      as (rid & ref & r & Hrid & Hr & Hover & Hd & Hp & Hm).
    assert (PartSpec.wf st) as Hwf
      by (apply (part_reachable_wf random); by exists evs, out0).
    destruct (PartSpec.pwf_round _ Hwf _ _ Hr) as (Hr0 & Hmax & _).
    exists rid, ref, r. split_and!; try done; try lia.
    + rewrite Hp.
      by rewrite (LedgerFacts.ledger_exec random ref evs Part000.init
                    PartSpec.zero st out0 part_wf_init ltac:(done)
                    ltac:(done) Hexec r Hr).
    + rewrite Hm. unfold leave. rewrite lookup_insert_eq. simpl.
      rewrite lookup_insert_eq. simpl. set_solver.
    + rewrite Hm. unfold leave. rewrite lookup_insert_eq. simpl. set_solver.
Qed.

Lemma game_over_carries_final_scores_witness :
  ∃ ref r,
    ServerJs.heap (Scenario.server_after Play.last_reveal) !! ref = Some r ∧
    ServerJs.round r = 15 ∧
    payload (default (to_socket EmptyString "none" None)
               (head (Play.server_says Play.last_reveal (ServerJs.Fire 30))))
    = Some (JObj
              [("p1Score",
                JDouble (ServerSpec.credited Scenario.rnd (ServerJs.p1 r)
                           ServerJs.init Play.last_reveal (of_Z 0)));
               ("p2Score",
                JDouble (ServerSpec.credited Scenario.rnd (ServerJs.p2 r)
                           ServerJs.init Play.last_reveal (of_Z 0)))]%string).
Proof.
  apply (proj1 (game_over_carries_final_scores Scenario.rnd)
           Play.last_reveal (Scenario.server_after Play.last_reveal)
           (Scenario.server_emits Play.last_reveal) (ServerJs.Fire 30)
           (Play.server_next Play.last_reveal (ServerJs.Fire 30))
           (Play.server_says Play.last_reveal (ServerJs.Fire 30))).
  - vm_compute. reflexivity.
  - vm_compute. reflexivity.
  - vm_compute. apply list_elem_of_singleton. reflexivity.
  - vm_compute. reflexivity.
Defined.

(** X14: a deck is drawn with replacement.  [generateDeck(count)] makes
    exactly [count] calls of [Math.random] and its entry at position [i] is
    [Math.floor] of the [i]-th of these draws times 300; nothing removes a
    repeated index, so two draws that floor to the same index put the same
    song at two positions of the deck. *)
Theorem deck_is_drawn_with_replacement (random : nat → Z) :
  (∀ count cursor,
     ServerJs.generateDeck random count cursor
     = ((λ k, floor_random_times (random k) 300) <$> seq cursor count,
        (cursor + count)%nat))
  ∧
  (∀ size cursor,
     Part000.generateDeck random size cursor
     = ((λ k, floor_random_times (random k) 300) <$> seq cursor size,
        (cursor + size)%nat))
  ∧
  (∀ count cursor i j,
     (i < j < count)%nat →
     floor_random_times (random (cursor + i)%nat) 300
     = floor_random_times (random (cursor + j)%nat) 300 →
     ¬ NoDup (ServerJs.generateDeck random count cursor).1 ∧
     ¬ NoDup (Part000.generateDeck random count cursor).1).
Proof.
  assert (∀ count cursor,
            ServerJs.generateDeck random count cursor
            = ((λ k, floor_random_times (random k) 300) <$> seq cursor count,
               (cursor + count)%nat)) as Hs.
  { intros. unfold ServerJs.generateDeck.
    by rewrite DeckFacts.generateDeck_loop_draws. }
  assert (∀ size cursor,
            Part000.generateDeck random size cursor
            = ((λ k, floor_random_times (random k) 300) <$> seq cursor size,
               (cursor + size)%nat)) as Hp.
  { intros. unfold Part000.generateDeck.
    by rewrite DeckFacts.part_generateDeck_loop_draws. }
  split; [done|]. split; [done|].
  intros count cursor i j Hij Heq. rewrite Hs, Hp. simpl.
  split;
    apply (DeckFacts.repeated_entry
             (λ k, floor_random_times (random k) 300) cursor count i j Hij Heq).
Qed.

Lemma deck_is_drawn_with_replacement_witness :
  ¬ NoDup (ServerJs.generateDeck (λ _, 7) 15 0).1 ∧
  ¬ NoDup (Part000.generateDeck (λ _, 7) 15 0).1.
Proof.
  apply (proj2 (proj2 (deck_is_drawn_with_replacement (λ _, 7)))
           15%nat 0%nat 0%nat 1%nat).
  - lia.
  - reflexivity.
Defined.

(** X15: [socket.roomId] is written by a pairing and by nothing else.  A
    step leaves the [roomId] of every socket as it was, unless it pairs the
    socket, which sets it to the id of the new room.  No handler clears it:
    after [game_over], [opponent_left] or the socket's own disconnect it
    still names the closed room. *)
Theorem room_id_is_only_set_by_pairing (random : nat → Z) :
  (∀ st ev st' out h,
     ServerJs.step random st ev = Ok (st', out) →
     ServerJs.roomId (ServerJs.sock st' h) = ServerJs.roomId (ServerJs.sock st h)
     ∨ ∃ opp hn,
         ServerInv.pairs st ev opp hn ∧ (h = opp ∨ h = hn) ∧
         ServerJs.roomId (ServerJs.sock st' h)
         = Some ("room_" +:+ opp +:+ "_" +:+ hn)%string)
  ∧
  (∀ st ev st' out h,
     Part000.step random st ev = Ok (st', out) →
     Part000.roomId (Part000.sock st' h) = Part000.roomId (Part000.sock st h)
     ∨ ∃ opp hn,
         PartInv.pairs st ev opp hn ∧ (h = opp ∨ h = hn) ∧
         Part000.roomId (Part000.sock st' h)
         = Some ("room_" +:+ opp +:+ "_" +:+ hn)%string).
Proof.
  split; intros st ev st' out h Hs.
  - assert (ServerJs.roomId (ServerJs.sock st' h) = None →
            ServerJs.roomId (ServerJs.sock st h) = None) as Hkept.
    { revert Hs. CaseTactics.server_cases random; simpl;
        autorewrite with sockdb; try done.
      repeat case_decide; subst; done. }
    destruct (ServerJs.roomId (ServerJs.sock st' h)) as [rid'|] eqn:Hrid'.
    + destruct (StoreFacts.step_roomId random _ _ _ _ _ _ Hs Hrid')
        as [Hold|(opp & hn & Hp & -> & Hh)]; [by left|].
      right. by exists opp, hn.
    + left. by rewrite Hkept.
  - assert (Part000.roomId (Part000.sock st' h) = None →
            Part000.roomId (Part000.sock st h) = None) as Hkept.
    { revert Hs. CaseTactics.part_cases random; simpl;
        autorewrite with partdb; try done.
      repeat case_decide; subst; done. }
    destruct (Part000.roomId (Part000.sock st' h)) as [rid'|] eqn:Hrid'.
    + destruct (PartStoreFacts.part_step_roomId random _ _ _ _ _ _ Hs Hrid')
        as [Hold|(opp & hn & Hp & -> & Hh)]; [by left|].
      right. by exists opp, hn.
    + left. by rewrite Hkept.
Qed.

Lemma room_id_is_only_set_by_pairing_witness :
  ServerJs.roomId
    (ServerJs.sock (Play.server_next Play.last_reveal (ServerJs.Fire 30)) "A")
  = Some "room_A_B"%string.
Proof.
  destruct (proj1 (room_id_is_only_set_by_pairing Scenario.rnd)
              (Scenario.server_after Play.last_reveal) (ServerJs.Fire 30)
              (Play.server_next Play.last_reveal (ServerJs.Fire 30))
              (Play.server_says Play.last_reveal (ServerJs.Fire 30))
              "A"%string) as [Hsame|(opp & hn & (d & rest & Hev & _) & _)].
  - vm_compute. reflexivity.
  - rewrite Hsame. vm_compute. reflexivity.
  - discriminate Hev.
Defined.
